(** * diceroll: a shallow embedding of the generate / filter / statistics pipeline

    The development follows the most complete variant of the tool (the one with
    [--include], [--stat-all] and the variance family).  The program is a single
    translation unit: [parse_args] validates the flags, [main] runs the
    generation loop and then prints the requested statistics.

    Modelling choices.
    - [long double] values are an extended rational line: exact rationals
      ([Qc], canonical fractions), negative zero, the two infinities and
      not-a-number, with the IEEE rules for the sign of zero and for the
      special values.  The rounding of [long double] operations is not
      represented; the narrowing to [double] made by
      [std::accumulate(..., 0.0)] is ([LD.to_double]).
    - [long long] and [int] are [Z]; the loop counter is shown to stay within
      [1 .. number + 1].
    - The pseudo random engines are external: the sequence of values returned
      by successive calls of [random(args)] is a function [nat -> ldouble].
    - Dereferencing a past-the-end iterator is undefined behaviour; the
      statistics return an [outcome] that makes it explicit. *)

From Stdlib Require Import ZArith QArith Qcanon Qround.
From Stdlib Require Import List String Ascii Bool Lia Lqa.
From Stdlib Require Import Permutation Sorted.
From Stdlib Require DecimalString DecimalN DecimalPos DecimalFacts.
Import ListNotations.

Local Open Scope Z_scope.

(** ** Values *)

Inductive ldouble : Type :=
| Fin (q : Qc)            (* a finite value; [Fin 0] is +0 *)
| Inf (negative : bool)
| NaN
| NegZero.                (* -0 *)

Definition Qc_of_Z (z : Z) : Qc := Q2Qc (inject_Z z).

Definition Qc_ltb (a b : Qc) : bool :=
  match Qccompare a b with Lt => true | _ => false end.

Definition Qc_is_zero (a : Qc) : bool := Qc_eq_bool a (Qc_of_Z 0).

Definition Qc_is_neg (a : Qc) : bool := Qc_ltb a (Qc_of_Z 0).

(** [n / d] for [d > 0], rounded to the nearest integer, ties to even. *)
Definition div_half_even (n d : Z) : Z :=
  let k := n / d in
  let r := n mod d in
  match 2 * r ?= d with
  | Lt => k
  | Gt => k + 1
  | Eq => if Z.even k then k else k + 1
  end.

(** The integer part of the binary logarithm of [n / d], for [n, d > 0]. *)
Definition floor_log2 (n d : Z) : Z :=
  let e0 := Z.log2 n - Z.log2 d in
  if (if 0 <=? e0 then d * 2 ^ e0 <=? n else d <=? n * 2 ^ (- e0))
  then e0 else e0 - 1.

(** [2 ^ e] for an integer [e] of either sign. *)
Definition Qc_pow2 (e : Z) : Qc :=
  if 0 <=? e then Qc_of_Z (2 ^ e) else Q2Qc (1 # Z.to_pos (2 ^ (- e))).

Module LD.

(** Zero with the given sign. *)
Definition zero (negative : bool) : ldouble :=
  if negative then NegZero else Fin (Qc_of_Z 0).

(** The finite result [q] of an operation whose zero results carry the
    sign [negative]. *)
Definition signed (negative : bool) (q : Qc) : ldouble :=
  if negative && Qc_is_zero q then NegZero else Fin q.

(** [a == b]: not-a-number is equal to nothing, itself included; the two
    zeros are equal. *)
Definition eqb (a b : ldouble) : bool :=
  match a, b with
  | Fin x, Fin y => Qc_eq_bool x y
  | Fin x, NegZero | NegZero, Fin x => Qc_is_zero x
  | NegZero, NegZero => true
  | Inf s, Inf t => Bool.eqb s t
  | _, _ => false
  end.

(** [a < b]: every comparison with not-a-number is false. *)
Definition ltb (a b : ldouble) : bool :=
  match a, b with
  | Fin x, Fin y => Qc_ltb x y
  | Fin x, NegZero => Qc_is_neg x
  | NegZero, Fin y => Qc_ltb (Qc_of_Z 0) y
  | Fin _, Inf t | NegZero, Inf t => negb t
  | Inf s, Fin _ | Inf s, NegZero => s
  | Inf s, Inf t => s && negb t
  | _, _ => false
  end.

Definition opp (a : ldouble) : ldouble :=
  match a with
  | Fin x => if Qc_is_zero x then NegZero else Fin (Qcopp x)
  | Inf s => Inf (negb s)
  | NaN => NaN
  | NegZero => Fin (Qc_of_Z 0)
  end.

(** Addition: a zero sum of two non-zero or opposite-signed terms is +0. *)
Definition add (a b : ldouble) : ldouble :=
  match a, b with
  | Fin x, Fin y => Fin (Qcplus x y)
  | Fin x, NegZero | NegZero, Fin x => Fin x
  | NegZero, NegZero => NegZero
  | Fin _, Inf t | NegZero, Inf t => Inf t
  | Inf s, Fin _ | Inf s, NegZero => Inf s
  | Inf s, Inf t => if Bool.eqb s t then Inf s else NaN
  | _, _ => NaN
  end.

Definition sub (a b : ldouble) : ldouble := add a (opp b).

(** Multiplication: the sign of a zero product is the product of the
    signs; zero times an infinity is not-a-number. *)
Definition mul (a b : ldouble) : ldouble :=
  match a, b with
  | Fin x, Fin y => signed (xorb (Qc_is_neg x) (Qc_is_neg y)) (Qcmult x y)
  | Fin x, NegZero | NegZero, Fin x => zero (negb (Qc_is_neg x))
  | NegZero, NegZero => zero false
  | Fin x, Inf t | Inf t, Fin x =>
      if Qc_is_zero x then NaN else Inf (xorb (Qc_is_neg x) t)
  | Inf s, Inf t => Inf (xorb s t)
  | _, _ => NaN
  end.

(** Division: [0/0] and [inf/inf] are not-a-number, [x/0] is an infinity,
    [x/inf] is a zero. *)
Definition div (a b : ldouble) : ldouble :=
  match a, b with
  | Fin x, Fin y =>
      if Qc_is_zero y
      then (if Qc_is_zero x then NaN else Inf (Qc_is_neg x))
      else signed (xorb (Qc_is_neg y) (Qc_is_neg x)) (Qcdiv x y)
  | Fin x, NegZero =>
      if Qc_is_zero x then NaN else Inf (negb (Qc_is_neg x))
  | NegZero, Fin y =>
      if Qc_is_zero y then NaN else zero (negb (Qc_is_neg y))
  | Fin x, Inf t => zero (xorb (Qc_is_neg x) t)
  | NegZero, Inf t => zero (negb t)
  | Inf s, Fin y => Inf (xorb s (Qc_is_neg y))
  | Inf s, NegZero => Inf (negb s)
  | _, _ => NaN
  end.

(** [std::pow(x, 2)] *)
Definition pow2 (a : ldouble) : ldouble := mul a a.

(** [std::sqrt]; the root of a finite non-negative rational is supplied by
    the caller, since it is in general not rational. *)
Definition sqrt (root : Qc -> Qc) (a : ldouble) : ldouble :=
  match a with
  | Fin x => if Qc_is_neg x then NaN else Fin (root x)
  | Inf false => Inf false
  | NegZero => NegZero
  | _ => NaN
  end.

(** Conversion of [generated.size()] to floating point. *)
Definition of_size (n : nat) : ldouble := Fin (Qc_of_Z (Z.of_nat n)).

Definition of_Z (z : Z) : ldouble := Fin (Qc_of_Z z).

(** A rounding to an integer: a zero result keeps the sign of the argument. *)
Definition lift (f : Qc -> Z) (a : ldouble) : ldouble :=
  match a with
  | Fin x => signed (Qc_is_neg x) (Qc_of_Z (f x))
  | _ => a
  end.

Definition half : Qc := Q2Qc (1 # 2).

(** [std::ceil], [std::floor], [std::round] (ties away from zero),
    [std::trunc]. *)
Definition ceil : ldouble -> ldouble := lift (fun x => Qceiling x).
Definition floor : ldouble -> ldouble := lift (fun x => Qfloor x).
Definition round : ldouble -> ldouble :=
  lift (fun x => if Qc_is_neg x then Qceiling (Qcminus x half)
                 else Qfloor (Qcplus x half)).
Definition trunc : ldouble -> ldouble :=
  lift (fun x => if Qc_is_neg x then Qceiling x else Qfloor x).

(** The non-zero rational [q] rounded to the nearest binary64 number, ties
    to even: 53 significant bits for normal numbers, multiples of [2^-1074]
    below [2^-1022], an infinity from [2^1024 - 2^970] on, a signed zero when
    it underflows. *)
Definition round_to_double (q : Qc) : ldouble :=
  let n := Z.abs (Qnum q) in
  let d := Z.pos (Qden q) in
  let e := Z.max (floor_log2 n d) (-1022) in
  let u := e - 52 in
  let m := if 0 <=? u then div_half_even n (d * 2 ^ u)
           else div_half_even (n * 2 ^ (- u)) d in
  if (0 <=? u) && (2 ^ 1024 <=? m * 2 ^ u) then Inf (Qc_is_neg q)
  else signed (Qc_is_neg q)
         (Qcmult (Qc_of_Z (if Qc_is_neg q then - m else m)) (Qc_pow2 u)).

(** The conversion of a [long double] to [double]. *)
Definition to_double (a : ldouble) : ldouble :=
  match a with
  | Fin q => if Qc_is_zero q then a else round_to_double q
  | _ => a
  end.

End LD.

(** ** Configuration and validation *)

Inductive returnID : Type :=
| success_help | success
| overd_err | underd_err | zero_err | gen_err | conflict_err | vect_nan
| known_err | other_err.

Definition returnID_code (r : returnID) : Z :=
  match r with
  | success_help => -1
  | success => 0
  | overd_err => 1
  | underd_err => 2
  | zero_err => 3
  | gen_err => 4
  | conflict_err => 5
  | vect_nan => 6
  | known_err => 7
  | other_err => 8
  end.

(** [struct program_args].  The field [list] of the source is [list_mode]
    here, the name [list] being the type of sequences. *)
Record program_args : Type := {
  (* general *)
  precision : Z;
  quiet : bool; list_mode : bool; numbers_force : bool; flags : bool;
  delim : string;
  (* intern *)
  number : Z;
  lbound : ldouble; ubound : ldouble;
  generator : string;
  (* rounding *)
  ceil : bool; floor : bool; round : bool; trunc : bool;
  (* matcher *)
  excluded : list ldouble; included : list ldouble;
  norepeat : bool;
  prefix : list string; suffix : list string; contains : list string;
  (* stats *)
  stat_all : bool; stat_min : bool; stat_max : bool; stat_median : bool;
  stat_avg : bool; stat_var : bool; stat_std : bool; stat_coef : bool
}.

Definition set_precision (p : Z) (a : program_args) : program_args :=
  {| precision := p;
     quiet := quiet a; list_mode := list_mode a;
     numbers_force := numbers_force a; flags := flags a; delim := delim a;
     number := number a; lbound := lbound a; ubound := ubound a;
     generator := generator a;
     ceil := ceil a; floor := floor a; round := round a; trunc := trunc a;
     excluded := excluded a; included := included a; norepeat := norepeat a;
     prefix := prefix a; suffix := suffix a; contains := contains a;
     stat_all := stat_all a; stat_min := stat_min a; stat_max := stat_max a;
     stat_median := stat_median a; stat_avg := stat_avg a;
     stat_var := stat_var a; stat_std := stat_std a; stat_coef := stat_coef a |}.

Definition gen_opts : list string :=
  [ "minstd_rand0"; "minstd_rand"; "mt19937"; "mt19937_64"; "ranlux24_base";
    "ranlux48_base"; "ranlux24"; "ranlux48"; "knuth_b";
    "default_random_engine"; "badrandom" ]%string.

Definition string_mem (s : string) (l : list string) : bool :=
  existsb (String.eqb s) l.

Definition is_digit_or_dot (c : ascii) : bool :=
  let n := N_of_ascii c in
  ((48 <=? n)%N && (n <=? 57)%N) || (n =? 46)%N.

Fixpoint all_chars (p : ascii -> bool) (s : string) : bool :=
  match s with
  | EmptyString => true
  | String c r => p c && all_chars p r
  end.

Fixpoint count_char (c : ascii) (s : string) : nat :=
  match s with
  | EmptyString => O
  | String d r => (if Ascii.eqb c d then 1 else 0) + count_char c r
  end%nat.

(** The test applied to each prefix / suffix / contains pattern:
    [j.find_first_not_of("0123456789.") != npos || count(j, '.') > 1]. *)
Definition not_numeric (j : string) : bool :=
  negb (all_chars is_digit_or_dot j) || (1 <? count_char "."%char j)%nat.

Definition bool_to_Z (b : bool) : Z := if b then 1 else 0.

Definition rounding_count (a : program_args) : Z :=
  bool_to_Z (ceil a) + bool_to_Z (floor a) + bool_to_Z (round a)
  + bool_to_Z (trunc a).

Definition rounding_active (a : program_args) : bool :=
  ceil a || floor a || round a || trunc a.

(** [parse_args] after the option library has filled [args]: [help] tells
    whether [--help] was given, [ld_prec] is
    [std::numeric_limits<long double>::max_digits10].  The structure is passed
    by reference, so the (possibly modified) structure is returned together
    with the code. *)
Definition parse_args (ld_prec : Z) (help : bool) (args : program_args)
  : returnID * program_args :=
  if help then (success_help, args)
  else if ld_prec <? precision args then (overd_err, args)
  else if precision args <=? -1 then (underd_err, args)
  else if number args <=? 0 then (zero_err, args)
  else if negb (string_mem (generator args) gen_opts) then (gen_err, args)
  else if 1 <? rounding_count args then (conflict_err, args)
  else
    let args' := if rounding_active args then set_precision 0 args else args in
    if existsb not_numeric (prefix args' ++ suffix args' ++ contains args')
    then (vect_nan, args')
    else (success, args').

(** The largest [long long]. *)
Definition LLONG_MAX : Z := 9223372036854775807.

(** [max_digits10] of the x87 extended format. *)
Definition ld_prec_x87 : Z := 21.

(** ** Fixed-point rendering and string predicates *)

Definition string_of_N (n : N) : string :=
  DecimalString.NilZero.string_of_uint (N.to_uint n).

Definition digit_char (d : Z) : ascii := ascii_of_N (48 + Z.to_N d).

(** The [p] least significant decimal digits of [m], most significant first. *)
Fixpoint frac_digits (p : nat) (m : Z) (acc : string) : string :=
  match p with
  | O => acc
  | S p' => frac_digits p' (m / 10) (String (digit_char (m mod 10)) acc)
  end.

(** [|q| * 10^p] rounded to the nearest integer, ties to even. *)
Definition scaled_round (p : nat) (q : Qc) : Z :=
  let n := Z.abs (Qnum q) * 10 ^ Z.of_nat p in
  let d := Z.pos (Qden q) in
  let k := n / d in
  let r := n mod d in
  match 2 * r ?= d with
  | Lt => k
  | Gt => k + 1
  | Eq => if Z.even k then k else k + 1
  end.

(** The fixed notation of the magnitude of [q] with [p] digits after the
    point, behind a minus sign when [negative]. *)
Definition fixed_digits (negative : bool) (p : nat) (q : Qc) : string :=
  let m := scaled_round p q in
  let whole := string_of_N (Z.to_N (m / 10 ^ Z.of_nat p)) in
  let body :=
    match p with
    | O => whole
    | S _ => (whole ++ "." ++ frac_digits p (m mod 10 ^ Z.of_nat p) "")%string
    end in
  if negative then String "-" body else body.

(** [oss << std::fixed << std::setprecision(precision) << rand] *)
Definition to_fixed (precision : Z) (rand : ldouble) : string :=
  match rand with
  | NaN => "nan"
  | Inf s => if s then "-inf" else "inf"
  | Fin q => fixed_digits (Qc_is_neg q) (Z.to_nat precision) q
  | NegZero => fixed_digits true (Z.to_nat precision) (Qc_of_Z 0)
  end%string.

Definition string_of_Z (z : Z) : string :=
  if z <? 0 then String "-" (string_of_N (Z.to_N (- z)))
  else string_of_N (Z.to_N z).

Module boost.

(** [boost::starts_with(input, test)] *)
Definition starts_with (input test : string) : bool :=
  String.prefix test input.

(** [boost::ends_with(input, test)] *)
Definition ends_with (input test : string) : bool :=
  let li := String.length input in
  let lt := String.length test in
  (lt <=? li)%nat && String.eqb (String.substring (li - lt) lt input) test.

(** [boost::contains(input, test)] *)
Fixpoint contains (input test : string) : bool :=
  String.prefix test input ||
  match input with
  | EmptyString => false
  | String _ rest => contains rest test
  end.

End boost.

(** [filter]: true when no pattern of [fx] matches the rendered value. *)
Definition filter (rand : ldouble) (precision : Z) (fx : list string)
  (predicate : string -> string -> bool) : bool :=
  let str_rand := to_fixed precision rand in
  forallb (fun s => negb (predicate str_rand s)) fx.

(** ** The generation loop *)

(** [std::find(v.begin(), v.end(), x) != v.end()] *)
Definition found (x : ldouble) (v : list ldouble) : bool :=
  existsb (fun y => LD.eqb y x) v.

Definition is_empty {A : Type} (v : list A) : bool :=
  match v with [] => true | _ => false end.

Definition apply_rounding (args : program_args) (rand : ldouble) : ldouble :=
  if ceil args then LD.ceil rand
  else if floor args then LD.floor rand
  else if round args then LD.round rand
  else if trunc args then LD.trunc rand
  else rand.

(** The chain of [if ... continue; else if ... continue;] tests of the loop
    body: true when the draw is skipped. *)
Definition rejected (args : program_args) (generated : list ldouble)
  (rand : ldouble) : bool :=
  if negb (is_empty (excluded args)) && found rand (excluded args) then true
  else if negb (is_empty (included args)) && negb (found rand (included args))
  then true
  else if norepeat args && found rand generated then true
  else if negb (is_empty (prefix args))
          && filter rand (precision args) (prefix args) boost.starts_with
  then true
  else if negb (is_empty (suffix args))
          && filter rand (precision args) (suffix args) boost.ends_with
  then true
  else if negb (is_empty (contains args))
          && filter rand (precision args) (contains args) boost.contains
  then true
  else false.

Record loop_state : Type := {
  i : Z;                       (* the loop counter *)
  list_cnt : Z;
  generated : list ldouble;
  drawn : nat;                 (* number of calls of random(args) so far *)
  output : list string         (* what was written to std::cout, in order *)
}.

Definition loop_init : loop_state :=
  {| i := 1; list_cnt := 0; generated := []; drawn := 0; output := [] |}.

(** The text written for an accepted draw when [quiet] is off. *)
Definition emit (args : program_args) (i list_cnt : Z) (rand : ldouble)
  : string :=
  ((if list_mode args && numbers_force args
    then string_of_Z i ++ ". " else "")
   ++ (if list_mode args then string_of_Z list_cnt ++ ". " else "")
   ++ to_fixed (precision args) rand ++ delim args)%string.

(** One execution of the body of
    [for(long long i = 1; i <= args.number;) { ... }]. *)
Definition loop_body (args : program_args) (rng : nat -> ldouble)
  (s : loop_state) : loop_state :=
  let i1 := if numbers_force args then i s else i s + 1 in
  let cnt := if list_mode args then list_cnt s + 1 else list_cnt s in
  let rand := apply_rounding args (rng (drawn s)) in
  if rejected args (generated s) rand then
    {| i := i1; list_cnt := cnt; generated := generated s;
       drawn := S (drawn s); output := output s |}
  else if quiet args then
    {| i := i1; list_cnt := cnt; generated := generated s ++ [rand];
       drawn := S (drawn s); output := output s |}
  else
    {| i := if numbers_force args then i1 + 1 else i1;
       list_cnt := cnt; generated := generated s ++ [rand];
       drawn := S (drawn s);
       output := output s ++ [emit args i1 cnt rand] |}.

Definition loop_cond (args : program_args) (s : loop_state) : bool :=
  i s <=? number args.

(** The loop, bounded by [fuel] iterations: [None] when the condition still
    holds after [fuel] executions of the body. *)
Fixpoint main_loop (fuel : nat) (args : program_args) (rng : nat -> ldouble)
  (s : loop_state) : option loop_state :=
  if loop_cond args s then
    match fuel with
    | O => None
    | S fuel' => main_loop fuel' args rng (loop_body args rng s)
    end
  else Some s.

(** The state after [n] executions of the body, whatever the condition. *)
Fixpoint iterate (n : nat) (args : program_args) (rng : nat -> ldouble)
  (s : loop_state) : loop_state :=
  match n with
  | O => s
  | S n' => iterate n' args rng (loop_body args rng s)
  end.

(** ** Statistics *)

(** What a statistic writes: a value, or nothing defined when the code
    dereferences a past-the-end iterator. *)
Inductive outcome : Type :=
| Printed (v : ldouble)
| Undefined.

(** [*it] for the iterator [v.begin() + k]. *)
Definition deref (v : list ldouble) (k : nat) : outcome :=
  match nth_error v k with
  | Some x => Printed x
  | None => Undefined
  end.

Fixpoint minmax_scan (v : list ldouble) (k : nat) (mn mx : nat * ldouble)
  : nat * nat :=
  match v with
  | [] => (fst mn, fst mx)
  | x :: r =>
      minmax_scan r (S k)
        (if LD.ltb x (snd mn) then (k, x) else mn)
        (if LD.ltb x (snd mx) then mx else (k, x))
  end.

(** [std::minmax_element]: the first smallest and the last largest element,
    as offsets from [begin]; on an empty range both are [end]. *)
Definition minmax_element (v : list ldouble) : nat * nat :=
  match v with
  | [] => (O, O)
  | x :: r => minmax_scan r 1%nat (O, x) (O, x)
  end.

Fixpoint max_scan (v : list ldouble) (k : nat) (best : nat * ldouble) : nat :=
  match v with
  | [] => fst best
  | x :: r => max_scan r (S k) (if LD.ltb (snd best) x then (k, x) else best)
  end.

(** [std::max_element]: the first largest element; [end] on an empty range. *)
Definition max_element (v : list ldouble) : nat :=
  match v with
  | [] => O
  | x :: r => max_scan r 1%nat (O, x)
  end.

(** The contract of [std::nth_element(first, first + k, last)]: the range is
    permuted, the element at [k] is the one a full sort would put there,
    nothing before it is greater than anything from [k] on. *)
Definition nth_element_post (before : list ldouble) (k : nat)
  (after : list ldouble) : Prop :=
  Permutation before after /\
  forall a b x y,
    nth_error after a = Some x -> nth_error after b = Some y ->
    ((a < k)%nat /\ (k <= b)%nat) \/ (a = k /\ (k < b)%nat) ->
    LD.ltb y x = false.

Fixpoint insert_sorted (x : ldouble) (v : list ldouble) : list ldouble :=
  match v with
  | [] => [x]
  | y :: r => if LD.ltb x y then x :: y :: r else y :: insert_sorted x r
  end.

Definition sort (v : list ldouble) : list ldouble :=
  fold_right insert_sorted [] v.

(** An executable [nth_element]: a full sort meets the contract. *)
Definition nth_element (v : list ldouble) (k : nat) : list ldouble := sort v.

(** The median block, from the line after the call of [nth_element]:
    [generated] is the vector as that call left it. *)
Definition median_after (generated : list ldouble) : outcome :=
  let midpoint := (List.length generated / 2)%nat in
  match deref generated midpoint with
  | Undefined => Undefined
  | Printed median =>
      if Nat.eqb (List.length generated mod 2) 0 then
        let lower := firstn midpoint generated in
        match deref lower (max_element lower) with
        | Undefined => Undefined
        | Printed m => Printed (LD.div (LD.add median m) (LD.of_Z 2))
        end
      else Printed median
  end.

Definition median_of (generated : list ldouble) : outcome :=
  median_after (nth_element generated (List.length generated / 2)).

Definition min_of (generated : list ldouble) : outcome :=
  deref generated (fst (minmax_element generated)).

Definition max_of (generated : list ldouble) : outcome :=
  deref generated (snd (minmax_element generated)).

(** [std::accumulate(generated.begin(), generated.end(), 0.0)]: the initial
    value [0.0] makes the accumulator a [double], so every partial sum is
    converted to [double]. *)
Definition accumulate (generated : list ldouble) : ldouble :=
  fold_left (fun acc x => LD.to_double (LD.add acc x)) generated (LD.of_Z 0).

(** [std::accumulate(...) / generated.size()]: a division of a [double] by
    an integer, made in [double]. *)
Definition avg_of (generated : list ldouble) : ldouble :=
  LD.to_double
    (LD.div (accumulate generated)
       (LD.to_double (LD.of_size (List.length generated)))).

(** [for(const auto & i : generated) var += std::pow(i - avg, 2);] *)
Definition sum_sq_dev (generated : list ldouble) (avg : ldouble) : ldouble :=
  fold_left (fun var x => LD.add var (LD.pow2 (LD.sub x avg)))
    generated (LD.of_Z 0).

Definition variance_of (generated : list ldouble) : ldouble :=
  let avg := avg_of generated in
  let var := sum_sq_dev generated avg in
  LD.div var (LD.of_size (List.length generated)).

Definition std_of (root : Qc -> Qc) (generated : list ldouble) : ldouble :=
  let avg := avg_of generated in
  let std := sum_sq_dev generated avg in
  LD.sqrt root (LD.div std (LD.of_size (List.length generated))).

Definition coef_of (root : Qc -> Qc) (generated : list ldouble) : ldouble :=
  let avg := avg_of generated in
  let std := sum_sq_dev generated avg in
  LD.div (LD.sqrt root (LD.div std (LD.of_size (List.length generated)))) avg.

(** The statistics block of [main]: the labelled lines in the order in which
    they are written.  The median block reorders [generated] in place, so the
    later blocks read the reordered vector. *)
Definition statistics (root : Qc -> Qc) (args : program_args)
  (generated : list ldouble) : list (string * outcome) :=
  let all := stat_all args in
  let generated' :=
    if all || stat_median args
    then nth_element generated (List.length generated / 2) else generated in
  (if all || stat_min args then [("min: "%string, min_of generated)] else [])
  ++ (if all || stat_max args then [("max: "%string, max_of generated)] else [])
  ++ (if all || stat_median args
      then [("median: "%string, median_after generated')] else [])
  ++ (if all || stat_avg args
      then [("avg: "%string, Printed (avg_of generated'))] else [])
  ++ (if all || stat_var args
      then [("variance: "%string, Printed (variance_of generated'))] else [])
  ++ (if all || stat_std args
      then [("standard deviation: "%string, Printed (std_of root generated'))]
      else [])
  ++ (if all || stat_coef args
      then [("coefficient of variation: "%string,
             Printed (coef_of root generated'))] else []).

(** ** The whole program *)

Definition newline : string := String (ascii_of_nat 10) EmptyString.

(** How a run ends: with an exit code, or in undefined behaviour when a
    statistics block dereferences a past-the-end iterator. *)
Inductive ending : Type :=
| Exit (code : Z)
| Undefined_behaviour.

(** What is written to [std::cout]: text, a labelled statistic, the table
    of options that the option library renders for [--help], the dump of
    the configuration made for [--flags]. *)
Inductive stdout_item : Type :=
| Text (s : string)
| Stat_line (label : string) (v : ldouble)
| Option_table
| Flags_dump.

Record run_result : Type := {
  ending_of_run : ending;
  printed : list stdout_item;     (* [std::cout], in order *)
  errors : list string            (* [std::cerr], in order *)
}.

(** The message that [parse_args] writes to [std::cerr] with each code. *)
Definition error_text (ld_prec : Z) (r : returnID) : list string :=
  match r with
  | overd_err =>
      [("error: --precision cannot be greater than the precision"
        ++ " for <long double> (" ++ string_of_Z ld_prec ++ ")" ++ newline)
       %string]
  | underd_err => [("error: --precision cannot be < 0" ++ newline)%string]
  | zero_err =>
      [("error: the argument for option '--number' is invalid"
        ++ " (must be >= 1)" ++ newline)%string]
  | gen_err =>
      [("error: --generator must be: minstd_rand0, minstd_rand, "
        ++ "mt19937, mt19937_64, ranlux24_base, ranlux48_base, "
        ++ "ranlux24, ranlux48, knuth_b, default_random_engine, badrandom"
        ++ newline)%string]
  | conflict_err =>
      [("error: --ceil, --floor, --round, and --trunc"
        ++ " are mutually exclusive" ++ newline)%string]
  | vect_nan =>
      [("error: --prefix, --suffix, and --contains can only be numbers"
        ++ newline)%string]
  | _ => []
  end.

(** The lines of the statistics blocks up to the first block that
    dereferences a past-the-end iterator; the flag tells whether every block
    was defined. *)
Fixpoint write_statistics (l : list (string * outcome))
  : list stdout_item * bool :=
  match l with
  | [] => ([], true)
  | (label, Printed v) :: r =>
      (Stat_line label v :: fst (write_statistics r),
       snd (write_statistics r))
  | (_, Undefined) :: _ => ([], false)
  end.

Definition any_stat (args : program_args) : bool :=
  stat_all args || stat_min args || stat_max args || stat_median args
  || stat_avg args || stat_var args || stat_std args || stat_coef args.

(** [main], from the call of [parse_args] on: validation, the generation
    loop, the separating newlines, the statistics blocks, the dump of the
    flags.  [None] when the loop is still running after [fuel] iterations.
    From a dereference of a past-the-end iterator on nothing is defined:
    [printed] then holds what was written before that block. *)
Definition main (ld_prec : Z) (help : bool) (root : Qc -> Qc) (fuel : nat)
  (raw : program_args) (rng : nat -> ldouble) : option run_result :=
  match parse_args ld_prec help raw with
  | (success, args) =>
      match main_loop fuel args rng loop_init with
      | None => None
      | Some s =>
          let listed :=
            map Text (output s)
            ++ (if negb (String.eqb (delim args) newline) && negb (quiet args)
                then [Text newline] else [])
            ++ (if any_stat args && negb (quiet args)
                then [Text newline] else []) in
          let stats := write_statistics
                         (statistics root args (generated s)) in
          if snd stats then
            Some {| ending_of_run := Exit (returnID_code success);
                    printed := listed ++ fst stats
                               ++ (if flags args then [Flags_dump] else []);
                    errors := [] |}
          else
            Some {| ending_of_run := Undefined_behaviour;
                    printed := listed ++ fst stats;
                    errors := [] |}
      end
  | (success_help, _) =>
      Some {| ending_of_run := Exit 0;
              printed := [Option_table; Text newline];
              errors := [] |}
  | (r, _) =>
      Some {| ending_of_run := Exit (returnID_code r);
              printed := [];
              errors := error_text ld_prec r |}
  end.

(** ** Reference notions used in the statements *)

(** Sum of a list of rationals. *)
Fixpoint Qc_sum (l : list Qc) : Qc :=
  match l with
  | [] => Qc_of_Z 0
  | x :: r => Qcplus x (Qc_sum r)
  end.

Definition Qc_len (l : list Qc) : Qc := Qc_of_Z (Z.of_nat (List.length l)).

Definition Qc_mean (l : list Qc) : Qc := Qcdiv (Qc_sum l) (Qc_len l).

(** Population variance: squared deviations from the mean, divided by [N]. *)
Definition Qc_pop_variance (l : list Qc) : Qc :=
  let mu := Qc_mean l in
  Qcdiv (Qc_sum (map (fun x => Qcmult (Qcminus x mu) (Qcminus x mu)) l))
        (Qc_len l).

(** The sample estimator, with divisor [N - 1]. *)
Definition Qc_sample_variance (l : list Qc) : Qc :=
  let mu := Qc_mean l in
  Qcdiv (Qc_sum (map (fun x => Qcmult (Qcminus x mu) (Qcminus x mu)) l))
        (Qcminus (Qc_len l) (Qc_of_Z 1)).

Definition all_finite (v : list ldouble) : Prop :=
  Forall (fun x => exists q, x = Fin q) v.

(** Pairwise distinct for the program's [==]. *)
Definition pairwise_distinct (v : list ldouble) : Prop :=
  forall a b x y, (a < b)%nat ->
    nth_error v a = Some x -> nth_error v b = Some y -> LD.eqb x y = false.

(** The number a value stands for, with the sign of a zero dropped: the
    program's [==] compares these. *)
Definition unsigned_zero (a : ldouble) : ldouble :=
  match a with
  | NegZero => Fin (Qc_of_Z 0)
  | _ => a
  end.

Definition qz (z : Z) : ldouble := Fin (Qc_of_Z z).
Definition qq (n : Z) (d : positive) : ldouble := Fin (Q2Qc (n # d)).

(** ** A reader of fixed notation *)

(** The value of a decimal digit character. *)
Definition digit_value (c : ascii) : option Z :=
  let n := Z.of_N (N_of_ascii c) in
  if (48 <=? n) && (n <=? 57) then Some (n - 48) else None.

(** Reading a string of decimal digits after the value [acc] read so far:
    the value, and [count] plus the number of digits. *)
Fixpoint read_digits (s : string) (acc : Z) (count : nat)
  : option (Z * nat) :=
  match s with
  | EmptyString => Some (acc, count)
  | String c r =>
      match digit_value c with
      | Some d => read_digits r (10 * acc + d) (S count)
      | None => None
      end
  end.

(** The part before the first decimal point, and the part after it. *)
Fixpoint split_point (s : string) : string * option string :=
  match s with
  | EmptyString => (EmptyString, None)
  | String c r =>
      if Ascii.eqb c "." then (EmptyString, Some r)
      else (String c (fst (split_point r)), snd (split_point r))
  end.

(** No leading zero in a whole part of two digits or more. *)
Definition canonical_whole (w : string) : bool :=
  match w with
  | String c (String _ _) => negb (Ascii.eqb c "0")
  | _ => true
  end.

(** A reader of fixed notation without sign: a whole part of one digit or
    more with no leading zero, then nothing, or a point and one digit or
    more.  It returns the integer that the digits spell without the point,
    and the number of digits after the point. *)
Definition read_unsigned (body : string) : option (Z * nat) :=
  let wf := split_point body in
  match read_digits (fst wf) 0 0 with
  | Some (w, S _) =>
      if canonical_whole (fst wf) then
        match snd wf with
        | None => Some (w, O)
        | Some f =>
            match read_digits f 0 0 with
            | Some (v, S k) => Some (w * 10 ^ Z.of_nat (S k) + v, S k)
            | _ => None
            end
        end
      else None
  | _ => None
  end.

(** The same behind an optional minus sign. *)
Definition read_fixed (s : string) : option (bool * (Z * nat)) :=
  match s with
  | String c r =>
      if Ascii.eqb c "-" then option_map (pair true) (read_unsigned r)
      else option_map (pair false) (read_unsigned s)
  | EmptyString => None
  end.

(** The value of a decimal numeral after the value [acc]. *)
Fixpoint uint_value (d : Decimal.uint) (acc : Z) : Z :=
  match d with
  | Decimal.Nil => acc
  | Decimal.D0 l => uint_value l (10 * acc)
  | Decimal.D1 l => uint_value l (10 * acc + 1)
  | Decimal.D2 l => uint_value l (10 * acc + 2)
  | Decimal.D3 l => uint_value l (10 * acc + 3)
  | Decimal.D4 l => uint_value l (10 * acc + 4)
  | Decimal.D5 l => uint_value l (10 * acc + 5)
  | Decimal.D6 l => uint_value l (10 * acc + 6)
  | Decimal.D7 l => uint_value l (10 * acc + 7)
  | Decimal.D8 l => uint_value l (10 * acc + 8)
  | Decimal.D9 l => uint_value l (10 * acc + 9)
  end.

(** ** Concrete configurations *)

(** The configuration the option parser produces when only the listed
    options are given; everything else has its default value. *)
Definition args_with (p n : Z) (q nf c : bool) (ex inc : list ldouble)
  (nr : bool) (pre suf con : list string) (smin savg : bool) : program_args :=
  {| precision := p;
     quiet := q; list_mode := false; numbers_force := nf; flags := false;
     delim := newline;
     number := n; lbound := qz 0; ubound := qz 1;
     generator := "mt19937";
     ceil := c; floor := false; round := false; trunc := false;
     excluded := ex; included := inc; norepeat := nr;
     prefix := pre; suffix := suf; contains := con;
     stat_all := false; stat_min := smin; stat_max := false;
     stat_median := false; stat_avg := savg; stat_var := false;
     stat_std := false; stat_coef := false |}.

(** The configuration [--numbers-force --quiet --number 1], nothing else. *)
Definition args_force_quiet : program_args :=
  args_with 21 1 true true false [] [] false [] [] [] false false.

(** The configuration [--include 5 --stat-min --stat-avg]: no draw from
    [0, 1) is ever accepted. *)
Definition args_include_5 : program_args :=
  args_with 21 1 false false false [] [qz 5] false [] [] [] true true.

(** The configuration [--include 5 --stat-avg]. *)
Definition args_include_5_avg : program_args :=
  args_with 21 1 false false false [] [qz 5] false [] [] [] false true.

(** Every prefix / suffix / contains pattern passes the numeric test. *)
Definition patterns_numeric (args : program_args) : Prop :=
  existsb not_numeric (prefix args ++ suffix args ++ contains args) = false.

(** Sorting of rationals, the reference for order statistics. *)
Fixpoint Qc_insert (x : Qc) (l : list Qc) : list Qc :=
  match l with
  | [] => [x]
  | y :: r => if Qc_ltb x y then x :: y :: r else y :: Qc_insert x r
  end.

Definition Qc_sort (l : list Qc) : list Qc := fold_right Qc_insert [] l.

(** No acceptance test is active. *)
Definition no_filters (args : program_args) : Prop :=
  excluded args = [] /\ included args = [] /\ norepeat args = false /\
  prefix args = [] /\ suffix args = [] /\ contains args = [].

(** ** Further parts of the program *)

(** The [badrandom] branch of [random]:
    [args.lbound + (std::rand() / (RAND_MAX / (args.ubound - args.lbound)))],
    where [raw] is the value returned by [std::rand()]. *)
Definition badrandom (RAND_MAX raw : Z) (args : program_args) : ldouble :=
  LD.add (lbound args)
    (LD.div (LD.of_Z raw)
       (LD.div (LD.of_Z RAND_MAX) (LD.sub (ubound args) (lbound args)))).

(** [random]: every generator name other than [badrandom] draws from a
    standard engine, whose value is [engine] here. *)
Definition random (RAND_MAX : Z) (engine : ldouble) (raw : Z)
  (args : program_args) : ldouble :=
  if String.eqb (generator args) "badrandom"
  then badrandom RAND_MAX raw args
  else engine.

(** The median block of the first variant of the tool: a full [std::sort],
    then the middle element or the mean of the two middle elements.  On an
    empty vector the index [size / 2 - 1] wraps around in the source and is
    0 here; both are out of range. *)
Definition median_sorted (generated : list ldouble) : outcome :=
  let g := sort generated in
  let n := List.length g in
  if Nat.eqb (n mod 2) 0 then
    match deref g (n / 2 - 1), deref g (n / 2) with
    | Printed a, Printed b => Printed (LD.div (LD.add a b) (LD.of_Z 2))
    | _, _ => Undefined
    end
  else deref g (n / 2).

(** The rounded value of the draw number [k]. *)
Definition rounded_draw (args : program_args) (rng : nat -> ldouble)
  (k : nat) : ldouble :=
  apply_rounding args (rng k).

(** The tests of the chain that do not look at the accepted sequence. *)
Definition passes_static_tests (args : program_args) (v : ldouble) : bool :=
  negb (rejected args [] v).

(** ** The validation of the older variant *)

Module Older.

(** [enum returnID] of the older variant of the tool. *)
Inductive returnID : Type :=
| success | known_err | other_err | zero_err | conflict_err | overd_err
| underd_err | exclude_err | round_prec | vect_nan | gen_err | dist_err
| success_help.

Definition returnID_code (r : returnID) : Z :=
  match r with
  | success => 0
  | known_err => 1
  | other_err => 2
  | zero_err => 3
  | conflict_err => 4
  | overd_err => 5
  | underd_err => 6
  | exclude_err => 7
  | round_prec => 8
  | vect_nan => 9
  | gen_err => 10
  | dist_err => 11
  | success_help => -1
  end.

(** [parse_args] of the older variant, after the option library has filled
    [args]; [exclude_empty] is the value of
    [vm.count("exclude") && vm["exclude"].empty()].  The structure of that
    variant has no field that this function reads and [program_args] lacks. *)
Definition parse_args (ld_prec : Z) (help exclude_empty : bool)
  (args : program_args) : returnID * program_args :=
  if help then (success_help, args)
  else if number args <=? 0 then (zero_err, args)
  else if 1 <? rounding_count args then (conflict_err, args)
  else
    let args' := if rounding_active args then set_precision 0 args else args in
    if ld_prec <? precision args' then (overd_err, args')
    else if precision args' <=? -1 then (underd_err, args')
    else if exclude_empty then (exclude_err, args')
    else if existsb not_numeric (prefix args' ++ suffix args' ++ contains args')
    then (vect_nan, args')
    else if negb (string_mem (generator args') gen_opts) then (gen_err, args')
    else (success, args').

End Older.

(** * Properties *)

(** ** Comparison of finite values *)

Lemma Qc_eq_bool_refl (a : Qc) : Qc_eq_bool a a = true.
Proof.
  unfold Qc_eq_bool. destruct (Qc_eq_dec a a) as [_ | H]; [reflexivity | ].
  exfalso; apply H; reflexivity.
Qed.

Lemma Qc_eq_bool_iff (a b : Qc) : Qc_eq_bool a b = true <-> a = b.
Proof.
  split.
  - apply Qc_eq_bool_correct.
  - intros ->. apply Qc_eq_bool_refl.
Qed.

Lemma Qc_ltb_lt (a b : Qc) : Qc_ltb a b = true <-> Qclt a b.
Proof.
  unfold Qc_ltb. rewrite Qclt_alt.
  destruct (a ?= b)%Qc; split; congruence.
Qed.

Lemma Qc_ltb_ge (a b : Qc) : Qc_ltb a b = false <-> Qcle b a.
Proof.
  split; intros H.
  - apply Qcnot_lt_le. intros L. apply Qc_ltb_lt in L. congruence.
  - destruct (Qc_ltb a b) eqn:E; [ | reflexivity].
    apply Qc_ltb_lt in E. exfalso. exact (Qcle_not_lt _ _ H E).
Qed.

Lemma Fin_eq (a b : Qc) : Qc_eq_bool a b = true -> Fin a = Fin b.
Proof. intros H. apply Qc_eq_bool_correct in H. now subst. Qed.

Lemma Qc_of_Z_S_nonzero (n : nat) :
  Qc_is_zero (Qc_of_Z (Z.of_nat (S n))) = false.
Proof.
  unfold Qc_is_zero. destruct (Qc_eq_bool _ _) eqn:E; [ | reflexivity].
  apply Qc_eq_bool_correct in E. unfold Qc_of_Z in E.
  apply Q2Qc_eq_iff in E. unfold Qeq in E. simpl in E. lia.
Qed.

(** ** The acceptance tests *)

Lemma found_In (x : ldouble) (v : list ldouble) :
  found x v = true <-> exists y, In y v /\ LD.eqb y x = true.
Proof. unfold found. apply existsb_exists. Qed.

Lemma found_false (x : ldouble) (v : list ldouble) :
  found x v = false <-> forall y, In y v -> LD.eqb y x = false.
Proof.
  unfold found. induction v as [ | z v IH]; simpl.
  - split; [intros _ y [] | reflexivity].
  - rewrite orb_false_iff, IH. split.
    + intros [Hz Hv] y [<- | Hy]; auto.
    + intros H. split; [apply H; now left | intros y Hy; apply H; now right].
Qed.

Lemma found_nonempty (x : ldouble) (v : list ldouble) :
  found x v = true -> is_empty v = false.
Proof. destruct v; [discriminate | reflexivity]. Qed.

Lemma is_empty_false {A : Type} (v : list A) : is_empty v = false <-> v <> [].
Proof. destruct v; simpl; split; congruence. Qed.

Lemma filter_none_match (rand : ldouble) (p : Z) (fx : list string)
  (predicate : string -> string -> bool) :
  filter rand p fx predicate = true <->
  forall s, In s fx -> predicate (to_fixed p rand) s = false.
Proof.
  unfold filter. rewrite forallb_forall. split; intros H s Hs.
  - apply negb_true_iff. now apply H.
  - apply negb_true_iff. now apply H.
Qed.

Lemma filter_some_match (rand : ldouble) (p : Z) (fx : list string)
  (predicate : string -> string -> bool) :
  filter rand p fx predicate = false <->
  exists s, In s fx /\ predicate (to_fixed p rand) s = true.
Proof.
  unfold filter. induction fx as [ | t fx IH]; simpl.
  - split; [discriminate | intros (s & [] & _)].
  - rewrite andb_false_iff, negb_false_iff, IH. split.
    + intros [H | (s & Hs & H)]; [exists t | exists s]; auto.
    + intros (s & [<- | Hs] & H); [now left | right; now exists s].
Qed.

(** The six tests of the chain, as one disjunction. *)
Lemma rejected_spec (args : program_args) (g : list ldouble) (v : ldouble) :
  rejected args g v =
  (negb (is_empty (excluded args)) && found v (excluded args))
  || (negb (is_empty (included args)) && negb (found v (included args)))
  || (norepeat args && found v g)
  || (negb (is_empty (prefix args))
      && filter v (precision args) (prefix args) boost.starts_with)
  || (negb (is_empty (suffix args))
      && filter v (precision args) (suffix args) boost.ends_with)
  || (negb (is_empty (contains args))
      && filter v (precision args) (contains args) boost.contains).
Proof.
  unfold rejected.
  repeat match goal with
         | |- context [if ?c then true else _] => destruct c; simpl; try reflexivity
         end.
Qed.

Lemma rejected_no_filters (args : program_args) (g : list ldouble)
  (v : ldouble) : no_filters args -> rejected args g v = false.
Proof.
  intros (E1 & E2 & E3 & E4 & E5 & E6). rewrite rejected_spec.
  rewrite E1, E2, E3, E4, E5, E6. reflexivity.
Qed.

Lemma accepted_norepeat (args : program_args) (g : list ldouble)
  (v : ldouble) :
  norepeat args = true -> rejected args g v = false -> found v g = false.
Proof.
  intros Hn H. rewrite rejected_spec in H.
  repeat (apply orb_false_iff in H; destruct H as [H ?]).
  rewrite Hn in *. simpl in *. assumption.
Qed.

(** C6: a value that is a member of both the excluded set and the included
    set is rejected by the acceptance chain, because the excluded test is the
    first one of the chain; the loop body then leaves the accepted sequence
    unchanged. *)
Theorem excluded_wins_over_included (args : program_args)
  (rng : nat -> ldouble) (s : loop_state) (v : ldouble) :
  v = apply_rounding args (rng (drawn s)) ->
  found v (excluded args) = true ->
  found v (included args) = true ->
  rejected args (generated s) v = true /\
  generated (loop_body args rng s) = generated s.
Proof.
  intros Hv Hex _.
  assert (R : rejected args (generated s) v = true).
  { unfold rejected. rewrite Hex, (found_nonempty _ _ Hex). reflexivity. }
  split; [exact R | ].
  unfold loop_body. rewrite <- Hv, R. reflexivity.
Qed.

Lemma excluded_wins_over_included_witness :
  let args := args_with 0 1 false false true [qz 1; qz 2] [qz 1; qz 3] false
                [] [] [] false false in
  let rng := fun _ : nat => qq 1 2 in
  rejected args (generated loop_init) (qz 1) = true /\
  generated (loop_body args rng loop_init) = generated loop_init.
Proof.
  intros args rng.
  apply (excluded_wins_over_included args rng loop_init (qz 1)).
  - vm_compute. reflexivity.
  - vm_compute. reflexivity.
  - vm_compute. reflexivity.
Defined.

(** ** Rendering and matching *)

Lemma digit_value_char (d : Z) :
  0 <= d < 10 -> digit_value (digit_char d) = Some d.
Proof.
  intros H. unfold digit_value, digit_char.
  rewrite N_ascii_embedding by lia.
  rewrite N2Z.inj_add, Z2N.id by lia. change (Z.of_N 48) with 48.
  destruct (Z.leb_spec 48 (48 + d)); [ | lia].
  destruct (Z.leb_spec (48 + d) 57); [ | lia].
  cbn [andb]. f_equal. lia.
Qed.

Lemma read_digits_uint (d : Decimal.uint) :
  forall acc count,
    read_digits (DecimalString.NilEmpty.string_of_uint d) acc count
    = Some (uint_value d acc, (count + Decimal.nb_digits d)%nat).
Proof.
  induction d; intros acc count;
    cbn [DecimalString.NilEmpty.string_of_uint read_digits uint_value
         Decimal.nb_digits];
    [rewrite Nat.add_0_r; reflexivity | .. ];
    match goal with
    | |- context [digit_value ?c] =>
        let v := eval vm_compute in (digit_value c) in
        change (digit_value c) with v
    end;
    cbv beta iota; rewrite IHd, ?Z.add_0_r, Nat.add_succ_r; reflexivity.
Qed.

Lemma uint_value_acc (d : Decimal.uint) :
  forall acc, Z.pos (Pos.of_uint_acc d acc) = uint_value d (Z.pos acc).
Proof.
  induction d; intros acc; cbn [Pos.of_uint_acc uint_value];
    [reflexivity | .. ]; rewrite IHd; f_equal; lia.
Qed.

Lemma uint_value_of_uint (d : Decimal.uint) :
  Z.of_N (N.of_uint d) = uint_value d 0.
Proof.
  unfold N.of_uint.
  induction d; cbn [Pos.of_uint uint_value]; try reflexivity;
    try exact IHd; cbn [Z.of_N]; rewrite uint_value_acc; reflexivity.
Qed.

Lemma uint_value_to_uint (n : N) : uint_value (N.to_uint n) 0 = Z.of_N n.
Proof.
  rewrite <- uint_value_of_uint, DecimalN.Unsigned.of_to. reflexivity.
Qed.

Lemma to_uint_not_nil (n : N) : N.to_uint n <> Decimal.Nil.
Proof.
  destruct n as [ | p]; [discriminate | ].
  apply DecimalPos.Unsigned.to_uint_nonnil.
Qed.

Lemma string_of_N_uint (n : N) :
  string_of_N n = DecimalString.NilEmpty.string_of_uint (N.to_uint n).
Proof.
  unfold string_of_N, DecimalString.NilZero.string_of_uint.
  pose proof (to_uint_not_nil n) as H.
  destruct (N.to_uint n); [congruence | reflexivity ..].
Qed.

(** The whole part reads back as its value, on at least one digit. *)
Lemma read_digits_string_of_N (n : N) :
  exists k, read_digits (string_of_N n) 0 0 = Some (Z.of_N n, S k).
Proof.
  rewrite string_of_N_uint, read_digits_uint, uint_value_to_uint.
  pose proof (to_uint_not_nil n) as H.
  destruct (N.to_uint n) eqn:E; [congruence | ..];
    cbn [Decimal.nb_digits Nat.add]; eexists; reflexivity.
Qed.

Lemma canonical_string_of_N (n : N) : canonical_whole (string_of_N n) = true.
Proof.
  rewrite string_of_N_uint.
  assert (U : Decimal.unorm (N.to_uint n) = N.to_uint n).
  { rewrite <- DecimalN.Unsigned.to_of, DecimalN.Unsigned.of_to.
    reflexivity. }
  destruct (N.to_uint n) as [ | l | l | l | l | l | l | l | l | l | l ] eqn:E;
    try reflexivity;
    try (cbn [DecimalString.NilEmpty.string_of_uint canonical_whole];
         destruct (DecimalString.NilEmpty.string_of_uint l); reflexivity).
  unfold Decimal.unorm in U. rewrite DecimalFacts.nzhead_D0 in U.
  destruct (Decimal.nzhead l) eqn:Ez.
  - injection U as <-. reflexivity.
  - exfalso. exact (DecimalFacts.nzhead_nonzero l _ Ez).
  - discriminate.
  - discriminate.
  - discriminate.
  - discriminate.
  - discriminate.
  - discriminate.
  - discriminate.
  - discriminate.
  - discriminate.
Qed.

Lemma read_digits_frac (p : nat) :
  forall m acc a c,
    0 <= m ->
    read_digits (frac_digits p m acc) a c
    = read_digits acc (a * 10 ^ Z.of_nat p + m mod 10 ^ Z.of_nat p)
        (c + p)%nat.
Proof.
  induction p as [ | p IH]; intros m acc a c Hm.
  - cbn [frac_digits]. change (Z.of_nat 0) with 0.
    rewrite Z.pow_0_r, Z.mod_1_r, Z.mul_1_r, Z.add_0_r, Nat.add_0_r.
    reflexivity.
  - cbn [frac_digits].
    rewrite IH by (apply Z.div_pos; lia).
    cbn [read_digits].
    rewrite digit_value_char by (apply Z.mod_pos_bound; lia).
    rewrite Nat.add_succ_r. f_equal.
    rewrite Nat2Z.inj_succ, Z.pow_succ_r by lia.
    rewrite (Z.rem_mul_r m 10 (10 ^ Z.of_nat p)) by lia.
    ring.
Qed.

Lemma split_point_digits (w : string) :
  forall a c r,
    read_digits w a c = Some r ->
    split_point w = (w, None) /\
    forall f, split_point (w ++ String "." f) = (w, Some f).
Proof.
  induction w as [ | ch w IH]; intros a c r H.
  - split; reflexivity.
  - cbn [read_digits] in H.
    destruct (digit_value ch) as [d | ] eqn:Ed; [ | discriminate].
    destruct (IH _ _ _ H) as [H1 H2].
    assert (Hp : Ascii.eqb ch "." = false).
    { destruct (Ascii.eqb_spec ch "."%char) as [-> | ]; [ | reflexivity].
      vm_compute in Ed. discriminate. }
    cbn [split_point append]. rewrite Hp, H1. split; [reflexivity | ].
    intros f. rewrite H2. reflexivity.
Qed.

Lemma string_app_nil_r (s : string) : (s ++ "")%string = s.
Proof. induction s as [ | c s IH]; cbn [append]; congruence. Qed.

Lemma first_char_digit (w rest : string) (v : Z) (k : nat) :
  read_digits w 0 0 = Some (v, S k) ->
  exists ch t, (w ++ rest)%string = String ch t /\ Ascii.eqb ch "-" = false.
Proof.
  destruct w as [ | ch w]; [discriminate | ].
  cbn [read_digits]. destruct (digit_value ch) eqn:Ed; [ | discriminate].
  intros _. exists ch, (w ++ rest)%string. split; [reflexivity | ].
  destruct (Ascii.eqb_spec ch "-"%char) as [-> | ]; [ | reflexivity].
  vm_compute in Ed. discriminate.
Qed.

Lemma scaled_round_nonneg (p : nat) (q : Qc) : 0 <= scaled_round p q.
Proof.
  unfold scaled_round.
  set (n := Z.abs (Qnum q) * 10 ^ Z.of_nat p).
  set (d := Z.pos (Qden q)).
  assert (0 <= n / d) by (apply Z.div_pos; subst n d; lia).
  cbv zeta. destruct (2 * (n mod d) ?= d); [destruct (Z.even (n / d)) | | ];
    lia.
Qed.

(** The rendering of a magnitude reads back as the scaled integer, with
    exactly [p] digits after the point. *)
Lemma read_fixed_digits (negative : bool) (p : nat) (q : Qc) :
  read_fixed (fixed_digits negative p q)
  = Some (negative, (scaled_round p q, p)).
Proof.
  unfold fixed_digits.
  pose proof (scaled_round_nonneg p q) as Hm.
  set (m := scaled_round p q) in *.
  set (P := 10 ^ Z.of_nat p).
  assert (HP : 0 < P) by (subst P; apply Z.pow_pos_nonneg; lia).
  destruct (read_digits_string_of_N (Z.to_N (m / P))) as [k Hw].
  rewrite Z2N.id in Hw by (apply Z.div_pos; lia).
  pose proof (canonical_string_of_N (Z.to_N (m / P))) as Hc.
  set (whole := string_of_N (Z.to_N (m / P))) in *.
  destruct (split_point_digits _ _ _ _ Hw) as [S1 S2].
  cbv zeta.
  set (body := match p with
               | O => whole
               | S _ => (whole ++ "." ++ frac_digits p (m mod P) "")%string
               end).
  assert (Hbody : read_unsigned body = Some (m, p)).
  { unfold read_unsigned. subst body. destruct p as [ | p'].
    - cbv zeta. rewrite S1. cbn [fst snd]. rewrite Hw, Hc.
      subst P. change (10 ^ Z.of_nat 0) with 1. rewrite Z.div_1_r.
      reflexivity.
    - cbv zeta. change ("." ++ ?x)%string with (String "." x).
      rewrite S2. cbn [fst snd]. rewrite Hw, Hc.
      rewrite read_digits_frac by (apply Z.mod_pos_bound; exact HP).
      cbn [read_digits Nat.add]. fold P.
      rewrite Z.mul_0_l, Z.add_0_l, Z.mod_mod by lia.
      f_equal. f_equal.
      rewrite Z.mul_comm. symmetry. apply Z.div_mod. lia. }
  assert (Hfirst : exists ch t, body = String ch t /\
                                Ascii.eqb ch "-" = false).
  { subst body. destruct p as [ | p'].
    - destruct (first_char_digit whole "" _ _ Hw) as (ch & t & E & F).
      rewrite string_app_nil_r in E. eauto.
    - apply (first_char_digit whole _ _ _ Hw). }
  destruct Hfirst as (ch & t & Eb & Ech).
  destruct negative.
  - cbn [read_fixed Ascii.eqb Bool.eqb andb]. rewrite Hbody. reflexivity.
  - unfold read_fixed. rewrite Eb, Ech. rewrite <- Eb, Hbody. reflexivity.
Qed.

Lemma string_app_assoc (a b c : string) :
  ((a ++ b) ++ c)%string = (a ++ b ++ c)%string.
Proof. induction a as [ | x a IH]; cbn [append]; congruence. Qed.

Lemma string_app_length (a b : string) :
  String.length (a ++ b) = (String.length a + String.length b)%nat.
Proof.
  induction a as [ | x a IH]; cbn [append String.length Nat.add];
    congruence.
Qed.

Lemma prefix_iff (test input : string) :
  String.prefix test input = true <-> exists rest, input = (test ++ rest)%string.
Proof.
  revert input. induction test as [ | c t IH]; intros input.
  - split; [intros _; now exists input | intros _; destruct input; reflexivity].
  - destruct input as [ | d s]; cbn [String.prefix append].
    + split; [discriminate | intros [r H]; discriminate].
    + destruct (ascii_dec c d) as [<- | N].
      * rewrite IH. split; intros [r H]; exists r; congruence.
      * split; [discriminate | intros [r H]; congruence].
Qed.

Lemma substring_all (s : string) : String.substring 0 (String.length s) s = s.
Proof. induction s as [ | c s IH]; cbn [String.substring String.length]; congruence. Qed.

Lemma substring_skip (front : string) (n : nat) (s : string) :
  String.substring (String.length front) n (front ++ s)
  = String.substring 0 n s.
Proof.
  induction front as [ | c f IH]; [reflexivity | ].
  cbn [String.length append String.substring]. exact IH.
Qed.

Lemma substring_split (n : nat) :
  forall s, (n <= String.length s)%nat ->
    s = (String.substring 0 n s
         ++ String.substring n (String.length s - n) s)%string.
Proof.
  induction n as [ | n IH]; intros s H.
  - rewrite Nat.sub_0_r, substring_all.
    destruct s; reflexivity.
  - destruct s as [ | c s]; [cbn [String.length] in H; lia | ].
    cbn [String.length] in *. cbn [String.substring append Nat.sub].
    f_equal. apply IH. lia.
Qed.

Lemma ends_with_iff (input test : string) :
  boost.ends_with input test = true
  <-> exists front, input = (front ++ test)%string.
Proof.
  unfold boost.ends_with. rewrite andb_true_iff, Nat.leb_le, String.eqb_eq.
  split.
  - intros [L E]. exists (String.substring 0 (String.length input - String.length test) input).
    pose proof (substring_split
                  (String.length input - String.length test) input
                  ltac:(lia)) as S.
    replace (String.length input
             - (String.length input - String.length test))%nat
      with (String.length test) in S by lia.
    rewrite E in S. exact S.
  - intros [front ->]. rewrite string_app_length. split; [lia | ].
    replace (String.length front + String.length test - String.length test)%nat
      with (String.length front) by lia.
    rewrite substring_skip. apply substring_all.
Qed.

Lemma contains_iff (input test : string) :
  boost.contains input test = true
  <-> exists front rest, input = (front ++ test ++ rest)%string.
Proof.
  induction input as [ | c s IH].
  - cbn [boost.contains]. rewrite orb_false_r, prefix_iff. split.
    + intros [r H]. now exists ""%string, r.
    + intros (f & r & H). destruct f; [now exists r | discriminate].
  - cbn [boost.contains]. rewrite orb_true_iff, prefix_iff, IH. split.
    + intros [[r H] | (f & r & H)].
      * now exists ""%string, r.
      * exists (String c f), r. cbn [append]. congruence.
    + intros (f & r & H). destruct f as [ | d f].
      * left. now exists r.
      * right. cbn [append] in H. injection H as _ H. now exists f, r.
Qed.

Lemma scaled_round_nearest (p : nat) (q : Qc) :
  let n := Z.abs (Qnum q) * 10 ^ Z.of_nat p in
  let d := Z.pos (Qden q) in
  let m := scaled_round p q in
  2 * Z.abs (n - m * d) <= d /\
  (2 * Z.abs (n - m * d) = d -> Z.even m = true).
Proof.
  intros n d m. subst m. unfold scaled_round. fold n. fold d. cbv zeta.
  pose proof (Z.div_mod n d ltac:(subst d; lia)) as E.
  pose proof (Z.mod_pos_bound n d ltac:(subst d; lia)) as B.
  set (k := n / d) in *. set (r := n mod d) in *.
  destruct (Z.compare_spec (2 * r) d) as [C | C | C].
  - destruct (Z.even k) eqn:Ek.
    + split; [lia | auto].
    + split; [lia | ]. intros _. rewrite Z.even_add, Ek. reflexivity.
  - split; lia.
  - split; lia.
Qed.

(** ** The reader is injective *)

Lemma digit_value_range (c : ascii) (d : Z) :
  digit_value c = Some d -> 0 <= d < 10 /\ c = digit_char d.
Proof.
  unfold digit_value, digit_char.
  destruct (Z.leb_spec 48 (Z.of_N (N_of_ascii c))); [ | discriminate].
  destruct (Z.leb_spec (Z.of_N (N_of_ascii c)) 57); [ | discriminate].
  cbn [andb]. intros E. injection E as <-. split; [lia | ].
  replace (48 + Z.to_N (Z.of_N (N_of_ascii c) - 48))%N with (N_of_ascii c)
    by lia.
  symmetry. apply ascii_N_embedding.
Qed.

Lemma read_digits_spec (s : string) :
  forall a c v n,
    read_digits s a c = Some (v, n) ->
    n = (c + String.length s)%nat /\
    exists x, 0 <= x < 10 ^ Z.of_nat (String.length s) /\
              v = a * 10 ^ Z.of_nat (String.length s) + x.
Proof.
  induction s as [ | ch s IH]; intros a c v n H.
  - cbn [read_digits] in H. injection H as <- <-.
    cbn [String.length]. split; [lia | ]. exists 0.
    change (Z.of_nat 0) with 0. rewrite Z.pow_0_r. lia.
  - cbn [read_digits] in H.
    destruct (digit_value ch) as [d | ] eqn:Ed; [ | discriminate].
    apply digit_value_range in Ed. destruct Ed as [Hd _].
    destruct (IH _ _ _ _ H) as (Hn & x & Hx & Hv).
    cbn [String.length]. split; [lia | ].
    rewrite Nat2Z.inj_succ, Z.pow_succ_r by lia.
    exists (d * 10 ^ Z.of_nat (String.length s) + x). split; nia.
Qed.

Lemma read_digits_inj (s : string) :
  forall s' a c r,
    read_digits s a c = Some r -> read_digits s' a c = Some r -> s = s'.
Proof.
  induction s as [ | ch s IH]; intros s' a c [v n] H H'.
  - destruct s' as [ | ch' s']; [reflexivity | ].
    apply read_digits_spec in H, H'. cbn [String.length] in *. lia.
  - destruct s' as [ | ch' s'].
    + apply read_digits_spec in H, H'. cbn [String.length] in *. lia.
    + cbn [read_digits] in H, H'.
      destruct (digit_value ch) as [d | ] eqn:Ed; [ | discriminate].
      destruct (digit_value ch') as [d' | ] eqn:Ed'; [ | discriminate].
      apply digit_value_range in Ed, Ed'.
      destruct Ed as [Hd ->], Ed' as [Hd' ->].
      destruct (read_digits_spec _ _ _ _ _ H) as (Hn & x & Hx & Hv).
      destruct (read_digits_spec _ _ _ _ _ H') as (Hn' & x' & Hx' & Hv').
      assert (L : String.length s = String.length s') by lia.
      rewrite <- L in *.
      assert (d = d') by nia. subst d'.
      f_equal. exact (IH _ _ _ _ H H').
Qed.

(** A canonical whole part of two digits or more is at least the power of
    ten of its length. *)
Lemma canonical_lower_bound (w : string) (v : Z) (j : nat) :
  canonical_whole w = true ->
  read_digits w 0 0 = Some (v, S (S j)) -> 10 ^ Z.of_nat (S j) <= v.
Proof.
  destruct w as [ | ch [ | ch2 t]]; intros Hc H.
  - discriminate.
  - apply read_digits_spec in H. cbn [String.length] in H. lia.
  - cbn [canonical_whole] in Hc. apply negb_true_iff in Hc.
    cbn [read_digits] in H.
    destruct (digit_value ch) as [d | ] eqn:Ed; [ | discriminate].
    apply digit_value_range in Ed. destruct Ed as [Hd ->].
    assert (d <> 0) by (intros ->; discriminate).
    change (read_digits (String ch2 t) (10 * 0 + d) 1 = Some (v, S (S j)))
      in H.
    destruct (read_digits_spec _ _ _ _ _ H) as (Hn & x & Hx & Hv).
    assert (L : String.length (String ch2 t) = S j) by lia.
    rewrite L in *. nia.
Qed.

Lemma canonical_inj (w w' : string) (v : Z) (k k' : nat) :
  canonical_whole w = true -> canonical_whole w' = true ->
  read_digits w 0 0 = Some (v, S k) ->
  read_digits w' 0 0 = Some (v, S k') -> w = w'.
Proof.
  intros Hc Hc' H H'.
  assert (U : forall u n, read_digits u 0 0 = Some (v, n) ->
                          v < 10 ^ Z.of_nat n).
  { intros u n Hu. destruct (read_digits_spec _ _ _ _ _ Hu)
      as (Hn & x & Hx & Hv). cbn [Nat.add] in Hn. subst n. lia. }
  assert (E : k = k').
  { destruct (Nat.lt_trichotomy k k') as [L | [E | L]]; [ | exact E | ].
    - destruct k' as [ | j]; [lia | ].
      pose proof (canonical_lower_bound _ _ _ Hc' H') as B.
      pose proof (U _ _ H) as B'.
      assert (10 ^ Z.of_nat (S k) <= 10 ^ Z.of_nat (S j))
        by (apply Z.pow_le_mono_r; lia).
      lia.
    - destruct k as [ | j]; [lia | ].
      pose proof (canonical_lower_bound _ _ _ Hc H) as B.
      pose proof (U _ _ H') as B'.
      assert (10 ^ Z.of_nat (S k') <= 10 ^ Z.of_nat (S j))
        by (apply Z.pow_le_mono_r; lia).
      lia. }
  subst k'. exact (read_digits_inj _ _ _ _ _ H H').
Qed.

Lemma split_point_inv (s : string) :
  (snd (split_point s) = None -> s = fst (split_point s)) /\
  (forall f, snd (split_point s) = Some f ->
             s = (fst (split_point s) ++ String "." f)%string).
Proof.
  induction s as [ | ch s [IH1 IH2]]; cbn [split_point].
  - split; [reflexivity | discriminate].
  - destruct (Ascii.eqb_spec ch "."%char) as [-> | N]; cbn [fst snd].
    + split; [discriminate | ]. intros f E. injection E as ->. reflexivity.
    + split.
      * intros E. f_equal. now apply IH1.
      * intros f E. cbn [append]. f_equal. now apply IH2.
Qed.

Lemma read_unsigned_inj (s s' : string) (r : Z * nat) :
  read_unsigned s = Some r -> read_unsigned s' = Some r -> s = s'.
Proof.
  unfold read_unsigned. cbv zeta.
  destruct (split_point_inv s) as [I1 I2].
  destruct (split_point_inv s') as [I1' I2'].
  destruct (read_digits (fst (split_point s)) 0 0) as [[w [ | k]] | ] eqn:Hw;
    try discriminate.
  destruct (canonical_whole (fst (split_point s))) eqn:Hc; [ | discriminate].
  destruct (read_digits (fst (split_point s')) 0 0) as [[w' [ | k']] | ]
    eqn:Hw'; try discriminate.
  destruct (canonical_whole (fst (split_point s'))) eqn:Hc';
    [ | intros _; discriminate].
  destruct (snd (split_point s)) as [f | ];
    destruct (snd (split_point s')) as [f' | ].
  - destruct (read_digits f 0 0) as [[v [ | j]] | ] eqn:Hf; try discriminate.
    destruct (read_digits f' 0 0) as [[v' [ | j']] | ] eqn:Hf';
      try (intros _; discriminate).
    intros E E'. rewrite <- E in E'. injection E' as Em Ej. subst j'.
    destruct (read_digits_spec _ _ _ _ _ Hf) as (Hn & x & Hx & Hv).
    destruct (read_digits_spec _ _ _ _ _ Hf') as (Hn' & x' & Hx' & Hv').
    cbn [Nat.add] in Hn, Hn'. rewrite <- Hn in Hx. rewrite <- Hn' in Hx'.
    set (P := 10 ^ Z.of_nat (S j)) in *.
    assert (Hb : 0 <= v < P) by lia.
    assert (Hb' : 0 <= v' < P) by lia.
    clear Hx Hx' Hv Hv'.
    assert (Ew : w' = w) by nia. subst w'.
    assert (Ev : v' = v) by lia. subst v'.
    rewrite (I2 f eq_refl), (I2' f' eq_refl).
    rewrite (canonical_inj _ _ _ _ _ Hc Hc' Hw Hw').
    rewrite (read_digits_inj _ _ _ _ _ Hf Hf'). reflexivity.
  - destruct (read_digits f 0 0) as [[v [ | j]] | ]; try discriminate.
    intros E E'. rewrite <- E in E'. discriminate.
  - destruct (read_digits f' 0 0) as [[v [ | j]] | ];
      try (intros _; discriminate).
    intros E E'. rewrite <- E in E'. discriminate.
  - intros E E'. rewrite <- E in E'. injection E' as ->.
    rewrite (I1 eq_refl), (I1' eq_refl).
    exact (canonical_inj _ _ _ _ _ Hc Hc' Hw Hw').
Qed.

(** Two strings that read as the same sign, digits and number of fractional
    digits are the same string. *)
Lemma read_fixed_inj (s s' : string) (r : bool * (Z * nat)) :
  read_fixed s = Some r -> read_fixed s' = Some r -> s = s'.
Proof.
  unfold read_fixed.
  destruct s as [ | c t]; [discriminate | ].
  destruct s' as [ | c' t']; [intros _; discriminate | ].
  destruct (Ascii.eqb_spec c "-"%char) as [-> | N];
    destruct (Ascii.eqb_spec c' "-"%char) as [-> | N'].
  - destruct (read_unsigned t) as [u | ] eqn:Hu; [ | discriminate].
    destruct (read_unsigned t') as [u' | ] eqn:Hu'; [ | intros _; discriminate].
    cbn [option_map]. intros E E'. rewrite <- E in E'. injection E' as ->.
    f_equal. exact (read_unsigned_inj _ _ _ Hu Hu').
  - destruct (read_unsigned t) as [u | ]; [ | discriminate].
    destruct (read_unsigned (String c' t')) as [u' | ];
      [ | intros _; discriminate].
    cbn [option_map]. intros E E'. rewrite <- E in E'. discriminate.
  - destruct (read_unsigned (String c t)) as [u | ]; [ | discriminate].
    destruct (read_unsigned t') as [u' | ]; [ | intros _; discriminate].
    cbn [option_map]. intros E E'. rewrite <- E in E'. discriminate.
  - destruct (read_unsigned (String c t)) as [u | ] eqn:Hu; [ | discriminate].
    destruct (read_unsigned (String c' t')) as [u' | ] eqn:Hu';
      [ | intros _; discriminate].
    cbn [option_map]. intros E E'. rewrite <- E in E'. injection E' as ->.
    exact (read_unsigned_inj _ _ _ Hu Hu').
Qed.

(** C7: each pattern test renders the value with [to_fixed] at the configured
    precision and rejects exactly when the pattern set is not empty and none
    of its patterns matches; an empty set never rejects.  The three
    predicates are starts-with, ends-with and substring.  The rendering of a
    finite value is the one string of fixed notation that has a minus sign
    exactly for a negative value or a negative zero, exactly [precision]
    digits after the point, and spells the integer nearest to the magnitude
    times [10^precision], ties to even.  3.14159 at precision 2 renders as
    3.14, which the suffix 14 matches and the suffix 159 does not; a draw of
    -1/2 rounded up renders as -0, which the prefix - matches. *)
Theorem pattern_tests_on_rendered_value :
  (forall rand p fx predicate,
      filter rand p fx predicate = true <->
      forall s, In s fx -> predicate (to_fixed p rand) s = false) /\
  (forall args g v,
      rejected args g v = true <->
      (found v (excluded args) = true) \/
      (included args <> [] /\ found v (included args) = false) \/
      (norepeat args = true /\ found v g = true) \/
      (prefix args <> [] /\
       forall s, In s (prefix args) ->
                 boost.starts_with (to_fixed (precision args) v) s = false) \/
      (suffix args <> [] /\
       forall s, In s (suffix args) ->
                 boost.ends_with (to_fixed (precision args) v) s = false) \/
      (contains args <> [] /\
       forall s, In s (contains args) ->
                 boost.contains (to_fixed (precision args) v) s = false)) /\
  (forall input test,
      boost.starts_with input test = true
      <-> exists rest, input = (test ++ rest)%string) /\
  (forall input test,
      boost.ends_with input test = true
      <-> exists front, input = (front ++ test)%string) /\
  (forall input test,
      boost.contains input test = true
      <-> exists front rest, input = (front ++ test ++ rest)%string) /\
  (forall precision q,
      read_fixed (to_fixed precision (Fin q))
      = Some (Qc_is_neg q,
              (scaled_round (Z.to_nat precision) q, Z.to_nat precision))) /\
  (forall precision,
      read_fixed (to_fixed precision NegZero)
      = Some (true, (0, Z.to_nat precision))) /\
  (forall s s' r, read_fixed s = Some r -> read_fixed s' = Some r -> s = s')
  /\
  (forall (p : nat) (q : Qc),
      let n := Z.abs (Qnum q) * 10 ^ Z.of_nat p in
      let d := Z.pos (Qden q) in
      let m := scaled_round p q in
      2 * Z.abs (n - m * d) <= d /\
      (2 * Z.abs (n - m * d) = d -> Z.even m = true)) /\
  to_fixed 2 (qq 314159 100000) = "3.14"%string /\
  filter (qq 314159 100000) 2 ["14"%string] boost.ends_with = false /\
  filter (qq 314159 100000) 2 ["159"%string] boost.ends_with = true /\
  to_fixed 0 (LD.ceil (qq (-1) 2)) = "-0"%string /\
  filter (LD.ceil (qq (-1) 2)) 0 ["-"%string] boost.starts_with = false.
Proof.
  split; [ | split; [ | split; [ | split; [ | split; [ | split; [ | split;
    [ | split; [ | split; [ | repeat split; vm_compute; reflexivity]]]]]]]]].
  - intros. apply filter_none_match.
  - intros args g v. rewrite rejected_spec.
    repeat rewrite orb_true_iff. repeat rewrite andb_true_iff.
    repeat rewrite negb_true_iff. repeat rewrite is_empty_false.
    repeat rewrite filter_none_match.
    split.
    + intros [[[[[H | H] | H] | H] | H] | H]; tauto.
    + intros [H | [H | [H | [H | [H | H]]]]]; try tauto.
      left; left; left; left; left. split; [ | exact H].
      apply is_empty_false. now rewrite (found_nonempty _ _ H).
  - intros input test. apply prefix_iff.
  - exact ends_with_iff.
  - exact contains_iff.
  - intros precision q. apply read_fixed_digits.
  - intros precision. unfold to_fixed. rewrite read_fixed_digits.
    reflexivity.
  - exact read_fixed_inj.
  - exact scaled_round_nearest.
Qed.

(** ** The loop *)

Lemma main_loop_iterate (args : program_args) (rng : nat -> ldouble) :
  forall n s,
    (forall m, (m < n)%nat -> loop_cond args (iterate m args rng s) = true) ->
    loop_cond args (iterate n args rng s) = false ->
    forall fuel, (n <= fuel)%nat ->
      main_loop fuel args rng s = Some (iterate n args rng s).
Proof.
  induction n as [ | n IH]; intros s Hlt Hn fuel Hf.
  - simpl in *. destruct fuel; simpl; rewrite Hn; reflexivity.
  - destruct fuel as [ | fuel]; [lia | ].
    pose proof (Hlt O ltac:(lia)) as H0. simpl in H0.
    simpl. rewrite H0.
    apply IH; [ | exact Hn | lia].
    intros m Hm. apply (Hlt (S m)). lia.
Qed.

Lemma main_loop_stuck (args : program_args) (rng : nat -> ldouble) :
  forall fuel s,
    (forall m, loop_cond args (iterate m args rng s) = true) ->
    main_loop fuel args rng s = None.
Proof.
  induction fuel as [ | fuel IH]; intros s H; simpl;
    pose proof (H O) as H0; simpl in H0; rewrite H0.
  - reflexivity.
  - apply IH. intros m. exact (H (S m)).
Qed.

Lemma main_loop_result (args : program_args) (rng : nat -> ldouble) :
  forall fuel s s',
    main_loop fuel args rng s = Some s' ->
    exists n, (n <= fuel)%nat /\ s' = iterate n args rng s /\
              loop_cond args s' = false.
Proof.
  induction fuel as [ | fuel IH]; intros s s'; simpl.
  - destruct (loop_cond args s) eqn:E; [discriminate | ].
    intros [= <-]. exists O. auto.
  - destruct (loop_cond args s) eqn:E.
    + intros H. destruct (IH _ _ H) as (n & Hn & -> & Hc).
      exists (S n). split; [lia | split; [reflexivity | exact Hc]].
    + intros [= <-]. exists O. split; [lia | auto].
Qed.

Lemma iterate_invariant (P : loop_state -> Prop) (args : program_args)
  (rng : nat -> ldouble) :
  (forall s, P s -> P (loop_body args rng s)) ->
  forall n s, P s -> P (iterate n args rng s).
Proof.
  intros Hstep. induction n as [ | n IH]; intros s Hs; simpl; auto.
Qed.

Lemma iterate_S (n : nat) (args : program_args) (rng : nat -> ldouble)
  (s : loop_state) :
  iterate (S n) args rng s = loop_body args rng (iterate n args rng s).
Proof.
  revert s. induction n as [ | n IH]; intros s; [reflexivity | ].
  change (iterate (S (S n)) args rng s)
    with (iterate (S n) args rng (loop_body args rng s)).
  rewrite IH. reflexivity.
Qed.

Lemma loop_body_drawn (args : program_args) (rng : nat -> ldouble)
  (s : loop_state) : drawn (loop_body args rng s) = S (drawn s).
Proof.
  unfold loop_body.
  destruct (rejected _ _ _); [reflexivity | ].
  destruct (quiet args); reflexivity.
Qed.

Lemma loop_body_generated (args : program_args) (rng : nat -> ldouble)
  (s : loop_state) :
  let v := apply_rounding args (rng (drawn s)) in
  generated (loop_body args rng s) =
  if rejected args (generated s) v then generated s else generated s ++ [v].
Proof.
  unfold loop_body.
  destruct (rejected _ _ _); [reflexivity | ].
  destruct (quiet args); reflexivity.
Qed.

Lemma iterate_drawn (args : program_args) (rng : nat -> ldouble) :
  forall n s, drawn (iterate n args rng s) = (n + drawn s)%nat.
Proof.
  induction n as [ | n IH]; intros s; simpl; [reflexivity | ].
  rewrite IH, loop_body_drawn. lia.
Qed.

Lemma main_loop_invariant (P : loop_state -> Prop) (args : program_args)
  (rng : nat -> ldouble) :
  (forall s, P s -> loop_cond args s = true -> P (loop_body args rng s)) ->
  forall fuel s s',
    P s -> main_loop fuel args rng s = Some s' ->
    P s' /\ loop_cond args s' = false.
Proof.
  intros Hstep. induction fuel as [ | fuel IH]; intros s s' Hs; simpl.
  - destruct (loop_cond args s) eqn:E; [discriminate | ].
    intros [= <-]. auto.
  - destruct (loop_cond args s) eqn:E.
    + apply IH. now apply Hstep.
    + intros [= <-]. auto.
Qed.

Lemma main_loop_terminates (args : program_args) (rng : nat -> ldouble) :
  forall n s,
    loop_cond args (iterate n args rng s) = false ->
    forall fuel, (n <= fuel)%nat ->
      exists s', main_loop fuel args rng s = Some s'.
Proof.
  induction n as [ | n IH]; intros s Hn fuel Hf.
  - simpl in Hn. exists s. destruct fuel; simpl; now rewrite Hn.
  - destruct fuel as [ | fuel]; [lia | ]. simpl.
    destruct (loop_cond args s); [ | now exists s].
    apply (IH _ Hn). lia.
Qed.

Lemma main_loop_short (args : program_args) (rng : nat -> ldouble) :
  forall fuel s,
    (forall m, (m <= fuel)%nat ->
               loop_cond args (iterate m args rng s) = true) ->
    main_loop fuel args rng s = None.
Proof.
  induction fuel as [ | fuel IH]; intros s H; simpl;
    pose proof (H O ltac:(lia)) as H0; simpl in H0; rewrite H0.
  - reflexivity.
  - apply IH. intros m Hm. apply (H (S m)). lia.
Qed.

(** *** Attempts as the budget: [numbers_force] off *)

Lemma loop_body_i_attempt (args : program_args) (rng : nat -> ldouble)
  (s : loop_state) :
  numbers_force args = false -> i (loop_body args rng s) = i s + 1.
Proof.
  intros H. unfold loop_body. rewrite H.
  destruct (rejected _ _ _); [reflexivity | ].
  destruct (quiet args); reflexivity.
Qed.

Lemma iterate_i_attempt (args : program_args) (rng : nat -> ldouble) :
  numbers_force args = false ->
  forall n s, i (iterate n args rng s) = i s + Z.of_nat n.
Proof.
  intros H. induction n as [ | n IH]; intros s.
  - simpl. lia.
  - change (iterate (S n) args rng s)
      with (iterate n args rng (loop_body args rng s)).
    rewrite IH, loop_body_i_attempt by exact H. lia.
Qed.

Lemma loop_body_length_le (args : program_args) (rng : nat -> ldouble)
  (s : loop_state) :
  (List.length (generated (loop_body args rng s))
   <= S (List.length (generated s)))%nat.
Proof.
  rewrite loop_body_generated. destruct (rejected _ _ _).
  - lia.
  - rewrite length_app. simpl. lia.
Qed.

Lemma iterate_length_le (args : program_args) (rng : nat -> ldouble) :
  forall n s,
    (List.length (generated (iterate n args rng s))
     <= n + List.length (generated s))%nat.
Proof.
  induction n as [ | n IH]; intros s; simpl; [lia | ].
  specialize (IH (loop_body args rng s)).
  pose proof (loop_body_length_le args rng s). lia.
Qed.

Lemma loop_body_length_no_filters (args : program_args)
  (rng : nat -> ldouble) (s : loop_state) :
  no_filters args ->
  List.length (generated (loop_body args rng s))
  = S (List.length (generated s)).
Proof.
  intros H. rewrite loop_body_generated, rejected_no_filters by exact H.
  rewrite length_app. simpl. lia.
Qed.

Lemma iterate_length_no_filters (args : program_args) (rng : nat -> ldouble) :
  no_filters args ->
  forall n s,
    List.length (generated (iterate n args rng s))
    = (n + List.length (generated s))%nat.
Proof.
  intros H. induction n as [ | n IH]; intros s; simpl; [reflexivity | ].
  rewrite IH, loop_body_length_no_filters by exact H. lia.
Qed.

(** C8: with [numbers_force] off every execution of the body consumes one
    unit of the budget, so the loop stops after exactly [number] draws; the
    accepted sequence has at most [number] elements, and exactly [number]
    when no acceptance test is active. *)
Theorem attempts_consume_budget (args : program_args) (rng : nat -> ldouble) :
  numbers_force args = false ->
  1 <= number args ->
  let n := Z.to_nat (number args) in
  let s := iterate n args rng loop_init in
  (forall fuel, (n <= fuel)%nat ->
                main_loop fuel args rng loop_init = Some s) /\
  (forall fuel, (fuel < n)%nat -> main_loop fuel args rng loop_init = None) /\
  drawn s = n /\
  i s = number args + 1 /\
  (List.length (generated s) <= n)%nat /\
  (no_filters args -> List.length (generated s) = n).
Proof.
  intros Hnf Hn n s.
  assert (Hi : forall m, i (iterate m args rng loop_init) = 1 + Z.of_nat m).
  { intros m. rewrite iterate_i_attempt by exact Hnf. reflexivity. }
  assert (Hc : forall m, loop_cond args (iterate m args rng loop_init)
                         = (Z.of_nat m <? number args)).
  { intros m. unfold loop_cond. rewrite Hi.
    destruct (Z.leb_spec (1 + Z.of_nat m) (number args));
      destruct (Z.ltb_spec (Z.of_nat m) (number args)); (reflexivity || lia). }
  repeat split.
  - apply main_loop_iterate.
    + intros m Hm. rewrite Hc. apply Z.ltb_lt. subst n. lia.
    + rewrite Hc. apply Z.ltb_ge. subst n. lia.
  - intros fuel Hf. apply main_loop_short.
    intros m Hm. rewrite Hc. apply Z.ltb_lt. subst n. lia.
  - subst s. rewrite iterate_drawn. simpl. lia.
  - subst s. rewrite Hi. subst n. lia.
  - subst s. pose proof (iterate_length_le args rng n loop_init) as H.
    simpl in H. lia.
  - intros Hno. subst s. rewrite iterate_length_no_filters by exact Hno.
    simpl. lia.
Qed.

Lemma attempts_consume_budget_witness :
  let args := args_with 0 3 false false true [qz 1] [] false [] [] []
                false false in
  let rng := fun k : nat => if Nat.even k then qq 1 2 else qq 3 2 in
  let s := iterate 3 args rng loop_init in
  (forall fuel, (3 <= fuel)%nat ->
                main_loop fuel args rng loop_init = Some s) /\
  (forall fuel, (fuel < 3)%nat -> main_loop fuel args rng loop_init = None) /\
  drawn s = 3%nat /\
  i s = 3 + 1 /\
  (List.length (generated s) <= 3)%nat /\
  (no_filters args -> List.length (generated s) = 3%nat).
Proof.
  intros args rng.
  apply (attempts_consume_budget args rng).
  - reflexivity.
  - simpl. lia.
Defined.

(** While the loop of C8 runs, the counter stays between 1 and
    [number + 1]: it cannot overflow unless [number] is the largest
    [long long]. *)
Lemma attempt_counter_in_range (args : program_args) (rng : nat -> ldouble)
  (m : nat) :
  numbers_force args = false ->
  number args < LLONG_MAX ->
  Z.of_nat m <= number args ->
  1 <= i (iterate m args rng loop_init) <= LLONG_MAX.
Proof.
  intros Hnf Hmax Hm. rewrite iterate_i_attempt by exact Hnf.
  change (i loop_init) with 1. unfold LLONG_MAX in *. lia.
Qed.

(** *** Accepted values as the budget: [numbers_force] on *)

Lemma loop_body_i_force_quiet (args : program_args) (rng : nat -> ldouble)
  (s : loop_state) :
  numbers_force args = true -> quiet args = true ->
  i (loop_body args rng s) = i s.
Proof.
  intros Hf Hq. unfold loop_body. rewrite Hf, Hq.
  destruct (rejected _ _ _); reflexivity.
Qed.

Lemma iterate_i_force_quiet (args : program_args) (rng : nat -> ldouble) :
  numbers_force args = true -> quiet args = true ->
  forall n s, i (iterate n args rng s) = i s.
Proof.
  intros Hf Hq. induction n as [ | n IH]; intros s; simpl; [reflexivity | ].
  rewrite IH. now apply loop_body_i_force_quiet.
Qed.

Lemma force_quiet_stuck (args : program_args) (rng : nat -> ldouble)
  (s : loop_state) :
  numbers_force args = true -> quiet args = true -> i s <= number args ->
  forall fuel, main_loop fuel args rng s = None.
Proof.
  intros Hf Hq Hs fuel. apply main_loop_stuck. intros m.
  unfold loop_cond. rewrite iterate_i_force_quiet by assumption.
  now apply Z.leb_le.
Qed.

(** C5: with both [numbers_force] and [quiet] set the body never changes the
    counter, because its only increment sits in the branch that prints; the
    condition [i <= number] therefore holds after every iteration and the
    loop does not terminate, whatever values are drawn. *)
Theorem force_quiet_never_terminates (args : program_args)
  (rng : nat -> ldouble) :
  numbers_force args = true ->
  quiet args = true ->
  1 <= number args ->
  (forall s, i (loop_body args rng s) = i s) /\
  (forall n, i (iterate n args rng loop_init) = 1 /\
             loop_cond args (iterate n args rng loop_init) = true) /\
  (forall fuel, main_loop fuel args rng loop_init = None).
Proof.
  intros Hf Hq Hn. split; [ | split].
  - intros s. now apply loop_body_i_force_quiet.
  - intros n. unfold loop_cond.
    rewrite iterate_i_force_quiet by assumption. simpl.
    split; [reflexivity | now apply Z.leb_le].
  - apply force_quiet_stuck; assumption.
Qed.

Lemma force_quiet_never_terminates_witness :
  let args := args_with 21 2 true true false [] [] false [] [] []
                false true in
  let rng := fun _ : nat => qq 1 2 in
  (forall s, i (loop_body args rng s) = i s) /\
  (forall n, i (iterate n args rng loop_init) = 1 /\
             loop_cond args (iterate n args rng loop_init) = true) /\
  (forall fuel, main_loop fuel args rng loop_init = None).
Proof.
  intros args rng.
  apply (force_quiet_never_terminates args rng).
  - reflexivity.
  - reflexivity.
  - simpl. lia.
Defined.

Lemma no_filters_args_force_quiet : no_filters args_force_quiet.
Proof. repeat split. Qed.

(** C2: at [--numbers-force --quiet --number 1] without any filter the
    program is still in its loop after any number of iterations, and by then
    it has accepted as many values as it has run iterations: the accepted
    sequence grows past [number] instead of stopping at it. *)
Theorem force_quiet_overruns_count (root : Qc -> Qc) (rng : nat -> ldouble)
  (n : nat) :
  main ld_prec_x87 false root n args_force_quiet rng = None /\
  main_loop n args_force_quiet rng loop_init = None /\
  List.length (generated (iterate n args_force_quiet rng loop_init)) = n /\
  number args_force_quiet = 1.
Proof.
  assert (H : main_loop n args_force_quiet rng loop_init = None).
  { apply force_quiet_stuck; [reflexivity | reflexivity | simpl; lia]. }
  split; [ | split; [exact H | split; [ | reflexivity]]].
  - unfold main.
    change (parse_args ld_prec_x87 false args_force_quiet)
      with (success, args_force_quiet).
    cbv beta iota. rewrite H. reflexivity.
  - rewrite iterate_length_no_filters by exact no_filters_args_force_quiet.
    simpl. lia.
Qed.

Lemma loop_body_force_loud (args : program_args) (rng : nat -> ldouble)
  (s : loop_state) :
  numbers_force args = true -> quiet args = false ->
  i s = 1 + Z.of_nat (List.length (generated s)) ->
  i (loop_body args rng s)
  = 1 + Z.of_nat (List.length (generated (loop_body args rng s)))
  /\ i (loop_body args rng s) <= i s + 1.
Proof.
  intros Hf Hq Hs. unfold loop_body. rewrite Hf, Hq.
  destruct (rejected _ _ _); cbn [i generated].
  - lia.
  - rewrite length_app. cbn [List.length]. lia.
Qed.

(** With [numbers_force] set and [quiet] off, a run in which the draws
    eventually supply [number] accepted values stops, and stops with exactly
    [number] accepted values. *)
Lemma numbers_force_exact (args : program_args) (rng : nat -> ldouble)
  (n : nat) :
  numbers_force args = true ->
  quiet args = false ->
  1 <= number args ->
  number args
  <= Z.of_nat (List.length (generated (iterate n args rng loop_init))) ->
  forall fuel, (n <= fuel)%nat ->
    exists s, main_loop fuel args rng loop_init = Some s /\
              Z.of_nat (List.length (generated s)) = number args.
Proof.
  intros Hf Hq Hn Hacc fuel Hfuel.
  set (P := fun s => i s = 1 + Z.of_nat (List.length (generated s))).
  assert (Hall : forall m, P (iterate m args rng loop_init)).
  { intros m. apply iterate_invariant; [ | reflexivity].
    intros s Hs. now apply loop_body_force_loud. }
  destruct (main_loop_terminates args rng n loop_init) with (fuel := fuel)
    as [s Hs]; [ | exact Hfuel | ].
  { unfold loop_cond. rewrite (Hall n). apply Z.leb_gt. lia. }
  exists s. split; [exact Hs | ].
  set (Q := fun s => P s /\ i s <= number args + 1).
  destruct (main_loop_invariant Q args rng) with (fuel := fuel)
    (s := loop_init) (s' := s) as [[HP Hle] Hc]; try assumption.
  - intros t [Ht _] Hc. unfold loop_cond in Hc. apply Z.leb_le in Hc.
    destruct (loop_body_force_loud args rng t Hf Hq Ht) as [H1 H2].
    split; [exact H1 | lia].
  - split; [reflexivity | simpl; lia].
  - unfold loop_cond in Hc. apply Z.leb_gt in Hc. unfold P in HP. lia.
Qed.

(** *** No-repeat *)

Lemma pairwise_distinct_snoc (v : list ldouble) (x : ldouble) :
  pairwise_distinct v -> found x v = false -> pairwise_distinct (v ++ [x]).
Proof.
  intros Hv Hx a b y z Hab Ha Hb.
  assert (Hlen : (b < List.length (v ++ [x]))%nat).
  { apply nth_error_Some. congruence. }
  rewrite length_app in Hlen. simpl in Hlen.
  rewrite nth_error_app1 in Ha by lia.
  destruct (Nat.eq_dec b (List.length v)) as [-> | Hne].
  - rewrite nth_error_app2 in Hb by lia.
    rewrite Nat.sub_diag in Hb. simpl in Hb. injection Hb as <-.
    rewrite found_false in Hx. apply Hx. eapply nth_error_In. exact Ha.
  - rewrite nth_error_app1 in Hb by lia. exact (Hv a b y z Hab Ha Hb).
Qed.

Lemma pairwise_distinct_NoDup (v : list ldouble) :
  pairwise_distinct v -> all_finite v -> NoDup v.
Proof.
  intros Hd Hf. apply NoDup_nth_error. intros a b Ha Hab.
  destruct (nth_error v a) as [x | ] eqn:Ex;
    [ | apply nth_error_None in Ex; lia].
  assert (Hx : exists q, x = Fin q).
  { unfold all_finite in Hf. rewrite Forall_forall in Hf.
    apply Hf. eapply nth_error_In; eauto. }
  destruct Hx as [q ->].
  destruct (Nat.lt_trichotomy a b) as [L | [E | L]]; [ | exact E | ].
  - pose proof (Hd a b _ _ L Ex (eq_sym Hab)) as H.
    simpl in H. rewrite Qc_eq_bool_refl in H. discriminate.
  - pose proof (Hd b a _ _ L (eq_sym Hab) Ex) as H.
    simpl in H. rewrite Qc_eq_bool_refl in H. discriminate.
Qed.

Lemma loop_body_distinct (args : program_args) (rng : nat -> ldouble)
  (s : loop_state) :
  norepeat args = true ->
  pairwise_distinct (generated s) ->
  pairwise_distinct (generated (loop_body args rng s)).
Proof.
  intros Hn Hs. rewrite loop_body_generated.
  destruct (rejected _ _ _) eqn:R; [exact Hs | ].
  apply pairwise_distinct_snoc; [exact Hs | ].
  eapply accepted_norepeat; eauto.
Qed.

(** C9: with [norepeat] set, every execution of the loop body keeps the
    accepted sequence pairwise distinct for the program's equality test, so
    the sequence is pairwise distinct after any number of iterations and when
    the loop stops; a sequence of finite values then has no duplicate. *)
Theorem norepeat_pairwise_distinct (args : program_args)
  (rng : nat -> ldouble) :
  norepeat args = true ->
  (forall s, pairwise_distinct (generated s) ->
             pairwise_distinct (generated (loop_body args rng s))) /\
  (forall n, pairwise_distinct (generated (iterate n args rng loop_init))) /\
  (forall fuel s,
      main_loop fuel args rng loop_init = Some s ->
      pairwise_distinct (generated s) /\
      (all_finite (generated s) -> NoDup (generated s))).
Proof.
  intros Hn.
  assert (Hstep : forall s, pairwise_distinct (generated s) ->
                    pairwise_distinct (generated (loop_body args rng s))).
  { intros s. now apply loop_body_distinct. }
  assert (Hinit : pairwise_distinct (generated loop_init)).
  { intros a b x y _ Ha. destruct a; discriminate. }
  split; [exact Hstep | split].
  - intros n.
    apply (iterate_invariant (fun s => pairwise_distinct (generated s)));
      assumption.
  - intros fuel s Hs.
    destruct (main_loop_result _ _ _ _ _ Hs) as (n & _ & -> & _).
    assert (Hd : pairwise_distinct (generated (iterate n args rng loop_init))).
    { apply (iterate_invariant (fun s => pairwise_distinct (generated s)));
        assumption. }
    split; [exact Hd | now apply pairwise_distinct_NoDup].
Qed.

Lemma norepeat_pairwise_distinct_witness :
  let args := args_with 0 4 false false true [] [] true [] [] []
                false false in
  let rng := fun k : nat => if Nat.even k then qq 1 2 else qq 3 2 in
  (forall s, pairwise_distinct (generated s) ->
             pairwise_distinct (generated (loop_body args rng s))) /\
  (forall n, pairwise_distinct (generated (iterate n args rng loop_init))) /\
  (forall fuel s,
      main_loop fuel args rng loop_init = Some s ->
      pairwise_distinct (generated s) /\
      (all_finite (generated s) -> NoDup (generated s))).
Proof.
  intros args rng.
  apply (norepeat_pairwise_distinct args rng).
  reflexivity.
Defined.

(** ** Validation *)

Lemma rounding_count_active (args : program_args) :
  rounding_count args = 1 -> rounding_active args = true.
Proof.
  unfold rounding_count, rounding_active, bool_to_Z.
  destruct (ceil args), (floor args), (round args), (trunc args);
    simpl; intros H; (reflexivity || lia).
Qed.

(** C3, as the code has it: with exactly one rounding mode, a count of at
    least 1, a known generator and numeric patterns, validation succeeds and
    forces the precision to 0 when the requested precision lies in
    [0, ld_prec]; the two range tests come before the override, so a requested
    precision above [ld_prec] is answered with [overd_err] and a negative one
    with [underd_err], the precision being left as requested. *)
Theorem rounding_forces_precision_in_range (ld_prec : Z)
  (args : program_args) :
  rounding_count args = 1 ->
  1 <= number args ->
  string_mem (generator args) gen_opts = true ->
  patterns_numeric args ->
  (0 <= precision args <= ld_prec ->
   parse_args ld_prec false args = (success, set_precision 0 args)) /\
  (ld_prec < precision args ->
   parse_args ld_prec false args = (overd_err, args)) /\
  (precision args <= ld_prec -> precision args < 0 ->
   parse_args ld_prec false args = (underd_err, args)).
Proof.
  intros Hr Hn Hg Hp. unfold parse_args.
  split; [ | split].
  - intros [H0 H1].
    destruct (Z.ltb_spec ld_prec (precision args)); [lia | ].
    destruct (Z.leb_spec (precision args) (-1)); [lia | ].
    destruct (Z.leb_spec (number args) 0); [lia | ].
    rewrite Hg. simpl.
    rewrite Hr. simpl.
    rewrite (rounding_count_active _ Hr).
    unfold patterns_numeric in Hp. simpl. rewrite Hp. reflexivity.
  - intros H. destruct (Z.ltb_spec ld_prec (precision args)); [ | lia].
    reflexivity.
  - intros H0 H1.
    destruct (Z.ltb_spec ld_prec (precision args)); [lia | ].
    destruct (Z.leb_spec (precision args) (-1)); [ | lia].
    reflexivity.
Qed.

Lemma rounding_forces_precision_in_range_witness :
  let args := args_with 5 1 false false true [] [] false
                ["3"%string] [] [] false false in
  parse_args ld_prec_x87 false args = (success, set_precision 0 args) /\
  precision (snd (parse_args ld_prec_x87 false args)) = 0.
Proof.
  intros args.
  assert (H : parse_args ld_prec_x87 false args
              = (success, set_precision 0 args)).
  { apply (rounding_forces_precision_in_range ld_prec_x87 args).
    - reflexivity.
    - simpl. lia.
    - reflexivity.
    - reflexivity.
    - simpl. unfold ld_prec_x87. lia. }
  split; [exact H | rewrite H; reflexivity].
Defined.

(** C3 as stated fails: [--ceil --precision 22] with everything else at its
    default is a configuration with exactly one rounding mode, yet validation
    answers [overd_err] and the precision stays 22. *)
Lemma rounding_with_large_precision_rejected :
  let args := args_with 22 1 false false true [] [] false [] [] []
                false false in
  rounding_count args = 1 /\
  parse_args ld_prec_x87 false args = (overd_err, args) /\
  precision (snd (parse_args ld_prec_x87 false args)) = 22.
Proof. intros args. repeat split. Qed.

(** ** Moments *)

Lemma Qc_of_Z_0 : Qc_of_Z 0 = 0%Qc.
Proof. reflexivity. Qed.

Lemma Qc_is_zero_true (a : Qc) : Qc_is_zero a = true <-> a = 0%Qc.
Proof. unfold Qc_is_zero. rewrite Qc_eq_bool_iff, Qc_of_Z_0. reflexivity. Qed.

Lemma Qc_is_zero_false (a : Qc) : Qc_is_zero a = false <-> a <> 0%Qc.
Proof.
  rewrite <- Qc_is_zero_true. destruct (Qc_is_zero a); split; congruence.
Qed.

Lemma Qc_is_neg_nonzero (a : Qc) : Qc_is_neg a = true -> a <> 0%Qc.
Proof.
  unfold Qc_is_neg. intros H E. subst a. apply Qc_ltb_lt in H.
  exact (Qclt_not_eq _ _ H eq_refl).
Qed.

(** A result that is zero only with a positive sign is an ordinary finite
    value. *)
Lemma signed_Fin (s : bool) (q : Qc) :
  (s = true -> q <> 0%Qc) -> LD.signed s q = Fin q.
Proof.
  intros H. unfold LD.signed. destruct s; [ | reflexivity].
  apply Qc_is_zero_false in H; [ | reflexivity]. now rewrite H.
Qed.

Lemma sub_Fin (a b : Qc) : LD.sub (Fin a) (Fin b) = Fin (a - b)%Qc.
Proof.
  unfold LD.sub, LD.opp. destruct (Qc_is_zero b) eqn:E.
  - apply Qc_is_zero_true in E. subst b. cbn [LD.add]. f_equal. ring.
  - reflexivity.
Qed.

Lemma pow2_Fin (a : Qc) : LD.pow2 (Fin a) = Fin (a * a)%Qc.
Proof.
  unfold LD.pow2, LD.mul. rewrite xorb_nilpotent. reflexivity.
Qed.

Lemma Qcdiv_nonzero (a b : Qc) : a <> 0%Qc -> b <> 0%Qc -> (a / b <> 0)%Qc.
Proof.
  intros Ha Hb E. apply Ha.
  rewrite <- (Qcmult_div_r a b) by exact Hb. rewrite E. ring.
Qed.

(** Division of a finite value by a positive finite value. *)
Lemma div_Fin_pos (a b : Qc) :
  Qc_is_zero b = false -> Qc_is_neg b = false ->
  LD.div (Fin a) (Fin b) = Fin (a / b)%Qc.
Proof.
  intros Hz Hn. unfold LD.div. rewrite Hz, Hn. cbn [xorb].
  apply signed_Fin. intros Ha. apply Qc_is_neg_nonzero in Ha.
  apply Qcdiv_nonzero; [exact Ha | now apply Qc_is_zero_false].
Qed.

Lemma Qc_of_Z_S_nonneg (n : nat) :
  Qc_is_neg (Qc_of_Z (Z.of_nat (S n))) = false.
Proof.
  unfold Qc_is_neg. apply Qc_ltb_ge. unfold Qcle, Qc_of_Z.
  cbn [this Q2Qc]. rewrite !Qred_correct. rewrite <- Zle_Qle. lia.
Qed.

Lemma div_by_size (a : Qc) (n : nat) :
  LD.div (Fin a) (LD.of_size (S n))
  = Fin (a / Qc_of_Z (Z.of_nat (S n)))%Qc.
Proof.
  apply div_Fin_pos; [apply Qc_of_Z_S_nonzero | apply Qc_of_Z_S_nonneg].
Qed.

Lemma sum_sq_dev_from (mu : Qc) (qs : list Qc) :
  forall a,
    fold_left (fun var x => LD.add var (LD.pow2 (LD.sub x (Fin mu))))
      (map Fin qs) (Fin a)
    = Fin (a + Qc_sum (map (fun x => (x - mu) * (x - mu)) qs))%Qc.
Proof.
  induction qs as [ | q qs IH]; intros a; cbn [map fold_left Qc_sum].
  - rewrite Qc_of_Z_0. f_equal. ring.
  - rewrite sub_Fin, pow2_Fin. cbn [LD.add]. rewrite IH. f_equal. ring.
Qed.

Lemma sum_sq_dev_fin (mu : Qc) (qs : list Qc) :
  sum_sq_dev (map Fin qs) (Fin mu)
  = Fin (Qc_sum (map (fun x => (x - mu) * (x - mu)) qs))%Qc.
Proof.
  unfold sum_sq_dev, LD.of_Z. rewrite sum_sq_dev_from, Qc_of_Z_0.
  f_equal. ring.
Qed.

(** The variance block on finite values, when the mean it has computed is
    the finite value [m]. *)
Lemma variance_of_with_mean (q : Qc) (qs : list Qc) (m : Qc) :
  avg_of (map Fin (q :: qs)) = Fin m ->
  variance_of (map Fin (q :: qs))
  = Fin (Qc_sum (map (fun x => (x - m) * (x - m)) (q :: qs))
         / Qc_len (q :: qs))%Qc.
Proof.
  intros Hm. unfold variance_of. rewrite Hm, sum_sq_dev_fin, length_map.
  cbn [List.length]. rewrite div_by_size. reflexivity.
Qed.

(** The standard deviation block when [root] is a square root at the
    variance: it is the non-negative number whose square is the variance. *)
Lemma std_of_is_root (root : Qc -> Qc) (g : list ldouble) (v : Qc) :
  variance_of g = Fin v ->
  (0 <= root v)%Qc -> (root v * root v = v)%Qc ->
  std_of root g = Fin (root v) /\
  LD.mul (std_of root g) (std_of root g) = variance_of g.
Proof.
  intros Hv H0 Hsq.
  assert (Hs : std_of root g = Fin (root v)).
  { change (std_of root g) with (LD.sqrt root (variance_of g)).
    rewrite Hv. unfold LD.sqrt.
    replace (Qc_is_neg v) with false; [reflexivity | ].
    symmetry. apply Qc_ltb_ge. rewrite <- Hsq.
    rewrite Qc_of_Z_0. replace 0%Qc with (0 * root v)%Qc by ring.
    now apply Qcmult_le_compat_r. }
  split; [exact Hs | ].
  rewrite Hs, Hv. change (LD.mul (Fin (root v)) (Fin (root v)))
    with (LD.pow2 (Fin (root v))).
  rewrite pow2_Fin, Hsq. reflexivity.
Qed.

Lemma Fin_eq_of (a : ldouble) (y : Qc) :
  (exists x, a = Fin x /\ Qc_eq_bool x y = true) -> a = Fin y.
Proof. intros (x & -> & H). now apply Fin_eq. Qed.

(** C10: the variance and standard deviation blocks divide the sum of the
    squared deviations by the population size [N], and for 1, 2, 3 the
    variance is 2/3 where [N - 1] would give 1; but the deviations are taken
    from a mean that was accumulated in [double]: for the single value
    [2^53 + 1] the sum and the mean are [2^53] and the variance printed is 1,
    not 0.  Whenever the mean comes out exact the variance is the population
    variance, and the standard deviation is the non-negative number whose
    square is the variance. *)
Theorem variance_with_double_mean :
  accumulate [qz (2 ^ 53 + 1)] = qz (2 ^ 53) /\
  avg_of [qz (2 ^ 53 + 1)] = qz (2 ^ 53) /\
  variance_of [qz (2 ^ 53 + 1)] = qz 1 /\
  Qc_pop_variance [Qc_of_Z (2 ^ 53 + 1)] = Qc_of_Z 0 /\
  (forall q qs m,
      avg_of (map Fin (q :: qs)) = Fin m ->
      variance_of (map Fin (q :: qs))
      = Fin (Qc_sum (map (fun x => (x - m) * (x - m)) (q :: qs))
             / Qc_len (q :: qs))%Qc) /\
  (forall q qs,
      avg_of (map Fin (q :: qs)) = Fin (Qc_mean (q :: qs)) ->
      variance_of (map Fin (q :: qs)) = Fin (Qc_pop_variance (q :: qs))) /\
  avg_of [qz 1; qz 2; qz 3] = qz 2 /\
  variance_of [qz 1; qz 2; qz 3] = qq 2 3 /\
  Qc_sample_variance [Qc_of_Z 1; Qc_of_Z 2; Qc_of_Z 3] = Qc_of_Z 1 /\
  (forall root g v,
      variance_of g = Fin v ->
      (0 <= root v)%Qc -> (root v * root v = v)%Qc ->
      std_of root g = Fin (root v) /\
      LD.mul (std_of root g) (std_of root g) = variance_of g).
Proof.
  assert (A3 : avg_of [qz 1; qz 2; qz 3] = qz 2).
  { unfold qz. apply Fin_eq_of. vm_compute. eexists.
    split; [reflexivity | vm_compute; reflexivity]. }
  assert (C : forall a : ldouble, forall y : Qc,
             (exists x, a = Fin x /\ Qc_eq_bool x y = true) -> a = Fin y).
  { intros a y (x & -> & H). now apply Fin_eq. }
  split; [ | split; [ | split; [ | split; [ | split; [ | split;
    [ | split; [ | split; [ | split]]]]]]]].
  - apply C. vm_compute. eexists.
    split; [reflexivity | vm_compute; reflexivity].
  - apply C. vm_compute. eexists.
    split; [reflexivity | vm_compute; reflexivity].
  - apply C. vm_compute. eexists.
    split; [reflexivity | vm_compute; reflexivity].
  - apply Qc_is_canon. vm_compute. reflexivity.
  - exact variance_of_with_mean.
  - intros q qs H. rewrite (variance_of_with_mean q qs _ H). reflexivity.
  - exact A3.
  - change [qz 1; qz 2; qz 3]
      with (map Fin [Qc_of_Z 1; Qc_of_Z 2; Qc_of_Z 3]).
    rewrite (variance_of_with_mean _ _ (Qc_of_Z 2)) by exact A3.
    unfold qq. apply Fin_eq. vm_compute. reflexivity.
  - apply Qc_is_canon. vm_compute. reflexivity.
  - exact std_of_is_root.
Qed.

(** ** Statistics of an empty sequence *)

(** C4: the run [--include 5 --stat-min --stat-avg] with draws of 1/2 ends
    with an empty accepted sequence; the minimum block then dereferences the
    past-the-end iterator that [minmax_element] returns for an empty range,
    and so would the maximum block, while the average block alone prints
    not-a-number and the run ends normally. *)
Theorem empty_sequence_statistics :
  let rng := fun _ : nat => qq 1 2 in
  (forall root,
      main ld_prec_x87 false root 1 args_include_5 rng
      = Some {| ending_of_run := Undefined_behaviour;
                printed := [Text newline];
                errors := [] |}) /\
  (forall root,
      main ld_prec_x87 false root 1 args_include_5_avg rng
      = Some {| ending_of_run := Exit 0;
                printed := [Text newline; Stat_line "avg: " NaN];
                errors := [] |}) /\
  main_loop 1 args_include_5 rng loop_init
  = Some {| i := 2; list_cnt := 0; generated := []; drawn := 1;
            output := [] |} /\
  minmax_element [] = (List.length (@nil ldouble), List.length (@nil ldouble))
  /\ min_of [] = Undefined /\ max_of [] = Undefined /\
  avg_of [] = NaN /\ variance_of [] = NaN.
Proof.
  intros rng. repeat split.
Qed.

(** ** Order statistics *)

Section Sorting.

Local Open Scope Qc_scope.

Lemma Qc_insert_perm (x : Qc) (l : list Qc) :
  Permutation (x :: l) (Qc_insert x l).
Proof.
  induction l as [ | y r IH]; simpl; [reflexivity | ].
  destruct (Qc_ltb x y); [reflexivity | ].
  rewrite perm_swap. now apply perm_skip.
Qed.

Lemma Qc_sort_perm (l : list Qc) : Permutation l (Qc_sort l).
Proof.
  induction l as [ | x l IH]; simpl; [reflexivity | ].
  rewrite <- Qc_insert_perm. now apply perm_skip.
Qed.

Lemma Qc_insert_sorted (x : Qc) (l : list Qc) :
  StronglySorted Qcle l -> StronglySorted Qcle (Qc_insert x l).
Proof.
  induction 1 as [ | y r Hr IH Hy]; simpl.
  - repeat constructor.
  - destruct (Qc_ltb x y) eqn:E.
    + apply Qc_ltb_lt in E. constructor; [now constructor | ].
      constructor; [now apply Qclt_le_weak | ].
      rewrite Forall_forall in *. intros z Hz.
      apply Qcle_trans with y; [now apply Qclt_le_weak | now apply Hy].
    + apply Qc_ltb_ge in E. constructor; [exact IH | ].
      rewrite Forall_forall in *. intros z Hz.
      apply (Permutation_in _ (Permutation_sym (Qc_insert_perm x r))) in Hz.
      destruct Hz as [<- | Hz]; [exact E | now apply Hy].
Qed.

Lemma Qc_sort_sorted (l : list Qc) : StronglySorted Qcle (Qc_sort l).
Proof.
  induction l as [ | x l IH]; simpl; [constructor | ].
  now apply Qc_insert_sorted.
Qed.

(** Two sorted arrangements of the same values coincide. *)
Lemma sorted_perm_unique (l1 : list Qc) :
  forall l2,
    StronglySorted Qcle l1 -> StronglySorted Qcle l2 ->
    Permutation l1 l2 -> l1 = l2.
Proof.
  induction l1 as [ | a l1 IH]; intros l2 S1 S2 P.
  - apply Permutation_nil in P. now subst.
  - destruct l2 as [ | b l2].
    + apply Permutation_sym, Permutation_nil in P. discriminate.
    + inversion S1 as [ | ? ? S1' F1]; subst.
      inversion S2 as [ | ? ? S2' F2]; subst.
      rewrite Forall_forall in F1, F2.
      assert (Hab : a = b).
      { assert (Ia : In a (b :: l2))
          by (apply (Permutation_in _ P); now left).
        assert (Ib : In b (a :: l1))
          by (apply (Permutation_in _ (Permutation_sym P)); now left).
        destruct Ia as [-> | Ia]; [reflexivity | ].
        destruct Ib as [-> | Ib]; [reflexivity | ].
        apply Qcle_antisym; [now apply F1 | now apply F2]. }
      subst b. f_equal. apply IH; try assumption.
      now apply Permutation_cons_inv in P.
Qed.

Lemma sorted_app (l1 l2 : list Qc) :
  StronglySorted Qcle l1 -> StronglySorted Qcle l2 ->
  (forall a b, In a l1 -> In b l2 -> a <= b) ->
  StronglySorted Qcle (l1 ++ l2).
Proof.
  intros S1 S2 H. induction S1 as [ | a l1 S1 IH F1]; simpl; [exact S2 | ].
  constructor.
  - apply IH. intros x y Hx Hy. apply H; [now right | exact Hy].
  - rewrite Forall_forall in *. intros z Hz.
    apply in_app_or in Hz. destruct Hz as [Hz | Hz]; [now apply F1 | ].
    apply H; [now left | exact Hz].
Qed.

Lemma sorted_nth (l : list Qc) :
  StronglySorted Qcle l ->
  forall a b x y, (a <= b)%nat ->
    nth_error l a = Some x -> nth_error l b = Some y -> x <= y.
Proof.
  induction 1 as [ | z l S IH F]; intros a b x y Hab Ha Hb.
  - destruct a; discriminate.
  - destruct a as [ | a], b as [ | b]; simpl in *.
    + injection Ha as <-. injection Hb as <-. apply Qcle_refl.
    + injection Ha as <-. rewrite Forall_forall in F. apply F.
      eapply nth_error_In; eauto.
    + lia.
    + apply (IH a b); auto. lia.
Qed.

Lemma sort_map_Fin (l : list Qc) : sort (map Fin l) = map Fin (Qc_sort l).
Proof.
  induction l as [ | x l IH]; [reflexivity | ].
  change (sort (map Fin (x :: l)))
    with (insert_sorted (Fin x) (sort (map Fin l))).
  change (Qc_sort (x :: l)) with (Qc_insert x (Qc_sort l)).
  rewrite IH. clear IH.
  induction (Qc_sort l) as [ | y r IHr]; simpl; [reflexivity | ].
  destruct (Qc_ltb x y); [reflexivity | ]. now rewrite IHr.
Qed.

(** The scan of [max_element] ends on a greatest element. *)
Lemma max_scan_greatest (r : list Qc) :
  forall pre j b,
    nth_error pre j = Some b ->
    (forall a, In a pre -> a <= b) ->
    exists m,
      nth_error (pre ++ r)
        (max_scan (map Fin r) (List.length pre) (j, Fin b)) = Some m /\
      forall a, In a (pre ++ r) -> a <= m.
Proof.
  induction r as [ | x r IH]; intros pre j b Hj Hb; simpl.
  - exists b. rewrite app_nil_r. auto.
  - assert (Hlen : (j < List.length pre)%nat)
      by (apply nth_error_Some; congruence).
    replace (pre ++ x :: r) with ((pre ++ [x]) ++ r)
      by (rewrite <- app_assoc; reflexivity).
    replace (S (List.length pre)) with (List.length (pre ++ [x]))
      by (rewrite length_app; simpl; lia).
    destruct (Qc_ltb b x) eqn:E.
    + apply Qc_ltb_lt in E. apply IH.
      * rewrite nth_error_app2, Nat.sub_diag by lia. reflexivity.
      * intros a Ha. apply in_app_or in Ha.
        destruct Ha as [Ha | [<- | []]]; [ | apply Qcle_refl].
        apply Qcle_trans with b; [now apply Hb | now apply Qclt_le_weak].
    + apply Qc_ltb_ge in E. apply IH.
      * rewrite nth_error_app1 by lia. exact Hj.
      * intros a Ha. apply in_app_or in Ha.
        destruct Ha as [Ha | [<- | []]]; [now apply Hb | exact E].
Qed.

Lemma max_element_greatest (x : Qc) (l : list Qc) :
  exists m,
    deref (map Fin (x :: l)) (max_element (map Fin (x :: l)))
    = Printed (Fin m) /\
    In m (x :: l) /\ forall a, In a (x :: l) -> a <= m.
Proof.
  destruct (max_scan_greatest l [x] O x) as (m & Hm & Hmax).
  - reflexivity.
  - intros a [<- | []]. apply Qcle_refl.
  - exists m. simpl in Hm. split; [ | split].
    + unfold deref, max_element. cbn [map].
      change (Fin x :: map Fin l) with (map Fin (x :: l)).
      rewrite nth_error_map. cbn [List.length] in Hm. rewrite Hm.
      reflexivity.
    + eapply nth_error_In. exact Hm.
    + exact Hmax.
Qed.

End Sorting.

Section Median.

Local Open Scope Qc_scope.

Lemma partitioned_sort (A B : list Qc) (x : Qc) :
  (forall a b, In a A -> In b (x :: B) -> a <= b) ->
  (forall b, In b B -> x <= b) ->
  Qc_sort (A ++ x :: B) = Qc_sort A ++ x :: Qc_sort B.
Proof.
  intros HA HB. apply sorted_perm_unique.
  - apply Qc_sort_sorted.
  - apply sorted_app.
    + apply Qc_sort_sorted.
    + constructor; [apply Qc_sort_sorted | ].
      rewrite Forall_forall. intros b Hb. apply HB.
      apply (Permutation_in _ (Permutation_sym (Qc_sort_perm B))), Hb.
    + intros a b Ha Hb. apply HA.
      * apply (Permutation_in _ (Permutation_sym (Qc_sort_perm A))), Ha.
      * destruct Hb as [<- | Hb]; [now left | right].
        apply (Permutation_in _ (Permutation_sym (Qc_sort_perm B))), Hb.
  - rewrite <- (Qc_sort_perm (A ++ x :: B)).
    apply Permutation_app; [apply Qc_sort_perm | ].
    apply perm_skip, Qc_sort_perm.
Qed.

(** What the contract of [nth_element] says about a vector of finite
    values: the result splits at [k] into a lower part, the pivot and an
    upper part. *)
Lemma nth_element_post_split (qs : list Qc) (k : nat)
  (after : list ldouble) :
  (k < List.length qs)%nat ->
  nth_element_post (map Fin qs) k after ->
  exists A x B,
    after = map Fin (A ++ x :: B) /\ List.length A = k /\
    Permutation qs (A ++ x :: B) /\
    (forall a b, In a A -> In b (x :: B) -> a <= b) /\
    (forall b, In b B -> x <= b).
Proof.
  intros Hk [P Hord].
  destruct (Permutation_map_inv Fin _ (Permutation_sym P))
    as (qs' & -> & P').
  assert (Hlen : (k < List.length qs')%nat)
    by (rewrite <- (Permutation_length P'); exact Hk).
  destruct (nth_error qs' k) as [x | ] eqn:Ex;
    [ | apply nth_error_None in Ex; lia].
  destruct (nth_error_split _ _ Ex) as (A & B & -> & HA).
  exists A, x, B. repeat split; try assumption.
  - intros a b Ha Hb.
    destruct (In_nth_error _ _ Ha) as [ia Hia].
    assert (Hia' : (ia < List.length A)%nat)
      by (apply nth_error_Some; congruence).
    destruct (In_nth_error _ _ Hb) as [ib Hib].
    apply Qc_ltb_ge.
    apply (Hord ia (List.length A + ib)%nat (Fin a) (Fin b)).
    + rewrite nth_error_map, nth_error_app1, Hia by lia. reflexivity.
    + rewrite nth_error_map, nth_error_app2 by lia.
      replace (List.length A + ib - List.length A)%nat with ib by lia.
      rewrite Hib. reflexivity.
    + left. lia.
  - intros b Hb.
    destruct (In_nth_error _ _ Hb) as [ib Hib].
    apply Qc_ltb_ge.
    apply (Hord k (List.length A + S ib)%nat (Fin x) (Fin b)).
    + rewrite nth_error_map, Ex. reflexivity.
    + rewrite nth_error_map, nth_error_app2 by lia.
      replace (List.length A + S ib - List.length A)%nat with (S ib)
        by lia.
      simpl. rewrite Hib. reflexivity.
    + right. lia.
Qed.

Lemma div_by_two (a : Qc) :
  LD.div (Fin a) (LD.of_Z 2) = Fin (a / Qc_of_Z 2).
Proof. apply div_Fin_pos; reflexivity. Qed.

(** The median block on a vector split as the contract of [nth_element]
    leaves it, with a non-empty lower part as long as the upper part plus
    the pivot. *)
Lemma median_after_split (A B : list Qc) (x : Qc) :
  A <> [] ->
  List.length (A ++ x :: B) = (2 * List.length A)%nat ->
  (forall a b, In a A -> In b (x :: B) -> a <= b) ->
  (forall b, In b B -> x <= b) ->
  exists lo,
    nth_error (Qc_sort (A ++ x :: B)) (List.length A - 1) = Some lo /\
    nth_error (Qc_sort (A ++ x :: B)) (List.length A) = Some x /\
    deref (map Fin (A ++ x :: B)) (List.length A) = Printed (Fin x) /\
    median_after (map Fin (A ++ x :: B))
    = Printed (Fin ((x + lo) / Qc_of_Z 2)).
Proof.
  intros HA Hlen Hlow Hup.
  assert (HlenS : List.length (Qc_sort A) = List.length A)
    by (symmetry; apply Permutation_length, Qc_sort_perm).
  destruct A as [ | a0 A0]; [congruence | ].
  set (A := a0 :: A0) in *.
  destruct (max_element_greatest a0 A0) as (m & Hm & HmIn & Hmax).
  fold A in Hm, HmIn, Hmax.
  destruct (nth_error (Qc_sort A) (List.length A - 1)) as [lo | ] eqn:Elo;
    [ | apply nth_error_None in Elo; subst A; simpl in *; lia].
  assert (Hlo_in : In lo A).
  { apply (Permutation_in _ (Permutation_sym (Qc_sort_perm A))).
    eapply nth_error_In; eauto. }
  assert (Hm_lo : m = lo).
  { apply Qcle_antisym; [ | now apply Hmax].
    apply (Permutation_in _ (Qc_sort_perm A)) in HmIn.
    destruct (In_nth_error _ _ HmIn) as [im Him].
    assert ((im < List.length (Qc_sort A))%nat)
      by (apply nth_error_Some; congruence).
    apply (sorted_nth _ (Qc_sort_sorted A) im (List.length A - 1)%nat);
      [lia | exact Him | exact Elo]. }
  subst m. exists lo.
  rewrite partitioned_sort by assumption.
  assert (Hx : nth_error (A ++ x :: B) (List.length A) = Some x).
  { rewrite nth_error_app2, Nat.sub_diag by lia. reflexivity. }
  assert (Hd : deref (map Fin (A ++ x :: B)) (List.length A)
               = Printed (Fin x)).
  { unfold deref. rewrite nth_error_map, Hx. reflexivity. }
  repeat split.
  - rewrite nth_error_app1 by (subst A; simpl in *; lia). exact Elo.
  - rewrite nth_error_app2, HlenS, Nat.sub_diag by lia. reflexivity.
  - exact Hd.
  - unfold median_after. rewrite length_map, Hlen.
    replace (2 * List.length A / 2)%nat with (List.length A)
      by (rewrite Nat.mul_comm, Nat.div_mul; lia).
    rewrite Hd.
    replace ((2 * List.length A) mod 2)%nat with O
      by (rewrite Nat.mul_comm, Nat.Div0.mod_mul; reflexivity).
    cbn [Nat.eqb].
    rewrite firstn_map, firstn_app, Nat.sub_diag, firstn_all.
    cbn [firstn]. rewrite app_nil_r, Hm.
    cbn [LD.add]. rewrite div_by_two. reflexivity.
Qed.

(** A full sort meets the contract of [nth_element]. *)
Lemma nth_element_meets_post (qs : list Qc) (k : nat) :
  nth_element_post (map Fin qs) k (nth_element (map Fin qs) k).
Proof.
  unfold nth_element. rewrite sort_map_Fin. split.
  - apply Permutation_map, Qc_sort_perm.
  - intros a b x y Ha Hb Hab.
    rewrite nth_error_map in Ha, Hb.
    destruct (nth_error (Qc_sort qs) a) as [qa | ] eqn:Ea; [ | discriminate].
    destruct (nth_error (Qc_sort qs) b) as [qb | ] eqn:Eb; [ | discriminate].
    injection Ha as <-. injection Hb as <-.
    apply Qc_ltb_ge.
    apply (sorted_nth _ (Qc_sort_sorted qs) a b); [lia | exact Ea | exact Eb].
Qed.

End Median.

(** The median block after any reordering allowed by the contract of
    [nth_element], for an even number [2 * k] of finite values. *)
Lemma median_after_post (qs : list Qc) (k : nat) (after : list ldouble) :
  (0 < k)%nat -> List.length qs = (2 * k)%nat ->
  nth_element_post (map Fin qs) k after ->
  exists lo hi,
    nth_error (Qc_sort qs) (k - 1) = Some lo /\
    nth_error (Qc_sort qs) k = Some hi /\
    deref after k = Printed (Fin hi) /\
    median_after after = Printed (Fin ((hi + lo) / Qc_of_Z 2)%Qc).
Proof.
  intros Hk Hlen Hpost.
  destruct (nth_element_post_split qs k after) as
    (A & x & B & -> & HA & P & Hlow & Hup); [lia | exact Hpost | ].
  assert (HS : Qc_sort qs = Qc_sort (A ++ x :: B)).
  { apply sorted_perm_unique; try apply Qc_sort_sorted.
    rewrite <- (Qc_sort_perm qs), <- (Qc_sort_perm (A ++ x :: B)). exact P. }
  destruct (median_after_split A B x) as (lo & H1 & H2 & H3 & H4);
    try assumption.
  - intros ->. simpl in HA. lia.
  - rewrite <- (Permutation_length P). lia.
  - exists lo, x. rewrite HS, <- HA. auto.
Qed.

(** C1, as the code has it: for an even number of finite values the median
    block averages the element that [nth_element] puts at index [size / 2],
    which is the upper of the two central order statistics, with the greatest
    element of the part before it, which is the lower one; the printed median
    is the conventional mean of the two central values. *)
Theorem median_even_is_central_average (qs : list Qc) (k : nat)
  (after : list ldouble) :
  (0 < k)%nat -> List.length qs = (2 * k)%nat ->
  nth_element_post (map Fin qs) k after ->
  exists lo hi,
    nth_error (Qc_sort qs) (k - 1) = Some lo /\
    nth_error (Qc_sort qs) k = Some hi /\
    deref after k = Printed (Fin hi) /\
    median_after after = Printed (Fin ((hi + lo) / Qc_of_Z 2)%Qc) /\
    median_of (map Fin qs) = Printed (Fin ((hi + lo) / Qc_of_Z 2)%Qc).
Proof.
  intros Hk Hlen Hpost.
  destruct (median_after_post qs k after Hk Hlen Hpost)
    as (lo & hi & H1 & H2 & H3 & H4).
  exists lo, hi. repeat split; try assumption.
  destruct (median_after_post qs k (nth_element (map Fin qs) k) Hk Hlen)
    as (lo' & hi' & H1' & H2' & _ & H4').
  { apply nth_element_meets_post. }
  unfold median_of. rewrite length_map, Hlen.
  replace (2 * k / 2)%nat with k by (rewrite Nat.mul_comm, Nat.div_mul; lia).
  rewrite H4'. congruence.
Qed.

Lemma median_even_is_central_average_witness :
  let qs := [Qc_of_Z 4; Qc_of_Z 1; Qc_of_Z 3; Qc_of_Z 2] in
  exists lo hi,
    nth_error (Qc_sort qs) (2 - 1) = Some lo /\
    nth_error (Qc_sort qs) 2 = Some hi /\
    deref (nth_element (map Fin qs) 2) 2 = Printed (Fin hi) /\
    median_after (nth_element (map Fin qs) 2)
    = Printed (Fin ((hi + lo) / Qc_of_Z 2)%Qc) /\
    median_of (map Fin qs) = Printed (Fin ((hi + lo) / Qc_of_Z 2)%Qc).
Proof.
  intros qs.
  apply (median_even_is_central_average qs 2 (nth_element (map Fin qs) 2)).
  - lia.
  - reflexivity.
  - apply nth_element_meets_post.
Defined.

Lemma Printed_Fin_eq (a b : Qc) :
  Qc_eq_bool a b = true -> Printed (Fin a) = Printed (Fin b).
Proof. intros H. apply Qc_eq_bool_correct in H. now subst. Qed.

(** C1 as stated fails: for the accepted sequence 1, 2, 3, 4 the median block
    prints 5/2, not 2, whatever reordering [nth_element] chooses within its
    contract. *)
Lemma median_1234_is_not_2 :
  median_of [qz 1; qz 2; qz 3; qz 4] = Printed (qq 5 2) /\
  median_of [qz 1; qz 2; qz 3; qz 4] <> Printed (qz 2) /\
  forall after,
    nth_element_post [qz 1; qz 2; qz 3; qz 4] 2 after ->
    median_after after = Printed (qq 5 2).
Proof.
  assert (E : median_of [qz 1; qz 2; qz 3; qz 4] = Printed (qq 5 2)).
  { vm_compute. apply Printed_Fin_eq. vm_compute. reflexivity. }
  split; [exact E | split].
  - rewrite E. intros H.
    assert (B : Qc_eq_bool (Q2Qc (5 # 2)) (Qc_of_Z 2) = true).
    { apply Qc_eq_bool_iff. unfold qq, qz in H. congruence. }
    vm_compute in B. discriminate.
  - intros after Hpost.
    destruct (median_after_post
                [Qc_of_Z 1; Qc_of_Z 2; Qc_of_Z 3; Qc_of_Z 4] 2 after)
      as (lo & hi & H1 & H2 & _ & H4); [lia | reflexivity | exact Hpost | ].
    rewrite H4. vm_compute in H1, H2.
    injection H1 as <-. injection H2 as <-.
    apply Printed_Fin_eq. vm_compute. reflexivity.
Qed.

(** * Further properties of the code *)

(** ** Validation *)

(** X1: validation succeeds exactly when the requested precision lies in
    [0, ld_prec], the count is at least 1, the generator name is one of the
    eleven known names, at most one rounding mode is selected and every
    pattern is numeric; the structure returned differs from the input only
    by a precision of 0 when a rounding mode is active. *)
Theorem parse_args_success_iff (ld_prec : Z) (args a' : program_args) :
  parse_args ld_prec false args = (success, a') <->
  (0 <= precision args <= ld_prec /\
   1 <= number args /\
   string_mem (generator args) gen_opts = true /\
   rounding_count args <= 1 /\
   patterns_numeric args /\
   a' = if rounding_active args then set_precision 0 args else args).
Proof.
  unfold parse_args, patterns_numeric.
  destruct (Z.ltb_spec ld_prec (precision args));
    [split; [discriminate | lia] | ].
  destruct (Z.leb_spec (precision args) (-1));
    [split; [discriminate | lia] | ].
  destruct (Z.leb_spec (number args) 0);
    [split; [discriminate | lia] | ].
  destruct (string_mem (generator args) gen_opts); simpl;
    [ | split; [discriminate | intros (_ & _ & ? & _); discriminate]].
  destruct (Z.ltb_spec 1 (rounding_count args));
    [split; [discriminate | lia] | ].
  assert (E : forall b : bool,
             prefix (if b then set_precision 0 args else args)
             ++ suffix (if b then set_precision 0 args else args)
             ++ contains (if b then set_precision 0 args else args)
             = prefix args ++ suffix args ++ contains args)
    by (intros []; reflexivity).
  rewrite E.
  destruct (existsb not_numeric _).
  - split; [discriminate | intros (_ & _ & _ & _ & ? & _); discriminate].
  - split.
    + intros [= <-]. repeat split; (lia || reflexivity).
    + intros (_ & _ & _ & _ & _ & ->). reflexivity.
Qed.

Lemma parse_args_success (ld_prec : Z) (args a' : program_args) :
  parse_args ld_prec false args = (success, a') ->
  0 <= precision args <= ld_prec /\
  1 <= number args /\
  string_mem (generator args) gen_opts = true /\
  rounding_count args <= 1 /\
  patterns_numeric args /\
  a' = (if rounding_active args then set_precision 0 args else args).
Proof.
  unfold parse_args, patterns_numeric.
  destruct (Z.ltb_spec ld_prec (precision args)); [discriminate | ].
  destruct (Z.leb_spec (precision args) (-1)); [discriminate | ].
  destruct (Z.leb_spec (number args) 0); [discriminate | ].
  destruct (string_mem (generator args) gen_opts); simpl; [ | discriminate].
  destruct (Z.ltb_spec 1 (rounding_count args)); [discriminate | ].
  destruct (rounding_active args);
    (destruct (existsb not_numeric _) eqn:E; [discriminate | ]);
    intros [= <-]; repeat split; (lia || exact E || reflexivity).
Qed.

(** X2: a configuration that validation has accepted is accepted again
    unchanged: the result satisfies every check, its precision is 0 when a
    rounding mode is active, and no other field was touched. *)
Theorem parse_args_idempotent (ld_prec : Z) (args a' : program_args) :
  parse_args ld_prec false args = (success, a') ->
  parse_args ld_prec false a' = (success, a') /\
  0 <= precision a' <= ld_prec /\
  (rounding_active a' = true -> precision a' = 0) /\
  set_precision (precision args) a' = set_precision (precision args) args.
Proof.
  intros H.
  destruct (parse_args_success _ _ _ H) as (Hp & Hn & Hg & Hr & Hpat & ->).
  unfold parse_args, patterns_numeric in *.
  destruct (rounding_active args) eqn:Ha.
  - cbn [precision number generator set_precision].
    destruct (Z.ltb_spec ld_prec 0); [lia | ].
    destruct (Z.leb_spec (number args) 0); [lia | ].
    change (0 <=? -1) with false. cbv iota.
    rewrite Hg.
    change (rounding_count (set_precision 0 args)) with (rounding_count args).
    change (rounding_active (set_precision 0 args)) with (rounding_active args).
    destruct (Z.ltb_spec 1 (rounding_count args)); [lia | ].
    rewrite Ha. cbn [negb].
    change (prefix (set_precision 0 (set_precision 0 args))
            ++ suffix (set_precision 0 (set_precision 0 args))
            ++ contains (set_precision 0 (set_precision 0 args)))
      with (prefix args ++ suffix args ++ contains args).
    change (prefix (set_precision 0 args) ++ suffix (set_precision 0 args)
            ++ contains (set_precision 0 args))
      with (prefix args ++ suffix args ++ contains args) in Hpat.
    rewrite Hpat.
    repeat split; try reflexivity; lia.
  - destruct (Z.ltb_spec ld_prec (precision args)); [lia | ].
    destruct (Z.leb_spec (precision args) (-1)); [lia | ].
    destruct (Z.leb_spec (number args) 0); [lia | ].
    rewrite Hg.
    destruct (Z.ltb_spec 1 (rounding_count args)); [lia | ].
    rewrite Ha. cbn [negb]. rewrite Hpat.
    repeat split; try reflexivity; try lia.
Qed.

Lemma parse_args_idempotent_witness :
  let args := args_with 5 1 false false true [] [] false
                ["3"%string] [] [] false false in
  let a' := set_precision 0 args in
  parse_args ld_prec_x87 false a' = (success, a') /\
  0 <= precision a' <= ld_prec_x87 /\
  (rounding_active a' = true -> precision a' = 0) /\
  set_precision (precision args) a' = set_precision (precision args) args.
Proof.
  intros args a'.
  apply (parse_args_idempotent ld_prec_x87 args a').
  reflexivity.
Defined.

(** X3: when the checks of [parse_args] do not answer [success] the program
    stops before drawing anything.  For [--help] it writes the table of
    options and a newline to the standard output and exits with 0; otherwise
    it writes nothing to the standard output and exactly one message, that of
    the failed check, to the standard error, and exits with the code of that
    check, one of 1 .. 6. *)
Theorem main_stops_on_failed_validation (ld_prec : Z) (help : bool)
  (root : Qc -> Qc) (fuel : nat) (raw : program_args) (rng : nat -> ldouble) :
  fst (parse_args ld_prec help raw) <> success ->
  exists c,
    main ld_prec help root fuel raw rng
    = Some {| ending_of_run := Exit c;
              printed := if help then [Option_table; Text newline] else [];
              errors := error_text ld_prec
                          (fst (parse_args ld_prec help raw)) |} /\
    0 <= c <= 6 /\
    (c = 0 <-> help = true) /\
    (help = true -> error_text ld_prec (fst (parse_args ld_prec help raw))
                    = []) /\
    (help = false ->
     c = returnID_code (fst (parse_args ld_prec help raw)) /\
     exists msg,
       error_text ld_prec (fst (parse_args ld_prec help raw)) = [msg]).
Proof.
  unfold main.
  destruct (parse_args ld_prec help raw) as [r a'] eqn:E.
  assert (Hh : r = success_help <-> help = true).
  { unfold parse_args in E. destruct help.
    - injection E as <- _. split; reflexivity.
    - split; [ | discriminate]. intros ->.
      repeat (match type of E with
              | (if ?c then _ else _) = _ => destruct c
              | (let _ := _ in _) = _ => cbv zeta in E
              end; try discriminate). }
  cbn [fst]. intros Hr.
  destruct r; try (exfalso; apply Hr; reflexivity).
  - destruct help; [ | destruct Hh as [Hh _]; discriminate (Hh eq_refl)].
    exists 0. repeat split; try reflexivity; try lia; discriminate.
  - destruct help; [destruct Hh as [_ Hh]; discriminate (Hh eq_refl) | ].
    exists 1. repeat split; try reflexivity; try lia; try discriminate.
    eexists; reflexivity.
  - destruct help; [destruct Hh as [_ Hh]; discriminate (Hh eq_refl) | ].
    exists 2. repeat split; try reflexivity; try lia; try discriminate.
    eexists; reflexivity.
  - destruct help; [destruct Hh as [_ Hh]; discriminate (Hh eq_refl) | ].
    exists 3. repeat split; try reflexivity; try lia; try discriminate.
    eexists; reflexivity.
  - destruct help; [destruct Hh as [_ Hh]; discriminate (Hh eq_refl) | ].
    exists 4. repeat split; try reflexivity; try lia; try discriminate.
    eexists; reflexivity.
  - destruct help; [destruct Hh as [_ Hh]; discriminate (Hh eq_refl) | ].
    exists 5. repeat split; try reflexivity; try lia; try discriminate.
    eexists; reflexivity.
  - destruct help; [destruct Hh as [_ Hh]; discriminate (Hh eq_refl) | ].
    exists 6. repeat split; try reflexivity; try lia; try discriminate.
    eexists; reflexivity.
  - exfalso. unfold parse_args in E. destruct help; [discriminate | ].
    repeat (match type of E with
            | (if ?c then _ else _) = _ => destruct c
            | (let _ := _ in _) = _ => cbv zeta in E
            end; try discriminate).
  - exfalso. unfold parse_args in E. destruct help; [discriminate | ].
    repeat (match type of E with
            | (if ?c then _ else _) = _ => destruct c
            | (let _ := _ in _) = _ => cbv zeta in E
            end; try discriminate).
Qed.

Lemma main_stops_on_failed_validation_witness :
  let raw := args_with 5 0 false false false [] [] false [] [] []
               false false in
  exists c,
    main ld_prec_x87 false (fun q => q) 7 raw (fun _ => qq 1 2)
    = Some {| ending_of_run := Exit c;
              printed := [];
              errors := error_text ld_prec_x87
                          (fst (parse_args ld_prec_x87 false raw)) |} /\
    0 <= c <= 6 /\
    (c = 0 <-> false = true) /\
    (false = true ->
     error_text ld_prec_x87 (fst (parse_args ld_prec_x87 false raw)) = []) /\
    (false = false ->
     c = returnID_code (fst (parse_args ld_prec_x87 false raw)) /\
     exists msg,
       error_text ld_prec_x87 (fst (parse_args ld_prec_x87 false raw))
       = [msg]).
Proof.
  intros raw.
  apply (main_stops_on_failed_validation ld_prec_x87 false (fun q => q) 7 raw
           (fun _ => qq 1 2)).
  vm_compute. discriminate.
Defined.

(** ** The loop: output, counters, accepted values *)

Lemma loop_body_output (args : program_args) (rng : nat -> ldouble)
  (s : loop_state) :
  let v := apply_rounding args (rng (drawn s)) in
  output (loop_body args rng s) =
  if rejected args (generated s) v || quiet args then output s
  else output s ++ [emit args (if numbers_force args then i s else i s + 1)
                      (if list_mode args then list_cnt s + 1 else list_cnt s)
                      v].
Proof.
  unfold loop_body.
  destruct (rejected _ _ _); [reflexivity | ].
  destruct (quiet args); [reflexivity | ].
  destruct (numbers_force args); reflexivity.
Qed.

(** X4: with [quiet] set the loop writes nothing, however many values it
    accepts. *)
Theorem quiet_prints_nothing (args : program_args) (rng : nat -> ldouble)
  (n : nat) :
  quiet args = true ->
  output (iterate n args rng loop_init) = [].
Proof.
  intros Hq.
  apply (iterate_invariant (fun s => output s = [])); [ | reflexivity].
  intros s Hs. rewrite loop_body_output, Hq, orb_true_r. exact Hs.
Qed.

Lemma quiet_prints_nothing_witness :
  let args := args_with 21 3 true false false [] [] false [] [] []
                false true in
  output (iterate 3 args (fun _ => qq 1 2) loop_init) = [].
Proof.
  intros args.
  apply (quiet_prints_nothing args (fun _ => qq 1 2) 3).
  reflexivity.
Defined.

(** X5: with [quiet] off the loop writes one piece of text per accepted
    value, at the moment it is accepted; without [--list] the text written
    so far is exactly the accepted values, in order, each rendered in fixed
    notation at the configured precision and followed by the delimiter. *)
Theorem output_follows_accepted (args : program_args) (rng : nat -> ldouble)
  (n : nat) :
  quiet args = false ->
  List.length (output (iterate n args rng loop_init))
  = List.length (generated (iterate n args rng loop_init)) /\
  (list_mode args = false ->
   output (iterate n args rng loop_init)
   = map (fun v => (to_fixed (precision args) v ++ delim args)%string)
       (generated (iterate n args rng loop_init))).
Proof.
  intros Hq. split.
  - apply (iterate_invariant
             (fun s => List.length (output s) = List.length (generated s)));
      [ | reflexivity].
    intros s Hs. rewrite loop_body_output, loop_body_generated, Hq.
    rewrite orb_false_r. destruct (rejected _ _ _); [exact Hs | ].
    rewrite !length_app, Hs. reflexivity.
  - intros Hl.
    apply (iterate_invariant
             (fun s => output s
                       = map (fun v => (to_fixed (precision args) v
                                        ++ delim args)%string)
                           (generated s)));
      [ | reflexivity].
    intros s Hs. rewrite loop_body_output, loop_body_generated, Hq.
    rewrite orb_false_r. destruct (rejected _ _ _); [exact Hs | ].
    rewrite map_app, Hs. unfold emit. rewrite Hl. reflexivity.
Qed.

Lemma output_follows_accepted_witness :
  let args := args_with 0 3 false false true [qz 1] [] false [] [] []
                false false in
  let rng := fun k : nat => if Nat.even k then qq 1 2 else qq 3 2 in
  List.length (output (iterate 3 args rng loop_init))
  = List.length (generated (iterate 3 args rng loop_init)) /\
  (list_mode args = false ->
   output (iterate 3 args rng loop_init)
   = map (fun v => (to_fixed (precision args) v ++ delim args)%string)
       (generated (iterate 3 args rng loop_init))).
Proof.
  intros args rng.
  apply (output_follows_accepted args rng 3).
  reflexivity.
Defined.

Lemma loop_body_list_cnt (args : program_args) (rng : nat -> ldouble)
  (s : loop_state) :
  list_cnt (loop_body args rng s)
  = if list_mode args then list_cnt s + 1 else list_cnt s.
Proof.
  unfold loop_body.
  destruct (rejected _ _ _); [reflexivity | ].
  destruct (quiet args); reflexivity.
Qed.

(** X6: the list counter counts executions of the loop body, rejected draws
    included: after [n] iterations in list mode it is [n], so the position
    written in front of an accepted value is the number of the draw, not the
    rank of the value among the accepted ones. *)
Theorem list_counter_counts_attempts (args : program_args)
  (rng : nat -> ldouble) (n : nat) :
  list_cnt (iterate n args rng loop_init)
  = (if list_mode args then Z.of_nat n else 0) /\
  drawn (iterate n args rng loop_init) = n /\
  (List.length (generated (iterate n args rng loop_init)) <= n)%nat.
Proof.
  split; [ | split].
  - induction n as [ | n IH].
    + destruct (list_mode args); reflexivity.
    + rewrite iterate_S, loop_body_list_cnt, IH.
      destruct (list_mode args); lia.
  - rewrite iterate_drawn. simpl. lia.
  - pose proof (iterate_length_le args rng n loop_init) as H.
    simpl in H. lia.
Qed.

Lemma rejected_without_norepeat (args : program_args) (g : list ldouble)
  (v : ldouble) :
  norepeat args = false -> rejected args g v = rejected args [] v.
Proof. intros H. rewrite !rejected_spec, H. reflexivity. Qed.

Lemma rejected_static (args : program_args) (g : list ldouble)
  (v : ldouble) :
  rejected args g v = false -> rejected args [] v = false.
Proof.
  rewrite !rejected_spec. intros H.
  repeat (apply orb_false_iff in H; destruct H as [H ?]).
  repeat (apply orb_false_iff; split); try assumption.
  apply andb_false_r.
Qed.

Lemma iterate_generated_filter (args : program_args) (rng : nat -> ldouble) :
  norepeat args = false ->
  forall n s,
    generated (iterate n args rng s)
    = generated s
      ++ List.filter (passes_static_tests args)
           (map (rounded_draw args rng) (seq (drawn s) n)).
Proof.
  intros Hn. induction n as [ | n IH]; intros s.
  - simpl. now rewrite app_nil_r.
  - change (iterate (S n) args rng s)
      with (iterate n args rng (loop_body args rng s)).
    rewrite IH, loop_body_drawn, loop_body_generated.
    cbn [seq map List.filter].
    unfold passes_static_tests at 2, rounded_draw at 2.
    rewrite (rejected_without_norepeat _ (generated s)) by exact Hn.
    destruct (rejected args [] _); cbn [negb].
    + reflexivity.
    + rewrite <- app_assoc. reflexivity.
Qed.

(** X7: without [--norepeat] the accepted sequence after [n] iterations is
    exactly the rounded draws number 0 .. n-1 that pass the exclude, include
    and pattern tests, in the order in which they were drawn. *)
Theorem accepted_are_filtered_draws (args : program_args)
  (rng : nat -> ldouble) (n : nat) :
  norepeat args = false ->
  generated (iterate n args rng loop_init)
  = List.filter (passes_static_tests args)
      (map (rounded_draw args rng) (seq 0 n)).
Proof.
  intros Hn. rewrite iterate_generated_filter by exact Hn. reflexivity.
Qed.

Lemma accepted_are_filtered_draws_witness :
  let args := args_with 0 4 false false true [qz 1] [] false [] [] []
                false false in
  let rng := fun k : nat => if Nat.even k then qq 1 2 else qq 3 2 in
  generated (iterate 4 args rng loop_init)
  = List.filter (passes_static_tests args)
      (map (rounded_draw args rng) (seq 0 4)).
Proof.
  intros args rng.
  apply (accepted_are_filtered_draws args rng 4).
  reflexivity.
Defined.

Lemma accepted_invariant (args : program_args) (rng : nat -> ldouble) :
  forall n v,
    In v (generated (iterate n args rng loop_init)) ->
    (exists k, (k < n)%nat /\ v = rounded_draw args rng k) /\
    rejected args [] v = false.
Proof.
  induction n as [ | n IH]; intros v Hv; [destruct Hv | ].
  rewrite iterate_S, loop_body_generated, iterate_drawn in Hv.
  replace (n + drawn loop_init)%nat with n in Hv by (simpl; lia).
  destruct (rejected _ _ _) eqn:R.
  - destruct (IH v Hv) as [(k & Hk & E) H]. split; [ | exact H].
    exists k. split; [lia | exact E].
  - apply in_app_or in Hv. destruct Hv as [Hv | [<- | []]].
    + destruct (IH v Hv) as [(k & Hk & E) H]. split; [ | exact H].
      exists k. split; [lia | exact E].
    + split; [exists n; split; [lia | reflexivity] | ].
      eapply rejected_static. exact R.
Qed.

(** X8: whatever the flags, every value of the accepted sequence is the
    rounded value of one of the draws made so far, is not equal to any
    excluded value, is equal to an included value when the included set is
    not empty, and its rendering matches at least one pattern of every
    pattern set that is not empty. *)
Theorem accepted_values_pass_the_tests (args : program_args)
  (rng : nat -> ldouble) (n : nat) (v : ldouble) :
  In v (generated (iterate n args rng loop_init)) ->
  (exists k, (k < n)%nat /\ v = rounded_draw args rng k) /\
  found v (excluded args) = false /\
  (included args <> [] -> found v (included args) = true) /\
  (prefix args <> [] ->
   exists s, In s (prefix args) /\
             boost.starts_with (to_fixed (precision args) v) s = true) /\
  (suffix args <> [] ->
   exists s, In s (suffix args) /\
             boost.ends_with (to_fixed (precision args) v) s = true) /\
  (contains args <> [] ->
   exists s, In s (contains args) /\
             boost.contains (to_fixed (precision args) v) s = true).
Proof.
  intros Hv. destruct (accepted_invariant args rng n v Hv) as [Hk R].
  split; [exact Hk | ].
  rewrite rejected_spec in R.
  repeat (apply orb_false_iff in R; destruct R as [R ?]).
  repeat match goal with
         | H : _ && _ = false |- _ => apply andb_false_iff in H
         end.
  repeat split.
  - destruct R as [R | R]; [ | exact R].
    apply negb_false_iff in R. destruct (excluded args); [reflexivity | ].
    discriminate.
  - intros Hne. apply is_empty_false in Hne.
    match goal with
    | H : negb (is_empty (included args)) = false \/ _ |- _ =>
        destruct H as [H | H]
    end.
    + rewrite Hne in *. discriminate.
    + now apply negb_false_iff.
  - intros Hne. apply is_empty_false in Hne.
    match goal with
    | H : negb (is_empty (prefix args)) = false \/ _ |- _ =>
        destruct H as [H | H]
    end.
    + rewrite Hne in *. discriminate.
    + now apply filter_some_match.
  - intros Hne. apply is_empty_false in Hne.
    match goal with
    | H : negb (is_empty (suffix args)) = false \/ _ |- _ =>
        destruct H as [H | H]
    end.
    + rewrite Hne in *. discriminate.
    + now apply filter_some_match.
  - intros Hne. apply is_empty_false in Hne.
    match goal with
    | H : negb (is_empty (contains args)) = false \/ _ |- _ =>
        destruct H as [H | H]
    end.
    + rewrite Hne in *. discriminate.
    + now apply filter_some_match.
Qed.

Lemma accepted_values_pass_the_tests_witness :
  let args := args_with 0 4 false false true [qz 1] [qz 2; qz 3] false
                ["2"%string] [] [] false false in
  let rng := fun k : nat => if Nat.even k then qq 1 2 else qq 3 2 in
  (exists k, (k < 2)%nat /\ qz 2 = rounded_draw args rng k) /\
  found (qz 2) (excluded args) = false /\
  (included args <> [] -> found (qz 2) (included args) = true) /\
  (prefix args <> [] ->
   exists s, In s (prefix args) /\
             boost.starts_with (to_fixed (precision args) (qz 2)) s = true) /\
  (suffix args <> [] ->
   exists s, In s (suffix args) /\
             boost.ends_with (to_fixed (precision args) (qz 2)) s = true) /\
  (contains args <> [] ->
   exists s, In s (contains args) /\
             boost.contains (to_fixed (precision args) (qz 2)) s = true).
Proof.
  intros args rng.
  apply (accepted_values_pass_the_tests args rng 2 (qz 2)).
  vm_compute. left. reflexivity.
Defined.

(** ** Over-constrained and well-constrained runs *)

Lemma eqb_true_unsigned (a b : ldouble) :
  LD.eqb a b = true -> unsigned_zero a = unsigned_zero b.
Proof.
  destruct a as [x | s | | ], b as [y | t | | ];
    cbn [LD.eqb unsigned_zero]; try discriminate; try reflexivity.
  - intros H. apply Qc_eq_bool_correct in H. now subst.
  - unfold Qc_is_zero. intros H. apply Qc_eq_bool_correct in H. now subst.
  - intros H. apply Bool.eqb_prop in H. now subst.
  - unfold Qc_is_zero. intros H. apply Qc_eq_bool_correct in H. now subst.
Qed.

Lemma unsigned_eqb (a b : ldouble) :
  LD.eqb a a = true -> LD.eqb b b = true ->
  unsigned_zero a = unsigned_zero b -> LD.eqb a b = true.
Proof.
  destruct a as [x | s | | ], b as [y | t | | ];
    cbn [LD.eqb unsigned_zero]; try discriminate; try reflexivity;
    intros _ _ H.
  - injection H as ->. apply Qc_eq_bool_refl.
  - injection H as ->. reflexivity.
  - injection H as ->. apply Bool.eqb_reflx.
  - injection H as <-. reflexivity.
Qed.

Lemma eqb_true_refl (a b : ldouble) :
  LD.eqb a b = true -> LD.eqb a a = true /\ LD.eqb b b = true.
Proof.
  destruct a as [x | s | | ], b as [y | t | | ];
    cbn [LD.eqb]; try discriminate; intros _; split;
    try reflexivity; try apply Qc_eq_bool_refl; apply Bool.eqb_reflx.
Qed.

Lemma found_In_unsigned (x : ldouble) (v : list ldouble) :
  found x v = true ->
  In (unsigned_zero x) (map unsigned_zero v) /\ LD.eqb x x = true.
Proof.
  intros H. apply found_In in H. destruct H as (y & Hy & E). split.
  - rewrite <- (eqb_true_unsigned _ _ E). now apply in_map.
  - now apply eqb_true_refl in E.
Qed.

Lemma pairwise_distinct_NoDup_unsigned (v : list ldouble) :
  pairwise_distinct v -> (forall x, In x v -> LD.eqb x x = true) ->
  NoDup (map unsigned_zero v).
Proof.
  intros Hd Hr. apply NoDup_nth_error. intros a b Ha Hab.
  rewrite length_map in Ha. rewrite !nth_error_map in Hab.
  destruct (nth_error v a) as [x | ] eqn:Ex;
    [ | apply nth_error_None in Ex; lia].
  destruct (nth_error v b) as [y | ] eqn:Ey; [ | discriminate].
  injection Hab as Hab.
  assert (Hx : LD.eqb x x = true) by (apply Hr; eapply nth_error_In; eauto).
  assert (Hy : LD.eqb y y = true) by (apply Hr; eapply nth_error_In; eauto).
  destruct (Nat.lt_trichotomy a b) as [L | [E | L]]; [ | exact E | ].
  - pose proof (Hd a b _ _ L Ex Ey) as F.
    rewrite (unsigned_eqb x y Hx Hy Hab) in F. discriminate.
  - pose proof (Hd b a _ _ L Ey Ex) as F.
    rewrite (unsigned_eqb y x Hy Hx (eq_sym Hab)) in F. discriminate.
Qed.

Lemma norepeat_included_bound (args : program_args) (rng : nat -> ldouble)
  (n : nat) :
  norepeat args = true -> included args <> [] ->
  (List.length (generated (iterate n args rng loop_init))
   <= List.length (included args))%nat.
Proof.
  intros Hn Hi.
  assert (Hin : forall v, In v (generated (iterate n args rng loop_init)) ->
                          In (unsigned_zero v)
                             (map unsigned_zero (included args))
                          /\ LD.eqb v v = true).
  { intros v Hv. destruct (accepted_invariant args rng n v Hv) as [_ R].
    rewrite rejected_spec in R.
    repeat (apply orb_false_iff in R; destruct R as [R ?]).
    apply found_In_unsigned.
    match goal with
    | H : negb (is_empty (included args)) && _ = false |- _ =>
        apply andb_false_iff in H; destruct H as [H | H]
    end.
    - apply is_empty_false in Hi. rewrite Hi in *. discriminate.
    - now apply negb_false_iff. }
  rewrite <- (length_map unsigned_zero (generated _)).
  rewrite <- (length_map unsigned_zero (included args)).
  apply NoDup_incl_length.
  - apply pairwise_distinct_NoDup_unsigned.
    + apply (iterate_invariant (fun s => pairwise_distinct (generated s))).
      * intros s. now apply loop_body_distinct.
      * intros a b x y _ Ha. destruct a; discriminate.
    + intros x Hx. now apply Hin.
  - intros v Hv. apply in_map_iff in Hv. destruct Hv as (w & <- & Hw).
    now apply Hin.
Qed.

(** X9: with [--norepeat] and a non-empty included set the accepted
    sequence never holds more values than the included set has members. *)
Theorem norepeat_included_caps_accepted (args : program_args)
  (rng : nat -> ldouble) (n : nat) :
  norepeat args = true -> included args <> [] ->
  (List.length (generated (iterate n args rng loop_init))
   <= List.length (included args))%nat.
Proof. apply norepeat_included_bound. Qed.

Lemma norepeat_included_caps_accepted_witness :
  let args := args_with 0 5 false false true [] [qz 1; qz 2] true [] [] []
                false false in
  let rng := fun k : nat => if Nat.even k then qq 1 2 else qq 3 2 in
  (List.length (generated (iterate 5 args rng loop_init))
   <= List.length (included args))%nat.
Proof.
  intros args rng.
  apply (norepeat_included_caps_accepted args rng 5).
  - reflexivity.
  - discriminate.
Defined.

(** X10: with [--numbers-force] (and [quiet] off), [--norepeat] and an
    included set of fewer than [number] values the loop never terminates,
    whatever is drawn: the accepted sequence cannot reach [number] values and
    nothing else advances the counter. *)
Theorem force_norepeat_small_included_never_ends (args : program_args)
  (rng : nat -> ldouble) (fuel : nat) :
  numbers_force args = true -> quiet args = false ->
  norepeat args = true -> included args <> [] ->
  Z.of_nat (List.length (included args)) < number args ->
  main_loop fuel args rng loop_init = None.
Proof.
  intros Hf Hq Hn Hi Hlt. apply main_loop_stuck. intros m.
  assert (Hm : i (iterate m args rng loop_init)
               = 1 + Z.of_nat (List.length
                                 (generated (iterate m args rng loop_init)))).
  { apply (iterate_invariant
             (fun s => i s = 1 + Z.of_nat (List.length (generated s))));
      [ | reflexivity].
    intros s Hs. now apply loop_body_force_loud. }
  pose proof (norepeat_included_bound args rng m Hn Hi).
  unfold loop_cond. rewrite Hm. apply Z.leb_le. lia.
Qed.

Lemma force_norepeat_small_included_never_ends_witness :
  let args := args_with 0 3 false true true [] [qz 1; qz 2] true [] [] []
                false false in
  let rng := fun k : nat => if Nat.even k then qq 1 2 else qq 3 2 in
  main_loop 50 args rng loop_init = None.
Proof.
  intros args rng.
  apply (force_norepeat_small_included_never_ends args rng 50).
  - reflexivity.
  - reflexivity.
  - reflexivity.
  - discriminate.
  - simpl. lia.
Defined.

(** X11: with [--numbers-force] set and [quiet] off, as soon as the draws
    have supplied [number] accepted values the loop stops, and it stops with
    exactly [number] accepted values. *)
Theorem numbers_force_stops_at_count (args : program_args)
  (rng : nat -> ldouble) (n fuel : nat) :
  numbers_force args = true ->
  quiet args = false ->
  1 <= number args ->
  number args
  <= Z.of_nat (List.length (generated (iterate n args rng loop_init))) ->
  (n <= fuel)%nat ->
  exists s, main_loop fuel args rng loop_init = Some s /\
            Z.of_nat (List.length (generated s)) = number args /\
            i s = number args + 1.
Proof.
  intros Hf Hq Hn Hacc Hfuel.
  destruct (numbers_force_exact args rng n Hf Hq Hn Hacc fuel Hfuel)
    as (s & Hs & Hlen).
  exists s. split; [exact Hs | split; [exact Hlen | ]].
  destruct (main_loop_invariant
              (fun s => i s = 1 + Z.of_nat (List.length (generated s)))
              args rng) with (fuel := fuel) (s := loop_init) (s' := s)
    as [HP _]; try assumption.
  - intros t Ht _. now apply loop_body_force_loud.
  - reflexivity.
  - lia.
Qed.

Lemma numbers_force_stops_at_count_witness :
  let args := args_with 0 2 false true true [qz 1] [] false [] [] []
                false false in
  let rng := fun k : nat => if Nat.even k then qq 1 2 else qq 3 2 in
  exists s, main_loop 9 args rng loop_init = Some s /\
            Z.of_nat (List.length (generated s)) = number args /\
            i s = number args + 1.
Proof.
  intros args rng.
  apply (numbers_force_stops_at_count args rng 4 9).
  - reflexivity.
  - reflexivity.
  - simpl. lia.
  - vm_compute. discriminate.
  - lia.
Defined.

Lemma minmax_scan_in_range (v : list ldouble) :
  forall k mn mx, (fst mn < k)%nat -> (fst mx < k)%nat ->
    (fst (minmax_scan v k mn mx) < k + List.length v)%nat /\
    (snd (minmax_scan v k mn mx) < k + List.length v)%nat.
Proof.
  induction v as [ | x r IH]; intros k mn mx Hmn Hmx; cbn [minmax_scan].
  - cbn [fst snd List.length]. lia.
  - cbn [List.length].
    destruct (IH (S k) (if LD.ltb x (snd mn) then (k, x) else mn)
                (if LD.ltb x (snd mx) then mx else (k, x))) as [H1 H2].
    + destruct (LD.ltb x (snd mn)); cbn [fst]; lia.
    + destruct (LD.ltb x (snd mx)); cbn [fst]; lia.
    + lia.
Qed.

Lemma max_scan_in_range (v : list ldouble) :
  forall k best, (fst best < k)%nat ->
    (max_scan v k best < k + List.length v)%nat.
Proof.
  induction v as [ | x r IH]; intros k best Hb; cbn [max_scan].
  - cbn [List.length]. lia.
  - cbn [List.length].
    assert (H : (max_scan r (S k) (if LD.ltb (snd best) x then (k, x)
                                   else best)
                 < S k + List.length r)%nat).
    { apply IH. destruct (LD.ltb (snd best) x); cbn [fst]; lia. }
    lia.
Qed.

Lemma deref_in_range (v : list ldouble) (k : nat) :
  (k < List.length v)%nat -> exists x, deref v k = Printed x.
Proof.
  intros H. unfold deref.
  destruct (nth_error v k) as [x | ] eqn:E; [now exists x | ].
  apply nth_error_None in E. lia.
Qed.

Lemma min_max_of_defined (x : ldouble) (r : list ldouble) :
  (exists a, min_of (x :: r) = Printed a) /\
  (exists b, max_of (x :: r) = Printed b).
Proof.
  unfold min_of, max_of, minmax_element.
  destruct (minmax_scan_in_range r 1 (O, x) (O, x)) as [H1 H2];
    cbn [fst]; try lia.
  split; apply deref_in_range; cbn [List.length]; lia.
Qed.

Lemma insert_sorted_length (x : ldouble) (v : list ldouble) :
  List.length (insert_sorted x v) = S (List.length v).
Proof.
  induction v as [ | y r IH]; cbn [insert_sorted]; [reflexivity | ].
  destruct (LD.ltb x y); cbn [List.length]; [reflexivity | now rewrite IH].
Qed.

Lemma sort_length (v : list ldouble) : List.length (sort v) = List.length v.
Proof.
  induction v as [ | x r IH]; [reflexivity | ].
  cbn [sort fold_right]. fold (sort r).
  rewrite insert_sorted_length, IH. reflexivity.
Qed.

Lemma median_after_defined (v : list ldouble) :
  v <> [] -> exists m, median_after v = Printed m.
Proof.
  intros Hv. unfold median_after.
  assert (Hlen : (0 < List.length v)%nat)
    by (destruct v; [congruence | cbn [List.length]; lia]).
  assert (Hmid : (List.length v / 2 < List.length v)%nat)
    by (apply Nat.div_lt; lia).
  destruct (deref_in_range v _ Hmid) as [x ->].
  destruct (Nat.eqb (List.length v mod 2) 0) eqn:Heven; [ | now exists x].
  apply Nat.eqb_eq in Heven.
  assert (Hhalf : (0 < List.length v / 2)%nat).
  { pose proof (Nat.div_mod_eq (List.length v) 2). lia. }
  assert (Hlow : List.length (firstn (List.length v / 2) v)
                 = (List.length v / 2)%nat)
    by (rewrite length_firstn; lia).
  destruct (firstn (List.length v / 2) v) as [ | y lower] eqn:El;
    [cbn [List.length] in Hlow; lia | ].
  assert (Hm : (max_element (y :: lower) < List.length (y :: lower))%nat).
  { unfold max_element.
    pose proof (max_scan_in_range lower 1 (O, y)) as H.
    cbn [fst List.length] in *. lia. }
  destruct (deref_in_range _ _ Hm) as [m ->]. eauto.
Qed.

Lemma write_statistics_app (l1 l2 : list (string * outcome)) :
  snd (write_statistics (l1 ++ l2))
  = snd (write_statistics l1) && snd (write_statistics l2).
Proof.
  induction l1 as [ | [label [v | ]] r IH]; cbn [app write_statistics snd];
    [reflexivity | exact IH | reflexivity].
Qed.

(** Every statistics block is defined on a non-empty sequence; on an empty
    one the minimum, maximum and median blocks are not. *)
Lemma statistics_defined (root : Qc -> Qc) (args : program_args)
  (g : list ldouble) :
  snd (write_statistics (statistics root args g))
  = negb (is_empty g
          && (stat_all args || stat_min args || stat_max args
              || stat_median args)).
Proof.
  unfold statistics. rewrite !write_statistics_app.
  destruct g as [ | x r].
  - cbn [is_empty andb].
    destruct (stat_all args), (stat_min args), (stat_max args),
      (stat_median args), (stat_avg args), (stat_var args),
      (stat_std args), (stat_coef args); reflexivity.
  - cbn [is_empty andb negb].
    destruct (min_max_of_defined x r) as [[a ->] [b ->]].
    assert (Hm : exists m,
               median_after (nth_element (x :: r)
                               (List.length (x :: r) / 2)) = Printed m).
    { apply median_after_defined. unfold nth_element. intros E.
      apply (f_equal (@List.length ldouble)) in E.
      rewrite sort_length in E. discriminate. }
    destruct Hm as [m Hm].
    destruct (stat_all args || stat_min args),
      (stat_all args || stat_max args),
      (stat_all args || stat_median args),
      (stat_all args || stat_avg args),
      (stat_all args || stat_var args),
      (stat_all args || stat_std args),
      (stat_all args || stat_coef args);
      try rewrite Hm; reflexivity.
Qed.

(** X12: a configuration that passes validation and does not set
    [--numbers-force] always leaves the loop after [number] iterations,
    having written at most [number] values and nothing to the standard
    error.  The run then ends with exit code 0, unless the accepted sequence
    is empty and the minimum, the maximum or the median is requested: then a
    past-the-end iterator is dereferenced and the behaviour is undefined. *)
Theorem main_completes_without_force (ld_prec : Z) (root : Qc -> Qc)
  (raw args : program_args) (rng : nat -> ldouble) (fuel : nat) :
  parse_args ld_prec false raw = (success, args) ->
  numbers_force raw = false ->
  (Z.to_nat (number raw) <= fuel)%nat ->
  let s := iterate (Z.to_nat (number raw)) args rng loop_init in
  exists r,
    main ld_prec false root fuel raw rng = Some r /\
    ending_of_run r
    = (if is_empty (generated s)
          && (stat_all args || stat_min args || stat_max args
              || stat_median args)
       then Undefined_behaviour else Exit 0) /\
    (exists rest, printed r = map Text (output s) ++ rest) /\
    errors r = [] /\
    (List.length (output s) <= Z.to_nat (number raw))%nat.
Proof.
  intros Hp Hnf Hfuel s.
  destruct (parse_args_success _ _ _ Hp) as (_ & Hn & _ & _ & _ & Ea).
  assert (Hnum : number args = number raw)
    by (rewrite Ea; destruct (rounding_active raw); reflexivity).
  assert (Hnf' : numbers_force args = false)
    by (rewrite Ea; destruct (rounding_active raw); exact Hnf).
  assert (Hi : forall m, i (iterate m args rng loop_init) = 1 + Z.of_nat m).
  { intros m. rewrite iterate_i_attempt by exact Hnf'. reflexivity. }
  assert (Hloop : main_loop fuel args rng loop_init = Some s).
  { subst s. apply main_loop_iterate; [ | | exact Hfuel].
    - intros m Hm. unfold loop_cond. rewrite Hi. apply Z.leb_le. lia.
    - unfold loop_cond. rewrite Hi. apply Z.leb_gt. lia. }
  assert (Hout : (List.length (output s) <= Z.to_nat (number raw))%nat).
  { subst s. destruct (quiet args) eqn:Hq.
    + assert (E : output (iterate (Z.to_nat (number raw)) args rng loop_init)
                  = []).
      { apply (iterate_invariant (fun t => output t = [])); [ | reflexivity].
        intros t Ht. rewrite loop_body_output, Hq, orb_true_r. exact Ht. }
      rewrite E. simpl. lia.
    + assert (E : List.length
                    (output (iterate (Z.to_nat (number raw)) args rng
                               loop_init))
                  = List.length
                      (generated (iterate (Z.to_nat (number raw)) args rng
                                    loop_init))).
      { apply (iterate_invariant
                 (fun t => List.length (output t)
                           = List.length (generated t)));
          [ | reflexivity].
        intros t Ht. rewrite loop_body_output, loop_body_generated, Hq.
        rewrite orb_false_r. destruct (rejected _ _ _); [exact Ht | ].
        rewrite !length_app, Ht. reflexivity. }
      rewrite E.
      pose proof (iterate_length_le args rng (Z.to_nat (number raw))
                    loop_init) as H.
      simpl in H. lia. }
  unfold main. rewrite Hp, Hloop. cbv zeta.
  rewrite statistics_defined.
  destruct (is_empty (generated s)
            && (stat_all args || stat_min args || stat_max args
                || stat_median args)); cbn [negb].
  - eexists. split; [reflexivity | ]. cbn [ending_of_run printed errors].
    split; [reflexivity | ]. split; [ | split; [reflexivity | exact Hout]].
    rewrite <- app_assoc. eexists. reflexivity.
  - eexists. split; [reflexivity | ]. cbn [ending_of_run printed errors].
    split; [reflexivity | ]. split; [ | split; [reflexivity | exact Hout]].
    rewrite <- app_assoc. eexists. reflexivity.
Qed.

Lemma main_completes_without_force_witness :
  let raw := args_with 5 3 false false true [qz 1] [] false [] [] []
               true true in
  let args := set_precision 0 raw in
  let rng := fun k : nat => if Nat.even k then qq 1 2 else qq 3 2 in
  let s := iterate (Z.to_nat (number raw)) args rng loop_init in
  exists r,
    main ld_prec_x87 false (fun q => q) 3 raw rng = Some r /\
    ending_of_run r
    = (if is_empty (generated s)
          && (stat_all args || stat_min args || stat_max args
              || stat_median args)
       then Undefined_behaviour else Exit 0) /\
    (exists rest, printed r = map Text (output s) ++ rest) /\
    errors r = [] /\
    (List.length (output s) <= Z.to_nat (number raw))%nat.
Proof.
  intros raw args rng.
  apply (main_completes_without_force ld_prec_x87 (fun q => q) raw args rng 3).
  - reflexivity.
  - reflexivity.
  - simpl. lia.
Defined.

(** ** The rounding policy *)

Section Rounding.

Local Open Scope Q_scope.

Lemma floor_unique (x : Q) (n : Z) :
  inject_Z n <= x -> x < inject_Z (n + 1) -> Qfloor x = n.
Proof.
  intros H1 H2.
  pose proof (Qfloor_le x) as F1. pose proof (Qlt_floor x) as F2.
  assert (A : (n < Qfloor x + 1)%Z)
    by (rewrite Zlt_Qlt; eapply Qle_lt_trans; eauto).
  assert (B : (Qfloor x < n + 1)%Z)
    by (rewrite Zlt_Qlt; eapply Qle_lt_trans; eauto).
  lia.
Qed.

Lemma ceiling_unique (x : Q) (n : Z) :
  inject_Z (n - 1) < x -> x <= inject_Z n -> Qceiling x = n.
Proof.
  intros H1 H2.
  pose proof (Qle_ceiling x) as F1. pose proof (Qceiling_lt x) as F2.
  assert (A : (n - 1 < Qceiling x)%Z)
    by (rewrite Zlt_Qlt; eapply Qlt_le_trans; eauto).
  assert (B : (Qceiling x - 1 < n)%Z)
    by (rewrite Zlt_Qlt; eapply Qlt_le_trans; eauto).
  lia.
Qed.

Lemma this_plus (a b : Qc) : this (a + b)%Qc == this a + this b.
Proof. unfold Qcplus, Q2Qc. cbn [this]. apply Qred_correct. Qed.

Lemma this_minus (a b : Qc) : this (a - b)%Qc == this a - this b.
Proof.
  unfold Qcminus. rewrite this_plus. unfold Qcopp, Q2Qc. cbn [this].
  rewrite Qred_correct. reflexivity.
Qed.

Lemma this_of_Z (z : Z) : this (Qc_of_Z z) == inject_Z z.
Proof. unfold Qc_of_Z, Q2Qc. cbn [this]. apply Qred_correct. Qed.

Lemma this_half : this LD.half == 1 # 2.
Proof. reflexivity. Qed.

Lemma inject_Z_succ (z : Z) : inject_Z (z + 1) == inject_Z z + 1.
Proof. rewrite inject_Z_plus. reflexivity. Qed.

Lemma inject_Z_pred (z : Z) : inject_Z (z - 1) == inject_Z z - 1.
Proof.
  replace (z - 1)%Z with (z + -1)%Z by lia. rewrite inject_Z_plus.
  reflexivity.
Qed.

Lemma Qc_is_neg_true (q : Qc) : Qc_is_neg q = true <-> this q < 0.
Proof. unfold Qc_is_neg. rewrite Qc_ltb_lt. reflexivity. Qed.

Lemma Qc_is_neg_false (q : Qc) : Qc_is_neg q = false <-> 0 <= this q.
Proof. unfold Qc_is_neg. rewrite Qc_ltb_ge. reflexivity. Qed.

Lemma floor_of_Z (z : Z) : Qfloor (Qc_of_Z z) = z.
Proof. rewrite this_of_Z. apply Qfloor_Z. Qed.

Lemma ceiling_of_Z (z : Z) : Qceiling (Qc_of_Z z) = z.
Proof. rewrite this_of_Z. apply Qceiling_Z. Qed.

Lemma floor_of_Z_half (z : Z) : Qfloor (Qc_of_Z z + LD.half)%Qc = z.
Proof.
  apply floor_unique; rewrite this_plus, this_of_Z, this_half.
  - lra.
  - rewrite inject_Z_succ. lra.
Qed.

Lemma ceiling_of_Z_half (z : Z) : Qceiling (Qc_of_Z z - LD.half)%Qc = z.
Proof.
  apply ceiling_unique; rewrite this_minus, this_of_Z, this_half.
  - rewrite inject_Z_pred. lra.
  - lra.
Qed.

End Rounding.

Lemma Qc_of_Z_zero_iff (z : Z) : Qc_is_zero (Qc_of_Z z) = true <-> z = 0.
Proof.
  rewrite Qc_is_zero_true. split.
  - intros H. apply (f_equal this) in H.
    assert (E : (this (Qc_of_Z z) == inject_Z 0)%Q)
      by (rewrite H; vm_compute; reflexivity).
    rewrite this_of_Z in E. unfold Qeq in E. cbn in E. lia.
  - intros ->. reflexivity.
Qed.

(** A rounding function that fixes the integers is idempotent. *)
Lemma lift_idempotent (f : Qc -> Z) (a : ldouble) :
  (forall z, f (Qc_of_Z z) = z) -> LD.lift f (LD.lift f a) = LD.lift f a.
Proof.
  intros Hf. destruct a as [q | s | | ]; try reflexivity.
  cbn [LD.lift]. unfold LD.signed.
  destruct (Qc_is_neg q && Qc_is_zero (Qc_of_Z (f q))) eqn:E;
    [reflexivity | ].
  cbn [LD.lift]. rewrite Hf. apply signed_Fin, Qc_is_neg_nonzero.
Qed.

(** What a rounding function gives on a finite value: the integer [f q],
    as a negative zero exactly when that integer is 0 and [q] is negative. *)
Lemma lift_spec (f : Qc -> Z) (q : Qc) :
  unsigned_zero (LD.lift f (Fin q)) = LD.of_Z (f q) /\
  (LD.lift f (Fin q) = NegZero <-> f q = 0 /\ (q < Qc_of_Z 0)%Qc).
Proof.
  cbn [LD.lift]. unfold LD.signed, Qc_is_neg.
  destruct (Qc_ltb q (Qc_of_Z 0)) eqn:En; cbn [andb].
  - apply Qc_ltb_lt in En.
    destruct (Qc_is_zero (Qc_of_Z (f q))) eqn:Ez.
    + apply Qc_of_Z_zero_iff in Ez. rewrite Ez. split; [reflexivity | ].
      split; auto.
    + split; [reflexivity | ]. split; [discriminate | ].
      intros [Hz _]. apply Qc_of_Z_zero_iff in Hz. congruence.
  - split; [reflexivity | ]. split; [discriminate | ].
    intros [_ Hn]. apply Qc_ltb_lt in Hn. congruence.
Qed.

(** X13: every rounding mode is idempotent: rounding an already rounded
    value gives the same value, for finite values, the infinities and
    not-a-number alike. *)
Theorem rounding_idempotent (args : program_args) (x : ldouble) :
  apply_rounding args (apply_rounding args x) = apply_rounding args x.
Proof.
  unfold apply_rounding.
  destruct (ceil args); [ | destruct (floor args);
    [ | destruct (round args); [ | destruct (trunc args); [ | reflexivity]]]];
    apply lift_idempotent; intros z.
  - apply ceiling_of_Z.
  - apply floor_of_Z.
  - destruct (Qc_is_neg (Qc_of_Z _));
      [apply ceiling_of_Z_half | apply floor_of_Z_half].
  - destruct (Qc_is_neg (Qc_of_Z _)); [apply ceiling_of_Z | apply floor_of_Z].
Qed.

(** X14: on a finite value each rounding mode returns an integer next to
    it: floor the greatest integer not above it, ceil the least integer not
    below it, round an integer at distance at most one half, trunc the
    integer part towards zero.  Where a negative value goes to 0 (ceil and
    trunc on values above -1, round on values above -1/2) the result is the
    negative zero, and nowhere else. *)
Theorem rounding_stays_within_one (q : Qc) :
  (exists z, LD.floor (Fin q) = LD.of_Z z /\
             (Qc_of_Z z <= q)%Qc /\ (q < Qc_of_Z (z + 1))%Qc) /\
  (exists z, unsigned_zero (LD.ceil (Fin q)) = LD.of_Z z /\
             (LD.ceil (Fin q) = NegZero <-> z = 0 /\ (q < Qc_of_Z 0)%Qc) /\
             (Qc_of_Z (z - 1) < q)%Qc /\ (q <= Qc_of_Z z)%Qc) /\
  (exists z, unsigned_zero (LD.round (Fin q)) = LD.of_Z z /\
             (LD.round (Fin q) = NegZero <-> z = 0 /\ (q < Qc_of_Z 0)%Qc) /\
             (Qc_of_Z z - LD.half <= q)%Qc /\
             (q <= Qc_of_Z z + LD.half)%Qc) /\
  (exists z, unsigned_zero (LD.trunc (Fin q)) = LD.of_Z z /\
             (LD.trunc (Fin q) = NegZero <-> z = 0 /\ (q < Qc_of_Z 0)%Qc) /\
             ((Qc_of_Z 0 <= q)%Qc ->
              0 <= z /\ (Qc_of_Z z <= q)%Qc /\ (q < Qc_of_Z (z + 1))%Qc) /\
             ((q < Qc_of_Z 0)%Qc ->
              z <= 0 /\ (Qc_of_Z (z - 1) < q)%Qc /\ (q <= Qc_of_Z z)%Qc)).
Proof.
  pose proof (Qfloor_le q) as F1. pose proof (Qlt_floor q) as F2.
  pose proof (Qle_ceiling q) as C1. pose proof (Qceiling_lt q) as C2.
  split; [ | split; [ | split]].
  - exists (Qfloor q). split.
    + unfold LD.floor. cbn [LD.lift]. apply signed_Fin. intros Hn E.
      apply Qc_is_neg_true in Hn. apply Qc_is_zero_true in E.
      apply Qc_of_Z_zero_iff in E. rewrite E in F1.
      change (inject_Z 0) with 0%Q in F1. lra.
    + unfold Qcle, Qclt. rewrite !this_of_Z. split; assumption.
  - exists (Qceiling q).
    destruct (lift_spec (fun x => Qceiling x) q) as [U N].
    split; [exact U | split; [exact N | ]].
    unfold Qcle, Qclt. rewrite !this_of_Z. split; assumption.
  - pose proof (lift_spec
                  (fun x => if Qc_is_neg x then Qceiling (x - LD.half)%Qc
                            else Qfloor (x + LD.half)%Qc) q) as [U N].
    cbv beta in U, N. fold LD.round in U, N. destruct (Qc_is_neg q).
    + exists (Qceiling (q - LD.half)%Qc).
      split; [exact U | split; [exact N | ]].
      set (z := Qceiling (q - LD.half)%Qc).
      pose proof (Qle_ceiling (q - LD.half)%Qc) as R1.
      pose proof (Qceiling_lt (q - LD.half)%Qc) as R2.
      pose proof (inject_Z_pred z) as P.
      pose proof (this_minus q LD.half) as M.
      pose proof (this_minus (Qc_of_Z z) LD.half) as M1.
      pose proof (this_plus (Qc_of_Z z) LD.half) as M2.
      pose proof (this_of_Z z) as M3.
      pose proof this_half as Hh.
      fold z in R1, R2. unfold Qcle.
      split; lra.
    + exists (Qfloor (q + LD.half)%Qc).
      split; [exact U | split; [exact N | ]].
      set (z := Qfloor (q + LD.half)%Qc).
      pose proof (Qfloor_le (q + LD.half)%Qc) as R1.
      pose proof (Qlt_floor (q + LD.half)%Qc) as R2.
      pose proof (inject_Z_succ z) as P.
      pose proof (this_plus q LD.half) as M.
      pose proof (this_minus (Qc_of_Z z) LD.half) as M1.
      pose proof (this_plus (Qc_of_Z z) LD.half) as M2.
      pose proof (this_of_Z z) as M3.
      pose proof this_half as Hh.
      fold z in R1, R2. unfold Qcle.
      split; lra.
  - pose proof (lift_spec
                  (fun x => if Qc_is_neg x then Qceiling x else Qfloor x) q)
      as [U N].
    cbv beta in U, N. fold LD.trunc in U, N.
    destruct (Qc_is_neg q) eqn:E.
    + apply Qc_is_neg_true in E. exists (Qceiling q).
      split; [exact U | split; [exact N | ]].
      unfold Qcle, Qclt. rewrite !this_of_Z. split.
      * intros H. change (inject_Z 0) with 0%Q in H. lra.
      * intros _. repeat split; try assumption.
        change 0%Z with (Qceiling 0). apply Qceiling_resp_le. lra.
    + apply Qc_is_neg_false in E. exists (Qfloor q).
      split; [exact U | split; [exact N | ]].
      unfold Qcle, Qclt. rewrite !this_of_Z. split.
      * intros _. repeat split; try assumption.
        change 0%Z with (Qfloor 0). apply Qfloor_resp_le. exact E.
      * intros H. change (inject_Z 0) with 0%Q in H. lra.
Qed.

(** ** Minimum, maximum and the moments *)

Section Extremes.

Local Open Scope Qc_scope.

(** The scan of [minmax_element] ends on a least and on a greatest
    element. *)
Lemma minmax_scan_bounds (r : list Qc) :
  forall pre jm bm jM bM,
    nth_error pre jm = Some bm -> nth_error pre jM = Some bM ->
    (forall a, In a pre -> bm <= a /\ a <= bM) ->
    exists m M,
      nth_error (pre ++ r)
        (fst (minmax_scan (map Fin r) (List.length pre)
                (jm, Fin bm) (jM, Fin bM))) = Some m /\
      nth_error (pre ++ r)
        (snd (minmax_scan (map Fin r) (List.length pre)
                (jm, Fin bm) (jM, Fin bM))) = Some M /\
      forall a, In a (pre ++ r) -> m <= a /\ a <= M.
Proof.
  induction r as [ | x r IH]; intros pre jm bm jM bM Hm HM Hb.
  - exists bm, bM. simpl. rewrite app_nil_r. auto.
  - assert (Lm : (jm < List.length pre)%nat)
      by (apply nth_error_Some; congruence).
    assert (LM : (jM < List.length pre)%nat)
      by (apply nth_error_Some; congruence).
    assert (Hbm : bm <= bM)
      by (apply Qcle_trans with bm;
          [apply Qcle_refl | apply (Hb bm); eapply nth_error_In; eauto]).
    replace (pre ++ x :: r) with ((pre ++ [x]) ++ r)
      by (rewrite <- app_assoc; reflexivity).
    cbn [map minmax_scan snd LD.ltb].
    replace (S (List.length pre)) with (List.length (pre ++ [x]))
      by (rewrite length_app; simpl; lia).
    assert (Hself : nth_error (pre ++ [x]) (List.length pre) = Some x)
      by (rewrite nth_error_app2, Nat.sub_diag by lia; reflexivity).
    destruct (Qc_ltb x bm) eqn:E1; destruct (Qc_ltb x bM) eqn:E2;
      try (apply Qc_ltb_lt in E1); try (apply Qc_ltb_ge in E1);
      try (apply Qc_ltb_lt in E2); try (apply Qc_ltb_ge in E2);
      apply IH;
      try exact Hself;
      try (rewrite nth_error_app1 by lia; assumption);
      intros a Ha; apply in_app_or in Ha;
      destruct Ha as [Ha | [<- | []]];
      try (destruct (Hb a Ha) as [H1 H2]);
      split;
      eauto using Qcle_refl, Qcle_trans, Qclt_le_weak.
Qed.

Lemma min_max_bounds (q : Qc) (qs : list Qc) :
  exists m M,
    min_of (map Fin (q :: qs)) = Printed (Fin m) /\
    max_of (map Fin (q :: qs)) = Printed (Fin M) /\
    In m (q :: qs) /\ In M (q :: qs) /\
    forall a, In a (q :: qs) -> m <= a /\ a <= M.
Proof.
  destruct (minmax_scan_bounds qs [q] O q O q) as (m & M & Hm & HM & Hb).
  - reflexivity.
  - reflexivity.
  - intros a [<- | []]. split; apply Qcle_refl.
  - exists m, M. cbn [List.length app] in Hm, HM, Hb.
    unfold min_of, max_of, deref, minmax_element. cbn [map].
    change (Fin q :: map Fin qs) with (map Fin (q :: qs)).
    rewrite !nth_error_map, Hm, HM.
    repeat split; try reflexivity;
      try (eapply nth_error_In; eassumption); now apply Hb.
Qed.

Lemma Qc_of_Z_plus (a b : Z) : Qc_of_Z (a + b) = Qc_of_Z a + Qc_of_Z b.
Proof.
  apply Qc_is_canon. rewrite this_plus, !this_of_Z, inject_Z_plus.
  reflexivity.
Qed.

Lemma Qc_len_cons (x : Qc) (l : list Qc) :
  Qc_len (x :: l) = Qc_len l + 1.
Proof.
  unfold Qc_len. cbn [List.length]. rewrite Nat2Z.inj_succ.
  unfold Z.succ. rewrite Qc_of_Z_plus. reflexivity.
Qed.

Lemma Qc_len_nonneg (l : list Qc) : 0 <= Qc_len l.
Proof.
  unfold Qc_len, Qcle. rewrite this_of_Z.
  change (this 0) with (inject_Z 0). rewrite <- Zle_Qle. lia.
Qed.

Lemma Qc_len_pos (x : Qc) (l : list Qc) : 0 < Qc_len (x :: l).
Proof.
  rewrite Qc_len_cons. pose proof (Qc_len_nonneg l) as H.
  unfold Qclt, Qcle in *. rewrite this_plus.
  change (this 1) with 1%Q. change (this 0) with 0%Q in *. lra.
Qed.

Lemma Qc_sum_lower (m : Qc) (l : list Qc) :
  (forall a, In a l -> m <= a) -> Qc_len l * m <= Qc_sum l.
Proof.
  induction l as [ | x l IH]; intros H.
  - unfold Qc_len. simpl. rewrite Qc_of_Z_0, Qcmult_0_l. apply Qcle_refl.
  - rewrite Qc_len_cons. cbn [Qc_sum].
    replace ((Qc_len l + 1) * m) with (m + Qc_len l * m) by ring.
    apply Qcplus_le_compat.
    + apply H. now left.
    + apply IH. intros a Ha. apply H. now right.
Qed.

Lemma Qc_sum_upper (M : Qc) (l : list Qc) :
  (forall a, In a l -> a <= M) -> Qc_sum l <= Qc_len l * M.
Proof.
  induction l as [ | x l IH]; intros H.
  - unfold Qc_len. simpl. rewrite Qc_of_Z_0, Qcmult_0_l. apply Qcle_refl.
  - rewrite Qc_len_cons. cbn [Qc_sum].
    replace ((Qc_len l + 1) * M) with (M + Qc_len l * M) by ring.
    apply Qcplus_le_compat.
    + apply H. now left.
    + apply IH. intros a Ha. apply H. now right.
Qed.

Lemma div_mult_len (s : Qc) (x : Qc) (l : list Qc) :
  s / Qc_len (x :: l) * Qc_len (x :: l) = s.
Proof.
  rewrite Qcmult_comm. apply Qcmult_div_r.
  intros E. pose proof (Qc_len_pos x l) as H. rewrite E in H.
  exact (Qclt_not_eq _ _ H eq_refl).
Qed.

Lemma Qc_mean_bounds (m M x : Qc) (l : list Qc) :
  (forall a, In a (x :: l) -> m <= a /\ a <= M) ->
  m <= Qc_mean (x :: l) /\ Qc_mean (x :: l) <= M.
Proof.
  intros H. unfold Qc_mean. split.
  - apply Qcmult_lt_0_le_reg_r with (Qc_len (x :: l));
      [apply Qc_len_pos | ].
    rewrite div_mult_len, Qcmult_comm. apply Qc_sum_lower.
    intros a Ha. now apply H.
  - apply Qcmult_lt_0_le_reg_r with (Qc_len (x :: l));
      [apply Qc_len_pos | ].
    rewrite div_mult_len, (Qcmult_comm M). apply Qc_sum_upper.
    intros a Ha. now apply H.
Qed.

Lemma this_mult (a b : Qc) : (this (a * b) == this a * this b)%Q.
Proof. unfold Qcmult, Q2Qc. cbn [this]. apply Qred_correct. Qed.

Lemma Qc_square_nonneg (a : Qc) : 0 <= a * a.
Proof.
  unfold Qcle. rewrite this_mult. change (this 0) with 0%Q. nra.
Qed.

Lemma Qc_pop_variance_nonneg (x : Qc) (l : list Qc) :
  0 <= Qc_pop_variance (x :: l).
Proof.
  unfold Qc_pop_variance.
  apply Qcmult_lt_0_le_reg_r with (Qc_len (x :: l)); [apply Qc_len_pos | ].
  rewrite div_mult_len, Qcmult_0_l.
  set (sq := map _ _).
  assert (H : forall a, In a sq -> 0 <= a).
  { subst sq. intros a Ha. apply in_map_iff in Ha.
    destruct Ha as (y & <- & _). apply Qc_square_nonneg. }
  pose proof (Qc_sum_lower 0 sq H) as S. rewrite Qcmult_0_r in S. exact S.
Qed.

End Extremes.

(** X15: on a non-empty sequence of finite values the minimum and maximum
    blocks print elements of the sequence, the minimum not above and the
    maximum not below any element. *)
Theorem min_max_are_extremes (q : Qc) (qs : list Qc) :
  exists m M,
    min_of (map Fin (q :: qs)) = Printed (Fin m) /\
    max_of (map Fin (q :: qs)) = Printed (Fin M) /\
    In m (q :: qs) /\ In M (q :: qs) /\
    forall a, In a (q :: qs) -> (m <= a)%Qc /\ (a <= M)%Qc.
Proof. apply min_max_bounds. Qed.

(** ** The conversions to [double] in the mean *)

Lemma this_Qc_of_Z (z : Z) : this (Qc_of_Z z) = inject_Z z.
Proof.
  unfold Qc_of_Z, Q2Qc. cbn [this]. apply Qred_identity.
  cbn [inject_Z Qnum Qden]. apply Z.gcd_1_r.
Qed.

Lemma div_half_even_bounds (n d : Z) :
  0 < d -> n / d <= div_half_even n d <= n / d + 1.
Proof.
  intros Hd. unfold div_half_even.
  destruct (2 * (n mod d) ?= d); [destruct (Z.even (n / d)) | | ]; lia.
Qed.

Lemma Qc_pow2_pos (e : Z) : (0 < Qc_pow2 e)%Qc.
Proof.
  unfold Qc_pow2. destruct (Z.leb_spec 0 e).
  - unfold Qclt. rewrite this_Qc_of_Z. change (this 0%Qc) with (inject_Z 0).
    rewrite <- Zlt_Qlt. apply Z.pow_pos_nonneg; lia.
  - unfold Qclt, Q2Qc. cbn [this]. rewrite Qred_correct.
    change (this 0%Qc) with 0%Q. reflexivity.
Qed.

(** A size below [2^64] converts to a positive finite [double]. *)
Lemma to_double_size (n : nat) :
  Z.of_nat (S n) < 2 ^ 64 ->
  exists y, LD.to_double (LD.of_size (S n)) = Fin y /\ (0 < y)%Qc.
Proof.
  intros Hn. unfold LD.of_size, LD.to_double.
  rewrite Qc_of_Z_S_nonzero. unfold LD.round_to_double.
  rewrite Qc_of_Z_S_nonneg. rewrite this_Qc_of_Z.
  cbn [inject_Z Qnum Qden].
  set (N := Z.of_nat (S n)) in *.
  assert (HN : 0 < N) by (subst N; lia).
  rewrite (Z.abs_eq N) by lia.
  pose proof (Z.log2_spec N HN) as [L1 L2].
  pose proof (Z.log2_nonneg N) as L0.
  assert (L64 : Z.log2 N < 64) by (apply Z.log2_lt_pow2; lia).
  assert (E : floor_log2 N 1 = Z.log2 N).
  { unfold floor_log2. change (Z.log2 1) with 0. rewrite Z.sub_0_r.
    cbv zeta. destruct (Z.leb_spec 0 (Z.log2 N)); [ | lia].
    destruct (Z.leb_spec (1 * 2 ^ Z.log2 N) N); [reflexivity | lia]. }
  rewrite E. rewrite Z.max_l by lia. cbv zeta.
  set (u := Z.log2 N - 52).
  set (m := if 0 <=? u then div_half_even N (1 * 2 ^ u)
            else div_half_even (N * 2 ^ (- u)) 1).
  assert (Hm : 0 < m /\ (0 <= u -> m * 2 ^ u < 2 ^ 1024)).
  { subst m. destruct (Z.leb_spec 0 u) as [Hu | Hu].
    - rewrite Z.mul_1_l.
      assert (P : 0 < 2 ^ u) by (apply Z.pow_pos_nonneg; lia).
      pose proof (div_half_even_bounds N (2 ^ u) P) as [B1 B2].
      assert (Hq : 2 ^ 52 <= N / 2 ^ u).
      { apply Z.div_le_lower_bound; [exact P | ].
        rewrite <- Z.pow_add_r by lia.
        replace (u + 52) with (Z.log2 N) by (subst u; lia). exact L1. }
      assert (Hq2 : N / 2 ^ u < 2 ^ 53).
      { apply Z.div_lt_upper_bound; [exact P | ].
        rewrite <- Z.pow_add_r by lia.
        replace (u + 53) with (Z.succ (Z.log2 N)) by (subst u; lia).
        exact L2. }
      split; [lia | ]. intros _.
      assert (2 ^ u <= 2 ^ 11) by (apply Z.pow_le_mono_r; subst u; lia).
      assert (m2 : div_half_even N (2 ^ u) * 2 ^ u <= 2 ^ 53 * 2 ^ 11)
        by (apply Z.mul_le_mono_nonneg; lia).
      assert (2 ^ 53 * 2 ^ 11 < 2 ^ 1024) by reflexivity.
      lia.
    - assert (P : 0 < 2 ^ (- u)) by (apply Z.pow_pos_nonneg; lia).
      pose proof (div_half_even_bounds (N * 2 ^ (- u)) 1 ltac:(lia))
        as [B1 B2].
      rewrite Z.div_1_r in B1. split; [nia | lia]. }
  destruct Hm as [Hm0 Hm1].
  assert (Hov : (0 <=? u) && (2 ^ 1024 <=? m * 2 ^ u) = false).
  { destruct (Z.leb_spec 0 u); [ | reflexivity].
    cbn [andb]. apply Z.leb_gt. auto. }
  rewrite Hov. cbn [LD.signed andb].
  eexists. split; [reflexivity | ].
  replace 0%Qc with (0 * Qc_pow2 u)%Qc by ring.
  apply Qcmult_lt_compat_r; [apply Qc_pow2_pos | ].
  unfold Qclt. rewrite this_Qc_of_Z. change (this 0%Qc) with (inject_Z 0).
  rewrite <- Zlt_Qlt. exact Hm0.
Qed.

Lemma signed_not_nan (s : bool) (q : Qc) : LD.signed s q <> NaN.
Proof. unfold LD.signed. destruct (s && Qc_is_zero q); discriminate. Qed.

Lemma to_double_not_nan (a : ldouble) : a <> NaN -> LD.to_double a <> NaN.
Proof.
  destruct a as [q | s | | ]; cbn [LD.to_double]; try (intros H; exact H).
  intros _. destruct (Qc_is_zero q); [discriminate | ].
  unfold LD.round_to_double. cbv zeta.
  match goal with
  | |- (if ?c then _ else _) <> _ => destruct c
  end; [discriminate | apply signed_not_nan].
Qed.

Lemma accumulate_not_nan (qs : list Qc) :
  forall acc, acc <> NaN ->
    fold_left (fun acc x => LD.to_double (LD.add acc x)) (map Fin qs) acc
    <> NaN.
Proof.
  induction qs as [ | q qs IH]; intros acc Hacc; cbn [map fold_left].
  - exact Hacc.
  - apply IH, to_double_not_nan.
    destruct acc as [x | s | | ]; cbn [LD.add]; congruence.
Qed.

(** The mean of fewer than [2^64] finite values is never not-a-number. *)
Lemma avg_of_not_nan (q : Qc) (qs : list Qc) :
  Z.of_nat (List.length (q :: qs)) < 2 ^ 64 ->
  avg_of (map Fin (q :: qs)) <> NaN.
Proof.
  intros Hlen. unfold avg_of. apply to_double_not_nan.
  rewrite length_map. cbn [List.length] in *.
  destruct (to_double_size _ Hlen) as (y & -> & Hy).
  assert (Hz : Qc_is_zero y = false).
  { apply Qc_is_zero_false. intros ->. exact (Qclt_not_eq _ _ Hy eq_refl). }
  pose proof (accumulate_not_nan (q :: qs) (LD.of_Z 0) ltac:(discriminate))
    as Hacc.
  change (fold_left _ _ _) with (accumulate (map Fin (q :: qs))) in Hacc.
  destruct (accumulate (map Fin (q :: qs))) as [x | s | | ];
    cbn [LD.div]; rewrite ?Hz; try discriminate; try congruence.
  - apply signed_not_nan.
  - destruct (negb (Qc_is_neg y)); discriminate.
Qed.

(** The deviations from a mean that is a number. *)
Lemma sub_Fin_number (x m : Qc) (avg : ldouble) :
  unsigned_zero avg = Fin m -> LD.sub (Fin x) avg = Fin (x - m)%Qc.
Proof.
  destruct avg as [y | s | | ]; cbn [unsigned_zero]; try discriminate.
  - intros E. injection E as ->. apply sub_Fin.
  - intros E. injection E as <-. cbn [LD.sub LD.opp LD.add].
    apply Fin_eq, Qc_eq_bool_iff. rewrite Qc_of_Z_0. ring.
Qed.

Lemma sum_sq_dev_number_from (avg : ldouble) (m : Qc) (qs : list Qc) :
  unsigned_zero avg = Fin m ->
  forall a,
    fold_left (fun var x => LD.add var (LD.pow2 (LD.sub x avg)))
      (map Fin qs) (Fin a)
    = Fin (a + Qc_sum (map (fun x => (x - m) * (x - m)) qs))%Qc.
Proof.
  intros Hm.
  induction qs as [ | q qs IH]; intros a; cbn [map fold_left Qc_sum].
  - rewrite Qc_of_Z_0. f_equal. ring.
  - rewrite (sub_Fin_number _ _ _ Hm), pow2_Fin. cbn [LD.add].
    rewrite IH. f_equal. ring.
Qed.

Lemma sum_sq_dev_inf_from (s : bool) (qs : list Qc) :
  fold_left (fun var x => LD.add var (LD.pow2 (LD.sub x (Inf s))))
    (map Fin qs) (Inf false)
  = Inf false.
Proof.
  induction qs as [ | q qs IH]; cbn [map fold_left]; [reflexivity | ].
  cbn [LD.sub LD.opp LD.add LD.pow2 LD.mul]. rewrite xorb_nilpotent.
  cbn [LD.add Bool.eqb]. exact IH.
Qed.

Lemma Qc_sum_squares_nonneg (m : Qc) (l : list Qc) :
  (0 <= Qc_sum (map (fun x => (x - m) * (x - m)) l))%Qc.
Proof.
  set (sq := map _ _).
  assert (H : forall a, In a sq -> (0 <= a)%Qc).
  { subst sq. intros a Ha. apply in_map_iff in Ha.
    destruct Ha as (y & <- & _). apply Qc_square_nonneg. }
  pose proof (Qc_sum_lower 0%Qc sq H) as S. rewrite Qcmult_0_r in S. exact S.
Qed.

(** The variance block on finite values: non-negative when the mean is a
    number, the positive infinity when the mean is infinite. *)
Lemma variance_of_cases (q : Qc) (qs : list Qc) :
  avg_of (map Fin (q :: qs)) <> NaN ->
  (exists v, variance_of (map Fin (q :: qs)) = Fin v /\ (0 <= v)%Qc) \/
  variance_of (map Fin (q :: qs)) = Inf false.
Proof.
  intros Hnan. unfold variance_of, sum_sq_dev. rewrite length_map.
  destruct (avg_of (map Fin (q :: qs))) as [m | s | | ] eqn:Ea.
  - left. unfold LD.of_Z.
    rewrite (sum_sq_dev_number_from (Fin m) m (q :: qs) eq_refl).
    cbn [List.length]. rewrite div_by_size. eexists. split; [reflexivity | ].
    rewrite Qc_of_Z_0, Qcplus_0_l.
    apply Qcmult_lt_0_le_reg_r with (Qc_len (q :: qs));
      [apply Qc_len_pos | ].
    change (Qc_of_Z (Z.of_nat (S (List.length qs))))
      with (Qc_len (q :: qs)).
    rewrite div_mult_len, Qcmult_0_l. apply Qc_sum_squares_nonneg.
  - right. cbn [map fold_left].
    cbn [LD.of_Z LD.sub LD.opp LD.add LD.pow2 LD.mul].
    rewrite xorb_nilpotent. cbn [LD.add].
    rewrite sum_sq_dev_inf_from. cbn [List.length LD.of_size LD.div].
    rewrite Qc_of_Z_S_nonneg. reflexivity.
  - congruence.
  - left. unfold LD.of_Z.
    rewrite (sum_sq_dev_number_from NegZero (Qc_of_Z 0) (q :: qs) eq_refl).
    cbn [List.length]. rewrite div_by_size. eexists. split; [reflexivity | ].
    rewrite Qc_of_Z_0, Qcplus_0_l.
    apply Qcmult_lt_0_le_reg_r with (Qc_len (q :: qs));
      [apply Qc_len_pos | ].
    change (Qc_of_Z (Z.of_nat (S (List.length qs))))
      with (Qc_len (q :: qs)).
    rewrite div_mult_len, Qcmult_0_l. apply Qc_sum_squares_nonneg.
Qed.

(** X17: on a non-empty sequence of fewer than [2^64] finite values the
    computed mean is never not-a-number, and the variance is a finite
    non-negative number or the positive infinity, so the square root of the
    standard deviation block is never taken of a negative number: the
    standard deviation is the root of the variance, or the positive
    infinity, and never not-a-number.  The infinite case occurs: for the
    single value [10^400] the sum in [double] is infinite. *)
Theorem variance_nonneg_std_defined (root : Qc -> Qc) (q : Qc)
  (qs : list Qc) :
  Z.of_nat (List.length (q :: qs)) < 2 ^ 64 ->
  avg_of (map Fin (q :: qs)) <> NaN /\
  ((exists v,
       variance_of (map Fin (q :: qs)) = Fin v /\
       (0 <= v)%Qc /\
       std_of root (map Fin (q :: qs)) = Fin (root v)) \/
   (variance_of (map Fin (q :: qs)) = Inf false /\
    std_of root (map Fin (q :: qs)) = Inf false)) /\
  avg_of [qz (10 ^ 400)] = Inf false /\
  variance_of [qz (10 ^ 400)] = Inf false.
Proof.
  intros Hlen. pose proof (avg_of_not_nan q qs Hlen) as Hnan.
  split; [exact Hnan | ].
  split; [ | split; vm_compute; reflexivity].
  change (std_of root (map Fin (q :: qs)))
    with (LD.sqrt root (variance_of (map Fin (q :: qs)))).
  destruct (variance_of_cases q qs Hnan) as [(v & Hv & H0) | Hv];
    rewrite Hv.
  - left. exists v. split; [reflexivity | split; [exact H0 | ]].
    unfold LD.sqrt.
    replace (Qc_is_neg v) with false; [reflexivity | ].
    symmetry. apply Qc_ltb_ge. exact H0.
  - right. split; reflexivity.
Qed.

Lemma variance_nonneg_std_defined_witness :
  let q := Qc_of_Z 1 in
  let qs := [Qc_of_Z 2; Qc_of_Z 3] in
  avg_of (map Fin (q :: qs)) <> NaN /\
  ((exists v,
       variance_of (map Fin (q :: qs)) = Fin v /\
       (0 <= v)%Qc /\
       std_of (fun x => x) (map Fin (q :: qs)) = Fin v) \/
   (variance_of (map Fin (q :: qs)) = Inf false /\
    std_of (fun x => x) (map Fin (q :: qs)) = Inf false)) /\
  avg_of [qz (10 ^ 400)] = Inf false /\
  variance_of [qz (10 ^ 400)] = Inf false.
Proof.
  intros q qs.
  apply (variance_nonneg_std_defined (fun x => x) q qs).
  reflexivity.
Defined.

(** X18: when the mean that the program has computed compares equal to
    zero, the coefficient of variation block divides by zero: it prints
    not-a-number or an infinity, never a finite number. *)
Theorem coef_of_zero_mean_not_finite (root : Qc -> Qc)
  (generated : list ldouble) :
  LD.eqb (avg_of generated) (LD.of_Z 0) = true ->
  coef_of root generated = NaN \/
  exists s, coef_of root generated = Inf s.
Proof.
  intros Hmean.
  change (coef_of root generated)
    with (LD.div (std_of root generated) (avg_of generated)).
  destruct (avg_of generated) as [m | t | | ];
    cbn [LD.eqb LD.of_Z] in Hmean; try discriminate.
  - apply Qc_eq_bool_correct in Hmean. subst m.
    destruct (std_of root generated) as [x | s | | ]; cbn [LD.div].
    + change (Qc_is_zero (Qc_of_Z 0)) with true. cbv iota.
      destruct (Qc_is_zero x); [now left | right; eauto].
    + right. eauto.
    + now left.
    + now left.
  - destruct (std_of root generated) as [x | s | | ]; cbn [LD.div].
    + destruct (Qc_is_zero x); [now left | right; eauto].
    + right. eauto.
    + now left.
    + now left.
Qed.

Lemma coef_of_zero_mean_not_finite_witness :
  coef_of (fun x => x) (map Fin [Qc_of_Z (-1); Qc_of_Z 1]) = NaN \/
  exists s, coef_of (fun x => x) (map Fin [Qc_of_Z (-1); Qc_of_Z 1]) = Inf s.
Proof.
  apply (coef_of_zero_mean_not_finite (fun x => x)
           (map Fin [Qc_of_Z (-1); Qc_of_Z 1])).
  vm_compute. reflexivity.
Defined.

(** ** The in-place reordering of the median block *)

Lemma statistics_avg_line (root : Qc -> Qc) (args : program_args)
  (generated : list ldouble) :
  stat_all args || stat_avg args = true ->
  In ("avg: "%string,
      Printed (avg_of (if stat_all args || stat_median args
                       then nth_element generated
                              (List.length generated / 2)
                       else generated)))
     (statistics root args generated).
Proof.
  intros H. unfold statistics. rewrite H.
  apply in_or_app. right. apply in_or_app. right. apply in_or_app. right.
  apply in_or_app. left. now left.
Qed.

(** X19: the median block reorders the vector in place before the average
    block reads it, and the sum is accumulated in [double], where it depends
    on the order: for the accepted values [2^53 + 1], 1 the contract of
    [nth_element] forces the order 1, [2^53 + 1], whose average is
    [2^52 + 1], while the average of the original order is [2^52]; so the
    average printed with the median differs from the one printed without. *)
Theorem reordering_changes_rounded_mean :
  let g := [qz (2 ^ 53 + 1); qz 1] in
  (forall root args generated,
      stat_all args || stat_avg args = true ->
      In ("avg: "%string,
          Printed (avg_of (if stat_all args || stat_median args
                           then nth_element generated
                                  (List.length generated / 2)
                           else generated)))
         (statistics root args generated)) /\
  (forall after, nth_element_post g (List.length g / 2) after ->
                 after = [qz 1; qz (2 ^ 53 + 1)]) /\
  nth_element g (List.length g / 2) = [qz 1; qz (2 ^ 53 + 1)] /\
  avg_of [qz 1; qz (2 ^ 53 + 1)] = qz (2 ^ 52 + 1) /\
  avg_of g = qz (2 ^ 52).
Proof.
  intros g. split; [exact statistics_avg_line | ].
  split; [ | split; [reflexivity | split]].
  - intros after [P H].
    assert (L : List.length after = 2%nat)
      by (rewrite <- (Permutation_length P); reflexivity).
    destruct after as [ | a [ | b [ | c r]]]; try discriminate L.
    subst g. change (List.length [qz (2 ^ 53 + 1); qz 1] / 2)%nat
      with 1%nat in H.
    pose proof (H 0%nat 1%nat a b eq_refl eq_refl
                  (or_introl (conj (Nat.lt_0_succ 0) (Nat.le_refl 1)))) as Hab.
    assert (Ia : In a [qz (2 ^ 53 + 1); qz 1])
      by (apply (Permutation_in _ (Permutation_sym P)); now left).
    assert (Ib : In b [qz (2 ^ 53 + 1); qz 1])
      by (apply (Permutation_in _ (Permutation_sym P)); right; now left).
    assert (N : NoDup [a; b]).
    { apply (Permutation_NoDup P). repeat constructor.
      - intros [E | []]. discriminate (f_equal (LD.ltb (qz 1)) E).
      - intros []. }
    destruct Ia as [<- | [<- | []]]; destruct Ib as [<- | [<- | []]].
    + inversion N as [ | ? ? Hn _]. exfalso. apply Hn. now left.
    + discriminate Hab.
    + reflexivity.
    + inversion N as [ | ? ? Hn _]. exfalso. apply Hn. now left.
  - apply Fin_eq_of. vm_compute. eexists.
    split; [reflexivity | vm_compute; reflexivity].
  - apply Fin_eq_of. vm_compute. eexists.
    split; [reflexivity | vm_compute; reflexivity].
Qed.

(** ** The median of an odd number of values, and the older median *)

Lemma median_after_odd (qs : list Qc) (k : nat) (after : list ldouble) :
  List.length qs = (2 * k + 1)%nat ->
  nth_element_post (map Fin qs) k after ->
  exists mid,
    nth_error (Qc_sort qs) k = Some mid /\
    median_after after = Printed (Fin mid).
Proof.
  intros Hlen Hpost.
  destruct (nth_element_post_split qs k after) as
    (A & x & B & -> & HA & P & Hlow & Hup); [lia | exact Hpost | ].
  assert (HS : Qc_sort qs = Qc_sort (A ++ x :: B)).
  { apply sorted_perm_unique; try apply Qc_sort_sorted.
    rewrite <- (Qc_sort_perm qs), <- (Qc_sort_perm (A ++ x :: B)). exact P. }
  assert (HlenS : List.length (Qc_sort A) = k)
    by (rewrite <- HA; symmetry; apply Permutation_length, Qc_sort_perm).
  exists x. split.
  - rewrite HS, partitioned_sort by assumption.
    rewrite nth_error_app2, HlenS, Nat.sub_diag by lia. reflexivity.
  - unfold median_after. rewrite length_map, <- (Permutation_length P), Hlen.
    replace ((2 * k + 1) / 2)%nat with k
      by (apply (Nat.div_unique _ 2 k 1); lia).
    replace ((2 * k + 1) mod 2)%nat with 1%nat
      by (apply (Nat.mod_unique _ 2 k 1); lia).
    unfold deref. rewrite nth_error_map, <- HA.
    rewrite nth_error_app2, Nat.sub_diag by lia. reflexivity.
Qed.

(** X20: for an odd number of finite values the median block prints the
    middle order statistic, whatever reordering [nth_element] chooses within
    its contract. *)
Theorem median_odd_is_middle_value (qs : list Qc) (k : nat)
  (after : list ldouble) :
  List.length qs = (2 * k + 1)%nat ->
  nth_element_post (map Fin qs) k after ->
  exists mid,
    nth_error (Qc_sort qs) k = Some mid /\
    StronglySorted Qcle (Qc_sort qs) /\ Permutation qs (Qc_sort qs) /\
    median_after after = Printed (Fin mid) /\
    median_of (map Fin qs) = Printed (Fin mid).
Proof.
  intros Hlen Hpost.
  destruct (median_after_odd qs k after Hlen Hpost) as (mid & H1 & H2).
  exists mid.
  split; [exact H1 | split; [apply Qc_sort_sorted | split;
    [apply Qc_sort_perm | split; [exact H2 | ]]]].
  destruct (median_after_odd qs k (nth_element (map Fin qs) k) Hlen)
    as (mid' & H1' & H2'); [apply nth_element_meets_post | ].
  unfold median_of. rewrite length_map, Hlen.
  replace ((2 * k + 1) / 2)%nat with k
    by (apply (Nat.div_unique _ 2 k 1); lia).
  rewrite H2'. congruence.
Qed.

Lemma median_odd_is_middle_value_witness :
  let qs := [Qc_of_Z 4; Qc_of_Z 1; Qc_of_Z 3] in
  exists mid,
    nth_error (Qc_sort qs) 1 = Some mid /\
    StronglySorted Qcle (Qc_sort qs) /\ Permutation qs (Qc_sort qs) /\
    median_after (nth_element (map Fin qs) 1) = Printed (Fin mid) /\
    median_of (map Fin qs) = Printed (Fin mid).
Proof.
  intros qs.
  apply (median_odd_is_middle_value qs 1 (nth_element (map Fin qs) 1)).
  - reflexivity.
  - apply nth_element_meets_post.
Defined.

Lemma median_sorted_even (qs : list Qc) (k : nat) (lo hi : Qc) :
  (0 < k)%nat -> List.length qs = (2 * k)%nat ->
  nth_error (Qc_sort qs) (k - 1) = Some lo ->
  nth_error (Qc_sort qs) k = Some hi ->
  median_sorted (map Fin qs) = Printed (Fin ((lo + hi) / Qc_of_Z 2)%Qc).
Proof.
  intros Hk Hlen Hlo Hhi. unfold median_sorted.
  rewrite sort_map_Fin, length_map, <- (Permutation_length (Qc_sort_perm qs)).
  rewrite Hlen.
  replace (2 * k / 2)%nat with k by (rewrite Nat.mul_comm, Nat.div_mul; lia).
  replace ((2 * k) mod 2)%nat with O
    by (rewrite Nat.mul_comm, Nat.Div0.mod_mul; reflexivity).
  cbn [Nat.eqb]. unfold deref. rewrite !nth_error_map, Hlo, Hhi.
  cbn [option_map LD.add]. now rewrite div_by_two.
Qed.

Lemma median_sorted_odd (qs : list Qc) (k : nat) (mid : Qc) :
  List.length qs = (2 * k + 1)%nat ->
  nth_error (Qc_sort qs) k = Some mid ->
  median_sorted (map Fin qs) = Printed (Fin mid).
Proof.
  intros Hlen Hmid. unfold median_sorted.
  rewrite sort_map_Fin, length_map, <- (Permutation_length (Qc_sort_perm qs)).
  rewrite Hlen.
  replace ((2 * k + 1) / 2)%nat with k
    by (apply (Nat.div_unique _ 2 k 1); lia).
  replace ((2 * k + 1) mod 2)%nat with 1%nat
    by (apply (Nat.mod_unique _ 2 k 1); lia).
  cbn [Nat.eqb]. unfold deref. rewrite nth_error_map, Hmid. reflexivity.
Qed.

(** X21: on every sequence of finite values, the empty one included, the
    median block built on [nth_element] and [max_element] gives the same
    result as the median block of the first variant of the tool, which sorts
    the whole vector and takes the middle element or the mean of the two
    middle elements. *)
Theorem median_agrees_with_sorted_median (qs : list Qc) :
  median_of (map Fin qs) = median_sorted (map Fin qs).
Proof.
  destruct qs as [ | q0 qs0]; [reflexivity | ].
  set (qs := q0 :: qs0).
  set (k := (List.length qs / 2)%nat).
  pose proof (Nat.div_mod_eq (List.length qs) 2) as Hdm. fold k in Hdm.
  pose proof (Nat.mod_upper_bound (List.length qs) 2 ltac:(lia)) as Hm.
  destruct (List.length qs mod 2)%nat as [ | [ | r]] eqn:Er; [ | | lia].
  - assert (Hk : (0 < k)%nat) by (subst qs; simpl in *; lia).
    assert (Hlen : List.length qs = (2 * k)%nat) by lia.
    destruct (median_after_post qs k (nth_element (map Fin qs) k) Hk Hlen)
      as (lo & hi & H1 & H2 & _ & H4); [apply nth_element_meets_post | ].
    rewrite (median_sorted_even qs k lo hi Hk Hlen H1 H2).
    unfold median_of. rewrite length_map. fold k. rewrite H4.
    now rewrite Qcplus_comm.
  - assert (Hlen : List.length qs = (2 * k + 1)%nat) by lia.
    destruct (median_after_odd qs k (nth_element (map Fin qs) k) Hlen)
      as (mid & H1 & H2); [apply nth_element_meets_post | ].
    rewrite (median_sorted_odd qs k mid Hlen H1).
    unfold median_of. rewrite length_map. fold k. exact H2.
Qed.

Lemma median_of_perm (qs qs' : list Qc) :
  Permutation qs qs' ->
  median_of (map Fin qs) = median_of (map Fin qs').
Proof.
  intros P. unfold median_of, nth_element.
  rewrite !sort_map_Fin.
  replace (Qc_sort qs') with (Qc_sort qs); [reflexivity | ].
  apply sorted_perm_unique; try apply Qc_sort_sorted.
  rewrite <- (Qc_sort_perm qs), <- (Qc_sort_perm qs'). exact P.
Qed.

(** Whatever reordering [nth_element] chooses within its contract, the
    median block gives the result computed with a full sort. *)
Lemma median_after_determined (qs : list Qc) (after : list ldouble) :
  nth_element_post (map Fin qs) (List.length qs / 2) after ->
  median_after after = median_of (map Fin qs).
Proof.
  intros Hpost.
  destruct qs as [ | q0 qs0].
  { destruct Hpost as [P _]. apply Permutation_nil in P. now subst. }
  set (qs := q0 :: qs0) in *.
  set (k := (List.length qs / 2)%nat) in *.
  pose proof (Nat.div_mod_eq (List.length qs) 2) as Hdm. fold k in Hdm.
  pose proof (Nat.mod_upper_bound (List.length qs) 2 ltac:(lia)) as Hm.
  destruct (List.length qs mod 2)%nat as [ | [ | r]] eqn:Er; [ | | lia].
  - assert (Hk : (0 < k)%nat) by (subst qs; simpl in *; lia).
    assert (Hlen : List.length qs = (2 * k)%nat) by lia.
    destruct (median_after_post qs k after Hk Hlen Hpost)
      as (lo & hi & H1 & H2 & _ & H4).
    destruct (median_after_post qs k (nth_element (map Fin qs) k) Hk Hlen)
      as (lo' & hi' & H1' & H2' & _ & H4'); [apply nth_element_meets_post | ].
    unfold median_of. rewrite length_map. fold k. rewrite H4, H4'.
    congruence.
  - assert (Hlen : List.length qs = (2 * k + 1)%nat) by lia.
    destruct (median_after_odd qs k after Hlen Hpost) as (mid & H1 & H2).
    destruct (median_after_odd qs k (nth_element (map Fin qs) k) Hlen)
      as (mid' & H1' & H2'); [apply nth_element_meets_post | ].
    unfold median_of. rewrite length_map. fold k. rewrite H2, H2'.
    congruence.
Qed.

(** X22: the printed median depends only on which finite values were
    accepted, not on the order in which they were accepted nor on the
    reordering that [nth_element] chooses within its contract. *)
Theorem median_ignores_order (qs qs' : list Qc) (after after' : list ldouble) :
  Permutation qs qs' ->
  nth_element_post (map Fin qs) (List.length qs / 2) after ->
  nth_element_post (map Fin qs') (List.length qs' / 2) after' ->
  median_after after = median_after after'.
Proof.
  intros P H H'.
  rewrite (median_after_determined qs after H).
  rewrite (median_after_determined qs' after' H').
  now apply median_of_perm.
Qed.

Lemma median_ignores_order_witness :
  let qs := [Qc_of_Z 4; Qc_of_Z 1; Qc_of_Z 3; Qc_of_Z 2] in
  let qs' := [Qc_of_Z 1; Qc_of_Z 4; Qc_of_Z 2; Qc_of_Z 3] in
  median_after (nth_element (map Fin qs) 2)
  = median_after (nth_element (map Fin qs') 2).
Proof.
  intros qs qs'.
  apply (median_ignores_order qs qs').
  - apply perm_trans with [Qc_of_Z 1; Qc_of_Z 4; Qc_of_Z 3; Qc_of_Z 2].
    + apply perm_swap.
    + do 2 apply perm_skip. apply perm_swap.
  - apply nth_element_meets_post.
  - apply nth_element_meets_post.
Defined.

(** ** The fallback generator *)

Section Badrandom.

Local Open Scope Qc_scope.

Lemma add_signed (l z : Qc) (s : bool) :
  LD.add (Fin l) (LD.signed s z) = Fin (l + z).
Proof.
  unfold LD.signed. destruct (s && Qc_is_zero z) eqn:E; [ | reflexivity].
  apply andb_true_iff in E. destruct E as [_ E].
  apply Qc_is_zero_true in E. subst z. cbn [LD.add].
  apply Fin_eq, Qc_eq_bool_iff. ring.
Qed.

Lemma add_zero (l : Qc) (s : bool) : LD.add (Fin l) (LD.zero s) = Fin l.
Proof.
  destruct s; cbn [LD.zero LD.add]; [reflexivity | ].
  apply Fin_eq, Qc_eq_bool_iff. rewrite Qc_of_Z_0. ring.
Qed.

(** The value computed by the [badrandom] branch for finite bounds: the
    lower bound plus the fraction [raw / RAND_MAX] of the width. *)
Lemma badrandom_value (RAND_MAX raw : Z) (args : program_args) (l u : Qc) :
  Qc_of_Z RAND_MAX <> 0 ->
  lbound args = Fin l -> ubound args = Fin u ->
  badrandom RAND_MAX raw args
  = Fin (l + Qc_of_Z raw / Qc_of_Z RAND_MAX * (u - l)).
Proof.
  intros HR Hl Hu. unfold badrandom, LD.of_Z. rewrite Hl, Hu, sub_Fin.
  assert (HR' : Qc_is_zero (Qc_of_Z RAND_MAX) = false)
    by (now apply Qc_is_zero_false).
  destruct (Qc_is_zero (u - l)) eqn:Ed.
  - unfold LD.div at 2. rewrite Ed, HR'.
    cbn [LD.div]. rewrite add_zero. apply Qc_is_zero_true in Ed.
    apply Fin_eq, Qc_eq_bool_iff. rewrite Ed. ring.
  - unfold LD.div at 2. rewrite Ed.
    apply Qc_is_zero_false in Ed.
    assert (Hq : Qc_of_Z RAND_MAX / (u - l) <> 0)
      by (now apply Qcdiv_nonzero).
    rewrite signed_Fin by (intros _; exact Hq).
    unfold LD.div. apply Qc_is_zero_false in Hq. rewrite Hq.
    apply Qc_is_zero_false in Hq.
    rewrite add_signed. apply Fin_eq, Qc_eq_bool_iff.
    field. split; assumption.
Qed.

Lemma fraction_bounds (RAND_MAX raw : Z) :
  (0 < RAND_MAX)%Z -> (0 <= raw <= RAND_MAX)%Z ->
  0 <= Qc_of_Z raw / Qc_of_Z RAND_MAX /\
  Qc_of_Z raw / Qc_of_Z RAND_MAX <= 1.
Proof.
  intros HR Hraw.
  assert (Hpos : 0 < Qc_of_Z RAND_MAX).
  { unfold Qclt. rewrite this_of_Z. change (this 0) with (inject_Z 0).
    rewrite <- Zlt_Qlt. exact HR. }
  assert (Hne : Qc_of_Z RAND_MAX <> 0).
  { intros E. rewrite E in Hpos. exact (Qclt_not_eq _ _ Hpos eq_refl). }
  assert (Hmul : Qc_of_Z raw / Qc_of_Z RAND_MAX * Qc_of_Z RAND_MAX
                 = Qc_of_Z raw).
  { rewrite Qcmult_comm. now apply Qcmult_div_r. }
  split; apply Qcmult_lt_0_le_reg_r with (Qc_of_Z RAND_MAX); try exact Hpos;
    rewrite Hmul.
  - rewrite Qcmult_0_l. unfold Qcle. rewrite this_of_Z.
    change (this 0) with (inject_Z 0). rewrite <- Zle_Qle. lia.
  - rewrite Qcmult_1_l. unfold Qcle. rewrite !this_of_Z.
    rewrite <- Zle_Qle. lia.
Qed.

End Badrandom.

(** X23: with finite bounds, a positive [RAND_MAX] and a raw value between
    0 and [RAND_MAX], the fallback generator returns the lower bound plus the
    fraction [raw / RAND_MAX] of the width: a finite value between the two
    bounds in exact arithmetic, also when the bounds are given in the wrong
    order, and the lower bound itself when the two bounds are equal (the
    inner division by zero gives an infinity, by which [raw] is divided). *)
Theorem badrandom_within_bounds (RAND_MAX raw : Z) (args : program_args)
  (l u : Qc) :
  (0 < RAND_MAX)%Z -> (0 <= raw <= RAND_MAX)%Z ->
  lbound args = Fin l -> ubound args = Fin u ->
  exists x,
    badrandom RAND_MAX raw args = Fin x /\
    ((l <= u)%Qc -> (l <= x)%Qc /\ (x <= u)%Qc) /\
    ((u <= l)%Qc -> (u <= x)%Qc /\ (x <= l)%Qc) /\
    (l = u -> x = l).
Proof.
  intros HR Hraw Hl Hu.
  destruct (fraction_bounds RAND_MAX raw HR Hraw) as [T0 T1].
  assert (Hne : Qc_of_Z RAND_MAX <> 0%Qc).
  { intros E. apply (f_equal this) in E.
    pose proof (this_of_Z RAND_MAX) as H. rewrite E in H.
    change (this 0%Qc) with (inject_Z 0) in H.
    apply (proj1 (inject_Z_injective _ _)) in H. lia. }
  rewrite (badrandom_value RAND_MAX raw args l u Hne Hl Hu).
  set (t := (Qc_of_Z raw / Qc_of_Z RAND_MAX)%Qc) in *.
  exists (l + t * (u - l))%Qc. split; [reflexivity | ].
  pose proof (this_plus l (t * (u - l))%Qc) as E1.
  pose proof (this_mult t (u - l)%Qc) as E2.
  pose proof (this_minus u l) as E3.
  unfold Qcle in *. change (this 0%Qc) with 0%Q in T0.
  change (this 1%Qc) with 1%Q in T1.
  split; [ | split].
  - intros Hlu. split; nra.
  - intros Hul. split; nra.
  - intros ->. ring.
Qed.

Lemma badrandom_within_bounds_witness :
  let args := args_with 21 1 false false false [] [] false [] [] []
                false false in
  exists x,
    badrandom 32767 12345 args = Fin x /\
    ((Qc_of_Z 0 <= Qc_of_Z 1)%Qc ->
     (Qc_of_Z 0 <= x)%Qc /\ (x <= Qc_of_Z 1)%Qc) /\
    ((Qc_of_Z 1 <= Qc_of_Z 0)%Qc ->
     (Qc_of_Z 1 <= x)%Qc /\ (x <= Qc_of_Z 0)%Qc) /\
    (Qc_of_Z 0 = Qc_of_Z 1 -> x = Qc_of_Z 0).
Proof.
  intros args.
  apply (badrandom_within_bounds 32767 12345 args (Qc_of_Z 0) (Qc_of_Z 1)).
  - lia.
  - lia.
  - reflexivity.
  - reflexivity.
Defined.

(** ** The pattern predicates *)

Lemma starts_with_contains (input test : string) :
  boost.starts_with input test = true -> boost.contains input test = true.
Proof.
  unfold boost.starts_with. intros H.
  destruct input; cbn [boost.contains]; rewrite H; reflexivity.
Qed.

Lemma substring_contains (test : string) :
  forall input n,
    String.substring n (String.length test) input = test ->
    (n + String.length test <= String.length input)%nat ->
    boost.contains input test = true.
Proof.
  induction input as [ | c r IH]; intros n Hs Hl.
  - simpl in *. destruct test; [reflexivity | simpl in Hl; lia].
  - destruct n as [ | n].
    + apply String.prefix_correct in Hs.
      cbn [boost.contains]. rewrite Hs. reflexivity.
    + cbn [boost.contains]. rewrite (IH n).
      * apply orb_true_r.
      * exact Hs.
      * simpl in Hl. lia.
Qed.

Lemma ends_with_contains (input test : string) :
  boost.ends_with input test = true -> boost.contains input test = true.
Proof.
  unfold boost.ends_with. intros H. apply andb_true_iff in H.
  destruct H as [Hl He]. apply Nat.leb_le in Hl. apply String.eqb_eq in He.
  apply (substring_contains test input
           (String.length input - String.length test)); [exact He | lia].
Qed.

Lemma substring_zero_length (s : string) :
  forall n, String.substring n 0 s = EmptyString.
Proof.
  induction s as [ | c r IH]; intros [ | n]; simpl; auto.
Qed.

Lemma empty_pattern_matches (input : string) :
  boost.starts_with input "" = true /\
  boost.ends_with input "" = true /\
  boost.contains input "" = true.
Proof.
  split; [ | split].
  - unfold boost.starts_with. destruct input; reflexivity.
  - unfold boost.ends_with. cbn [String.length Nat.leb andb].
    rewrite substring_zero_length. reflexivity.
  - destruct input; reflexivity.
Qed.

(** X24: a rendered value that no pattern of a set occurs in has none of
    them as a prefix and none as a suffix either: whenever the contains test
    rejects a value, the prefix test and the suffix test with the same
    patterns reject it too. *)
Theorem contains_test_is_weakest (rand : ldouble) (p : Z)
  (fx : list string) :
  filter rand p fx boost.contains = true ->
  filter rand p fx boost.starts_with = true /\
  filter rand p fx boost.ends_with = true.
Proof.
  rewrite !filter_none_match. intros H. split; intros s Hs.
  - destruct (boost.starts_with (to_fixed p rand) s) eqn:E; [ | reflexivity].
    apply starts_with_contains in E. rewrite (H s Hs) in E. discriminate.
  - destruct (boost.ends_with (to_fixed p rand) s) eqn:E; [ | reflexivity].
    apply ends_with_contains in E. rewrite (H s Hs) in E. discriminate.
Qed.

Lemma contains_test_is_weakest_witness :
  filter (qq 314159 100000) 2 ["7"%string; "15"%string] boost.starts_with
  = true /\
  filter (qq 314159 100000) 2 ["7"%string; "15"%string] boost.ends_with
  = true.
Proof.
  apply (contains_test_is_weakest (qq 314159 100000) 2
           ["7"%string; "15"%string]).
  vm_compute. reflexivity.
Defined.

(** X25: the empty string passes the numeric check of validation, and a
    pattern set that holds it never rejects anything: the empty pattern is a
    prefix, a suffix and a substring of every rendering. *)
Theorem empty_pattern_disables_test (rand : ldouble) (p : Z)
  (fx : list string) :
  In EmptyString fx ->
  not_numeric EmptyString = false /\
  filter rand p fx boost.starts_with = false /\
  filter rand p fx boost.ends_with = false /\
  filter rand p fx boost.contains = false.
Proof.
  intros Hin.
  destruct (empty_pattern_matches (to_fixed p rand)) as (H1 & H2 & H3).
  split; [reflexivity | ].
  repeat split; apply filter_some_match; exists EmptyString; auto.
Qed.

Lemma empty_pattern_disables_test_witness :
  not_numeric EmptyString = false /\
  filter (qq 1 3) 4 ["9"%string; EmptyString] boost.starts_with = false /\
  filter (qq 1 3) 4 ["9"%string; EmptyString] boost.ends_with = false /\
  filter (qq 1 3) 4 ["9"%string; EmptyString] boost.contains = false.
Proof.
  apply (empty_pattern_disables_test (qq 1 3) 4 ["9"%string; EmptyString]).
  simpl. right. left. reflexivity.
Defined.

(** ** The two variants of the validation *)

(** X26: every configuration that the validation of the newest variant
    accepts is accepted by the validation of the older variant (when
    [--exclude] was not given without values), with the same resulting
    structure. *)
Theorem older_validation_accepts_newer (ld_prec : Z)
  (args a' : program_args) :
  parse_args ld_prec false args = (success, a') ->
  Older.parse_args ld_prec false false args = (Older.success, a').
Proof.
  intros H.
  destruct (parse_args_success _ _ _ H) as (Hp & Hn & Hg & Hr & Hpat & ->).
  unfold Older.parse_args, patterns_numeric in *.
  destruct (Z.leb_spec (number args) 0); [lia | ].
  destruct (Z.ltb_spec 1 (rounding_count args)); [lia | ].
  destruct (rounding_active args); cbv zeta.
  - cbn [precision prefix suffix contains generator set_precision].
    destruct (Z.ltb_spec ld_prec 0); [lia | ].
    change (0 <=? -1) with false. cbv iota.
    rewrite Hpat, Hg. reflexivity.
  - destruct (Z.ltb_spec ld_prec (precision args)); [lia | ].
    destruct (Z.leb_spec (precision args) (-1)); [lia | ].
    rewrite Hpat, Hg. reflexivity.
Qed.

Lemma older_validation_accepts_newer_witness :
  let args := args_with 5 1 false false true [] [] false
                ["3"%string] [] [] false false in
  Older.parse_args ld_prec_x87 false false args
  = (Older.success, set_precision 0 args).
Proof.
  intros args.
  apply (older_validation_accepts_newer ld_prec_x87 args
           (set_precision 0 args)).
  reflexivity.
Defined.

(** X27: the older variant sets the precision to 0 before it checks the
    range, so with a rounding mode selected it never answers with one of the
    two precision errors, whatever precision was requested, and every result
    past the conflict check has precision 0; the same requests outside
    [0, ld_prec] make the newest variant answer with a precision error. *)
Theorem older_validation_overrides_first (ld_prec : Z) (exclude_empty : bool)
  (args : program_args) :
  0 <= ld_prec ->
  rounding_active args = true ->
  fst (Older.parse_args ld_prec false exclude_empty args) <> Older.overd_err /\
  fst (Older.parse_args ld_prec false exclude_empty args) <> Older.underd_err
  /\
  (1 <= number args -> rounding_count args <= 1 ->
   precision (snd (Older.parse_args ld_prec false exclude_empty args)) = 0) /\
  (precision args < 0 \/ ld_prec < precision args ->
   fst (parse_args ld_prec false args) = overd_err \/
   fst (parse_args ld_prec false args) = underd_err).
Proof.
  intros Hl Ha. unfold Older.parse_args. rewrite Ha. cbv zeta.
  cbn [precision set_precision].
  destruct (Z.ltb_spec ld_prec 0); [lia | ].
  change (0 <=? -1) with false. cbv iota.
  repeat split.
  - destruct (number args <=? 0); [discriminate | ].
    destruct (1 <? rounding_count args); [discriminate | ].
    destruct exclude_empty; [discriminate | ].
    destruct (existsb _ _); [discriminate | ].
    destruct (negb _); discriminate.
  - destruct (number args <=? 0); [discriminate | ].
    destruct (1 <? rounding_count args); [discriminate | ].
    destruct exclude_empty; [discriminate | ].
    destruct (existsb _ _); [discriminate | ].
    destruct (negb _); discriminate.
  - intros Hn Hr.
    destruct (Z.leb_spec (number args) 0); [lia | ].
    destruct (Z.ltb_spec 1 (rounding_count args)); [lia | ].
    destruct exclude_empty; [reflexivity | ].
    destruct (existsb _ _); [reflexivity | ].
    destruct (negb _); reflexivity.
  - intros Hout. unfold parse_args.
    destruct (Z.ltb_spec ld_prec (precision args)); [now left | ].
    destruct (Z.leb_spec (precision args) (-1)); [now right | lia].
Qed.

Lemma older_validation_overrides_first_witness :
  let args := args_with 22 1 false false true [] [] false [] [] []
                false false in
  fst (Older.parse_args ld_prec_x87 false false args) <> Older.overd_err /\
  fst (Older.parse_args ld_prec_x87 false false args) <> Older.underd_err /\
  (1 <= number args -> rounding_count args <= 1 ->
   precision (snd (Older.parse_args ld_prec_x87 false false args)) = 0) /\
  (precision args < 0 \/ ld_prec_x87 < precision args ->
   fst (parse_args ld_prec_x87 false args) = overd_err \/
   fst (parse_args ld_prec_x87 false args) = underd_err).
Proof.
  intros args.
  apply (older_validation_overrides_first ld_prec_x87 false args).
  - unfold ld_prec_x87. lia.
  - reflexivity.
Defined.
